(** * Power_XML: the flat-path XML diff worker and the editor's tree indexer

    A shallow embedding of [src/workers/xmlDiffWorker.ts] (path flattener,
    diff engine, message handler), of the tree functions of the XML editor
    component ([buildEditableTree], [buildXmlFromEditable], [regenerateIds],
    [duplicatePath] and their helpers, the edits of values, attributes and
    nodes, the undo history), of the CSV export and of the comparison view's
    [handleCompare], followed by the properties the specification states
    about them and by further properties of the code. *)

From Stdlib Require Import ZArith Ascii String.
From Stdlib Require PrimFloat FloatOps SpecFloat Uint63.
From stdpp Require Import base option list gmap strings pretty sorting.

Local Open Scope string_scope.
Local Open Scope list_scope.
Set Warnings "-register-all,-clear-no-such-hyp".

(** ** JavaScript values, strings and plain objects *)

Module Js.

(** Strings are sequences of code units; the model carries the code units
    below 256, which is where every separator the program inserts lives. *)

(** [String.prototype.trim] removes WhiteSpace and LineTerminator code
    points; below 256 these are TAB, LF, VT, FF, CR, SP and NBSP. *)
Definition is_white_space (c : ascii) : bool :=
  match c with
  | "009" | "010" | "011" | "012" | "013" | " " | "160" => true
  | _ => false
  end%char.

Fixpoint trimStart (s : string) : string :=
  match s with
  | "" => ""
  | String c r => if is_white_space c then trimStart r else s
  end.

Fixpoint trimEnd (s : string) : string :=
  match s with
  | "" => ""
  | String c r =>
      match trimEnd r with
      | "" => if is_white_space c then "" else String c ""
      | r' => String c r'
      end
  end.

Definition trim (s : string) : string := trimEnd (trimStart s).

(** Truthiness of a string: only the empty string is falsy. *)
Definition truthy_string (s : string) : bool :=
  match s with "" => false | _ => true end.

Fixpoint startsWith (s p : string) {struct p} : bool :=
  match p, s with
  | "", _ => true
  | String a p', String b s' => if decide (a = b) then startsWith s' p' else false
  | String _ _, "" => false
  end.

(** [Array.prototype.join] on an array of strings. *)
Fixpoint join (sep : string) (l : list string) : string :=
  match l with
  | [] => ""
  | [x] => x
  | x :: r => x +:+ sep +:+ join sep r
  end.

Definition is_digit (c : ascii) : bool :=
  match Ascii.is_nat c with Some _ => true | None => false end.

(** The regular expression [/\[(\d+)\]$/]: the subject ends with an opening
    bracket, one or more decimal digits and a closing bracket.  The scan runs
    over the reversed subject; the result is the part before the match
    together with the digits matched by the group. *)
Fixpoint take_digits_rev (r : string) (acc : string) : string * string :=
  match r with
  | String c r' => if is_digit c then take_digits_rev r' (String c acc) else (acc, r)
  | "" => (acc, "")
  end.

Definition match_index_suffix (s : string) : option (string * string) :=
  match String.rev s with
  | String "]" r =>
      match take_digits_rev r "" with
      | (String d ds, String "[" before) => Some (String.rev before, String d ds)
      | _ => None
      end
  | _ => None
  end.

(** [parseInt] on a non-empty string of decimal digits. *)
Definition parseInt (digits : string) : nat :=
  let fix go (s : string) (acc : nat) : nat :=
    match s with
    | "" => acc
    | String c r => go r (10 * acc + default 0 (Ascii.is_nat c))
    end in
  go digits 0.

(** The values that can sit in, or be read from, a sibling counter object.
    [JObj repr] is an object or function inherited from [Object.prototype];
    [repr] is the string that [ToPrimitive] yields for it. *)
Inductive value : Type :=
| JUndefined
| JNaN
| JNum (n : nat)
| JStr (s : string)
| JObj (repr : string).

Global Instance value_eq_dec : EqDecision value.
Proof. solve_decision. Defined.

(** Template-literal interpolation [`${v}`]. *)
Definition to_string (v : value) : string :=
  match v with
  | JUndefined => "undefined"
  | JNaN => "NaN"
  | JNum n => pretty n
  | JStr s => s
  | JObj repr => repr
  end.

(** The members every object literal [{}] inherits from [Object.prototype],
    each with the string its value converts to.  Functions print in the
    NativeFunction form, spaced as V8 spaces it. *)
Definition native (fname : string) : string :=
  "function " +:+ fname +:+ "() { [native code] }".

Definition Object_prototype : list (string * string) :=
  [ ("__proto__", "[object Object]");
    ("constructor", native "Object");
    ("hasOwnProperty", native "hasOwnProperty");
    ("isPrototypeOf", native "isPrototypeOf");
    ("propertyIsEnumerable", native "propertyIsEnumerable");
    ("toLocaleString", native "toLocaleString");
    ("toString", native "toString");
    ("valueOf", native "valueOf");
    ("__defineGetter__", native "__defineGetter__");
    ("__defineSetter__", native "__defineSetter__");
    ("__lookupGetter__", native "__lookupGetter__");
    ("__lookupSetter__", native "__lookupSetter__") ].

Fixpoint assoc {A : Type} (k : string) (l : list (string * A)) : option A :=
  match l with
  | [] => None
  | (k', v) :: r => if decide (k = k') then Some v else assoc k r
  end.

Definition inherited (k : string) : option string := assoc k Object_prototype.

(** A counter object [Record<string, number>] created as [{}]: its own
    properties, with reads falling back to the prototype. *)
Definition counters : Type := gmap string value.

Definition get (o : counters) (k : string) : value :=
  match o !! k with
  | Some v => v
  | None => match inherited k with Some repr => JObj repr | None => JUndefined end
  end.

(** Assignment [o[k] = v] of a primitive.  [__proto__] is an accessor on the
    prototype whose setter ignores primitives, so no own property appears. *)
Definition set (o : counters) (k : string) (v : value) : counters :=
  if decide (k = "__proto__") then o else <[k := v]> o.

(** [(x ?? 0) + 1] and [(x || 0) + 1].  Adding the number 1 to a string, or
    to an object (converted to its primitive string first), concatenates. *)
Definition add_one (v : value) : value :=
  match v with
  | JUndefined | JNaN => JNaN
  | JNum n => JNum (n + 1)
  | JStr s => JStr (s +:+ "1")
  | JObj repr => JStr (repr +:+ "1")
  end.

Definition nullish_or_zero (v : value) : value :=
  match v with JUndefined => JNum 0 | _ => v end.

Definition falsy_or_zero (v : value) : value :=
  match v with
  | JUndefined | JNaN | JNum 0 | JStr "" => JNum 0
  | _ => v
  end.

(** A string-valued record [Record<string, string>], as the ordered list of
    its own enumerable properties.  The keys the program writes all contain a
    slash, so none is an array index and property order is insertion order. *)
Definition record : Type := list (string * string).

Definition keys (o : record) : list string := o.*1.

Definition has_own (o : record) (k : string) : bool := bool_decide (k ∈ keys o).

(** The [in] operator also sees inherited members. *)
Definition has (o : record) (k : string) : bool :=
  has_own o k || bool_decide (is_Some (inherited k)).

(** Property read [o[k]]. *)
Definition read (o : record) (k : string) : value :=
  match assoc k o with
  | Some s => JStr s
  | None => match inherited k with Some repr => JObj repr | None => JUndefined end
  end.

(** Property write [o[k] = v] for a key that is not [__proto__]: an existing
    own property keeps its position, a new one is appended. *)
Fixpoint write (o : record) (k v : string) : record :=
  match o with
  | [] => [(k, v)]
  | (k', v') :: r => if decide (k = k') then (k, v) :: r else (k', v') :: write r k v
  end.

(** [new Set(list)] iterated: the distinct members in first-insertion order. *)
Definition set_of (l : list string) : list string :=
  fold_left (fun s k => if bool_decide (k ∈ s) then s else s ++ [k]) l [].

(** *** Numbers

    Numbers are IEEE 754 doubles; the kernel's primitive floats compute the
    same operations, correctly rounded.  An integer is held exactly up to
    [2^53]; the conversion below is exact there (and wraps at [2^63], far
    beyond any count the program reaches). *)
Definition number (z : Z) : PrimFloat.float :=
  if decide (z < 0)%Z
  then PrimFloat.opp (PrimFloat.of_uint63 (Uint63.of_Z (- z)))
  else PrimFloat.of_uint63 (Uint63.of_Z z).

(** [Math.round]: the integer nearest to the value of the double, the upper
    one of two that are equally near; [None] for an infinity or [NaN]. *)
Definition math_round (x : PrimFloat.float) : option Z :=
  match FloatOps.Prim2SF x with
  | SpecFloat.S754_zero _ => Some 0%Z
  | SpecFloat.S754_finite sign m e =>
      let n := if sign then Z.neg m else Z.pos m in
      Some (if decide (0 ≤ e)%Z then n * 2 ^ e
            else (2 * n + 2 ^ (- e)) `div` (2 * 2 ^ (- e)))%Z
  | _ => None
  end.

(** [Math.round(base + (p / d) * span)] as the doubles evaluate it. *)
Definition double_estimate (base span p d : Z) : option Z :=
  math_round
    (PrimFloat.add (number base)
       (PrimFloat.mul (PrimFloat.div (number p) (number d)) (number span))).

(** The same with the quotient, the product and the sum taken exactly. *)
Definition exact_estimate (base span p d : Z) : Z :=
  ((2 * (base * d + p * span) + d) `div` (2 * d))%Z.

(** The estimate.  The doubles' answer is an integer nearest to the exact
    value [base + p * span / d]: it can differ from [exact_estimate] only
    where the exact value lies halfway between two integers (up to the
    rounding error of three operations, which is below the distance
    [1 / (2 * d)] of any other exact value to a halfway point as long as
    [d] stays below [10^12]).  The model takes the doubles' answer whenever
    it is such a nearest integer, and the exact one otherwise. *)
Definition round_estimate (base span p d : Z) : Z :=
  match double_estimate base span p d with
  | Some r =>
      if decide (Z.abs (2 * d * r - 2 * (base * d + p * span)) ≤ d)%Z then r
      else exact_estimate base span p d
  | None => exact_estimate base span p d
  end.

End Js.

(** ** The parsed document (the non-compact output of the XML parser) *)

Module Xml.

Inductive node_type : Type :=
| type_element | type_text | type_cdata
| type_comment | type_doctype | type_instruction.

Global Instance node_type_eq_dec : EqDecision node_type.
Proof. solve_decision. Defined.

(** The [Element] of the parser's library, with the fields the program or
    the parser touches.  An optional field is [None] where the parser leaves
    it undefined: it puts the content of a text node in [text] and the
    content of a CDATA section in [cdata]. *)
Inductive Element : Type := mkElement {
  type : node_type;
  name : option string;
  attributes : option Js.record;
  text : option string;
  cdata : option string;
  elements : option (list Element)
}.

Definition is_element (n : Element) : bool := bool_decide (type n = type_element).

Definition is_text_or_cdata (n : Element) : bool :=
  bool_decide (type n = type_text) || bool_decide (type n = type_cdata).

(** Number of nodes of a subtree; it bounds the work of the flattener. *)
Fixpoint size (n : Element) : nat :=
  S (match elements n with
     | None => 0
     | Some l => (fix sizes (l : list Element) : nat :=
                    match l with [] => 0 | x :: r => size x + sizes r end) l
     end).

Definition sizes (l : list Element) : nat := sum_list_with size l.

(** What [xml2js] does with a text: a document, or a thrown [Error]. *)
Inductive parse_result : Type :=
| Parsed (rootElements : option (list Element))
| Thrown (message : string).

End Xml.

(** ** src/workers/xmlDiffWorker.ts *)

Module Worker.
Import Xml.

Inductive ChangeKind : Type := added | removed | changed.

Global Instance ChangeKind_eq_dec : EqDecision ChangeKind.
Proof. solve_decision. Defined.

(** An absent optional field reads as [JUndefined]. *)
Record Diff : Type := mkDiff {
  path : string;
  leftValue : Js.value;
  rightValue : Js.value;
  change : ChangeKind
}.

Global Instance Diff_eq_dec : EqDecision Diff.
Proof. solve_decision. Defined.

Record Stats : Type := mkStats { n_added : nat; n_removed : nat; n_changed : nat }.

Inductive Phase : Type := phase_left | phase_right | phase_diff.

Inductive WorkerResponse : Type :=
| WorkerProgress (phase : Phase) (percent : Z) (message : string)
| WorkerDone (differences : list Diff) (stats : Stats)
| WorkerError (leftError rightError : option string).

Definition extractText (nodes : option (list Element)) : string :=
  match nodes with
  | None => ""
  | Some nodes =>
      Js.trim (fold_left
                 (fun out node =>
                    if is_text_or_cdata node then out +:+ default "" (text node)
                    else out)
                 nodes "")
  end.

(** *** The flattener's work list *)

Record item : Type := mkItem {
  item_elements : option (list Element);
  item_path : list string
}.

(** The mutable locals of [mapXmlToFlat].  The head of [stack] is the top of
    the array; [posted] lists the calls of [opts.postProgress] in order. *)
Record state : Type := mkState {
  collector : Js.record;
  stack : list item;
  processedElements : nat;
  lastEmit : nat;
  posted : list (Z * string)
}.

Section Flatten.

Variables basePercent spanPercent : Z.

(** [Math.min(99, Math.max(0, Math.round(basePercent + ratio * spanPercent)))]
    with [ratio = processedElements / (processedElements + stack.length + 1)],
    evaluated in doubles. *)
Definition scan_percent (processed stackLength : nat) : Z :=
  let d := (Z.of_nat processed + Z.of_nat stackLength + 1)%Z in
  let rounded := Js.round_estimate basePercent spanPercent (Z.of_nat processed) d in
  Z.min 99 (Z.max 0 rounded).

Definition segment (name : string) (currentIndex : Js.value) : string :=
  name +:+ "[" +:+ Js.to_string currentIndex +:+ "]".

Definition write_attributes (pathString : string) (attrs : Js.record)
    (c : Js.record) : Js.record :=
  fold_left
    (fun c '(attrName, attrValue) =>
       Js.write c (pathString +:+ "/@" +:+ attrName) attrValue)
    attrs c.

(** One turn of [for (const el of elements)]. *)
Definition visit (path : list string) (acc : state * Js.counters) (el : Element)
    : state * Js.counters :=
  let '(st, siblingCounts) := acc in
  if negb (is_element el) then acc else
  let processed := S (processedElements st) in
  let name := default "unnamed" (name el) in
  let currentIndex := Js.add_one (Js.nullish_or_zero (Js.get siblingCounts name)) in
  let siblingCounts := Js.set siblingCounts name currentIndex in
  let currentPath := path ++ [segment name currentIndex] in
  let pathString := Js.join "." currentPath in
  let c1 :=
    match attributes el with
    | Some attrs => write_attributes pathString attrs (collector st)
    | None => collector st
    end in
  let textContent := extractText (elements el) in
  let c2 :=
    if Js.truthy_string textContent
    then Js.write c1 (pathString +:+ "/#text") textContent
    else c1 in
  let children := filter (fun n => is_element n = true) <$> elements el in
  let stack' :=
    match children with
    | Some (c :: cs) => mkItem (Some (c :: cs)) currentPath :: stack st
    | _ => stack st
    end in
  if decide (250 ≤ processed - lastEmit st)%nat then
    (mkState c2 stack' processed processed
       (posted st ++ [(scan_percent processed (length stack'), "Scanning elements…")]),
     siblingCounts)
  else
    (mkState c2 stack' processed (lastEmit st) (posted st), siblingCounts).

(** One turn of [while (stack.length)], after the [pop]. *)
Definition batch (it : item) (st : state) : state :=
  match item_elements it with
  | None => st
  | Some els => (fold_left (visit (item_path it)) els (st, ∅)).1
  end.

(** [while (stack.length)], bounded by fuel: [None] means the fuel ran out,
    which the weight of the work list rules out ([loop_total] below). *)
Fixpoint loop (fuel : nat) (st : state) : option state :=
  match stack st with
  | [] => Some st
  | it :: rest =>
      match fuel with
      | 0 => None
      | S fuel' =>
          loop fuel'
            (batch it (mkState (collector st) rest (processedElements st)
                         (lastEmit st) (posted st)))
      end
  end.

(** Every turn removes one item and adds items for strictly fewer nodes. *)
Definition item_weight (it : item) : nat :=
  S (match item_elements it with None => 0 | Some l => sizes l end).

Definition stack_weight (s : list item) : nat := sum_list_with item_weight s.

(** The body of the [try] block after a successful parse. *)
Definition flatten (rootElements : option (list Element)) : option state :=
  let st0 :=
    mkState [] [mkItem rootElements []] 0 0 [(basePercent, "Parsing XML…")] in
  match loop (stack_weight (stack st0)) st0 with
  | Some st =>
      Some (mkState (collector st) (stack st) (processedElements st) (lastEmit st)
              (posted st ++ [((basePercent + spanPercent)%Z, "Flatten complete")]))
  | None => None
  end.

End Flatten.

(** *** The diff engine *)

Section Diff.

(** [String.prototype.localeCompare]: negative, zero or positive. *)
Variable localeCompare : string → string → Z.

(** [differences.sort((a, b) => a.path.localeCompare(b.path))].  The sort of
    the language is stable, and for a consistent comparator it returns the
    sorted arrangement, which stability makes unique; inserting the records
    from the right, each before the first record it does not follow, computes
    that arrangement. *)
Fixpoint insert_sorted (x : Diff) (l : list Diff) : list Diff :=
  match l with
  | [] => [x]
  | y :: r =>
      if decide (localeCompare (path x) (path y) ≤ 0)%Z then x :: y :: r
      else y :: insert_sorted x r
  end.

Definition sort (l : list Diff) : list Diff := foldr insert_sorted [] l.

(** The callback of [keys.forEach]. *)
Definition classify (left right : Js.record) (acc : list Diff * Stats)
    (key : string) : list Diff * Stats :=
  let '(differences, stats) := acc in
  if negb (Js.has right key) then
    (differences ++ [mkDiff key (Js.read left key) Js.JUndefined removed],
     mkStats (n_added stats) (n_removed stats + 1) (n_changed stats))
  else if negb (Js.has left key) then
    (differences ++ [mkDiff key Js.JUndefined (Js.read right key) added],
     mkStats (n_added stats + 1) (n_removed stats) (n_changed stats))
  else if negb (bool_decide (Js.read left key = Js.read right key)) then
    (differences ++ [mkDiff key (Js.read left key) (Js.read right key) changed],
     mkStats (n_added stats) (n_removed stats) (n_changed stats + 1))
  else acc.

Definition union_keys (left right : Js.record) : list string :=
  Js.set_of (Js.keys left ++ Js.keys right).

Definition diffMaps (left right : Js.record) : list Diff * Stats :=
  let '(differences, stats) :=
    fold_left (classify left right) (union_keys left right) ([], mkStats 0 0 0) in
  (sort differences, stats).

End Diff.

(** *** The message handler *)

Section Handler.

Variable xml2js : string → parse_result.
Variable localeCompare : string → string → Z.

Record FlatResult : Type := mkFlatResult {
  result_map : Js.record;
  result_error : option string
}.

(** The result of the call together with the progress it posted.  The first
    progress call precedes the parse, so it is posted on both paths; the
    [catch] clause returns an empty map and the message of the error. *)
Definition mapXmlToFlat (xml : string) (basePercent spanPercent : Z)
    : option (FlatResult * list (Z * string)) :=
  match xml2js xml with
  | Thrown message =>
      Some (mkFlatResult [] (Some message), [(basePercent, "Parsing XML…")])
  | Parsed rootElements =>
      st ← flatten basePercent spanPercent rootElements;
      Some (mkFlatResult (collector st) None, posted st)
  end.

(** Truthiness of an optional string, as tested by [left.error || right.error]. *)
Definition truthy (e : option string) : bool :=
  match e with Some s => Js.truthy_string s | None => false end.

Definition post (ph : Phase) (p : Z * string) : WorkerResponse :=
  WorkerProgress ph p.1 p.2.

(** The messages passed to [self.postMessage], in order. *)
Definition onmessage (leftXml rightXml : string) : option (list WorkerResponse) :=
  l ← mapXmlToFlat leftXml 0 45;
  r ← mapXmlToFlat rightXml 45 45;
  let scanned := (post phase_left <$> l.2) ++ (post phase_right <$> r.2) in
  if truthy (result_error l.1) || truthy (result_error r.1) then
    Some (scanned ++ [WorkerError (result_error l.1) (result_error r.1)])
  else
    let '(differences, stats) :=
      diffMaps localeCompare (result_map l.1) (result_map r.1) in
    Some (scanned ++
          [WorkerProgress phase_diff 92 "Diffing…";
           WorkerProgress phase_diff 99 "Finalizing…";
           WorkerDone differences stats]).

End Handler.

End Worker.

(** ** The editor component: the editable tree and its path indexer *)

Module Editor.
Import Xml.

Inductive EditableNode : Type := mkNode {
  id : string;
  path : string;
  name : string;
  value : string;
  attributes : Js.record;
  isText : bool;
  children : list EditableNode
}.

(** [s || d] on an optional string. *)
Definition or_else (s : option string) (d : string) : string :=
  match s with
  | Some s => if Js.truthy_string s then s else d
  | None => d
  end.

(** [path ? `${path}.${name}[${count}]` : `${name}[${count}]`] *)
Definition indexed_path (path name : string) (count : Js.value) : string :=
  if Js.truthy_string path
  then path +:+ "." +:+ name +:+ "[" +:+ Js.to_string count +:+ "]"
  else name +:+ "[" +:+ Js.to_string count +:+ "]".

Definition next_count (siblingCounts : Js.counters) (name : string) : Js.value :=
  Js.add_one (Js.falsy_or_zero (Js.get siblingCounts name)).

Definition textValue (el : Element) : string :=
  let textNodes :=
    match elements el with
    | Some l => filter (fun n => is_text_or_cdata n = true) l
    | None => []
    end in
  Js.trim (Js.join "" ((fun n => or_else (text n) "") <$> textNodes)).

(** The node built for one element, given its path; the inner loop is
    [buildEditableTree] run on the element's children with fresh counters. *)
Fixpoint build_node (el : Element) (currentPath fullParentPath : string)
    : EditableNode :=
  mkNode currentPath currentPath (or_else (Xml.name el) "unnamed") (textValue el)
    (default [] (Xml.attributes el)) true
    (match elements el with
     | None => []
     | Some l =>
         (fix each (l : list Element) (siblingCounts : Js.counters)
            : list EditableNode :=
            match l with
            | [] => []
            | c :: r =>
                if negb (is_element c) then each r siblingCounts else
                let name := or_else (Xml.name c) "unnamed" in
                let count := next_count siblingCounts name in
                let siblingCounts := Js.set siblingCounts name count in
                build_node c (indexed_path currentPath name count)
                  (if Js.truthy_string fullParentPath
                   then fullParentPath +:+ "." +:+ name else name)
                :: each r siblingCounts
            end) l ∅
     end).

(** The [forEach] of [buildEditableTree], from a given counter object.  The
    recursive call of the source passes the element children only; the loop
    skips every other node itself, so running it over all children yields
    the same nodes (see [buildEditableTree_unfold] below). *)
Fixpoint build_each (l : list Element) (path parentPath : string)
    (siblingCounts : Js.counters) : list EditableNode :=
  match l with
  | [] => []
  | el :: r =>
      if negb (is_element el) then build_each r path parentPath siblingCounts else
      let name := or_else (Xml.name el) "unnamed" in
      let count := next_count siblingCounts name in
      let siblingCounts := Js.set siblingCounts name count in
      build_node el (indexed_path path name count)
        (if Js.truthy_string parentPath then parentPath +:+ "." +:+ name else name)
      :: build_each r path parentPath siblingCounts
  end.

Definition buildEditableTree (elements : option (list Element))
    (path parentPath : string) : list EditableNode :=
  match elements with
  | None => []
  | Some l => build_each l path parentPath ∅
  end.

Fixpoint buildXmlFromEditable_node (node : EditableNode) : Element :=
  mkElement type_element (Some (name node))
    (if decide (0 < length (Js.keys (attributes node)))%nat
     then Some (attributes node) else None)
    None None
    (Some ((if Js.truthy_string (value node)
            then [mkElement type_text None None (Some (value node)) None None]
            else [])
           ++ (fix each (l : list EditableNode) : list Element :=
                 match l with
                 | [] => []
                 | c :: r => buildXmlFromEditable_node c :: each r
                 end) (children node))).

Definition buildXmlFromEditable (nodes : list EditableNode) : list Element :=
  buildXmlFromEditable_node <$> nodes.

Fixpoint deepCloneNode (node : EditableNode) : EditableNode :=
  mkNode (id node) (path node) (name node) (value node) (attributes node)
    (isText node)
    ((fix each (l : list EditableNode) : list EditableNode :=
        match l with [] => [] | c :: r => deepCloneNode c :: each r end)
       (children node)).

Fixpoint findNodeById_node (node : EditableNode) (target : string)
    : option EditableNode :=
  if decide (id node = target) then Some node else
  (fix each (l : list EditableNode) : option EditableNode :=
     match l with
     | [] => None
     | c :: r =>
         match findNodeById_node c target with
         | Some found => Some found
         | None => each r
         end
     end) (children node).

Fixpoint findNodeById (nodes : list EditableNode) (target : string)
    : option EditableNode :=
  match nodes with
  | [] => None
  | node :: r =>
      match findNodeById_node node target with
      | Some found => Some found
      | None => findNodeById r target
      end
  end.

(** [findParentNodes]: the ancestors of the first node carrying the id, from
    the root down; [None] is the [null] of the source.  An array is truthy
    even when empty, so [if (found)] only tests for [null]. *)
Fixpoint findParentNodes_node (node : EditableNode) (targetId : string)
    (parentList : list EditableNode) : option (list EditableNode) :=
  if decide (id node = targetId) then Some parentList else
  (fix each (l : list EditableNode) : option (list EditableNode) :=
     match l with
     | [] => None
     | c :: r =>
         match findParentNodes_node c targetId (parentList ++ [node]) with
         | Some found => Some found
         | None => each r
         end
     end) (children node).

Fixpoint findParentNodes (nodes : list EditableNode) (targetId : string)
    (parentList : list EditableNode) : option (list EditableNode) :=
  match nodes with
  | [] => None
  | node :: r =>
      match findParentNodes_node node targetId parentList with
      | Some found => Some found
      | None => findParentNodes r targetId parentList
      end
  end.

(** The node rebuilt by [regenerateIds] at a given path; the inner loop is
    [regenerateIds] on the children with a fresh counter object. *)
Fixpoint regenerate_node (node : EditableNode) (currentPath : string)
    : EditableNode :=
  mkNode currentPath currentPath (name node) (value node) (attributes node)
    (isText node)
    ((fix each (l : list EditableNode) (siblingCounts : Js.counters)
        : list EditableNode :=
        match l with
        | [] => []
        | c :: r =>
            let count := next_count siblingCounts (name c) in
            let siblingCounts := Js.set siblingCounts (name c) count in
            regenerate_node c (indexed_path currentPath (name c) count)
            :: each r siblingCounts
        end) (children node) ∅).

Fixpoint regenerateIds (nodes : list EditableNode) (parentPath : string)
    (siblingCounts : Js.counters) : list EditableNode :=
  match nodes with
  | [] => []
  | node :: r =>
      let count := next_count siblingCounts (name node) in
      let siblingCounts := Js.set siblingCounts (name node) count in
      regenerate_node node (indexed_path parentPath (name node) count)
      :: regenerateIds r parentPath siblingCounts
  end.

(** [name.replace(/\[\d+\]$/, '')] *)
Definition baseName_of (name : string) : string :=
  match Js.match_index_suffix name with
  | Some (before, _) => before
  | None => name
  end.

(** [match ? parseInt(match[1]) : 0] for [match = name.match(/\[(\d+)\]$/)] *)
Definition suffix_number (name : string) : nat :=
  match Js.match_index_suffix name with
  | Some (_, digits) => Js.parseInt digits
  | None => 0
  end.

(** The name given to a duplicate among [siblings]; both branches of
    [duplicatePath] compute it the same way. *)
Definition duplicate_name (sourceName : string) (siblings : list EditableNode)
    : string :=
  let baseName := baseName_of sourceName in
  let siblings :=
    filter (fun n => Js.startsWith (name n) baseName = true) siblings in
  let numbers := (fun n => suffix_number (name n)) <$> siblings in
  let nextNum := foldr Nat.max 0 numbers + 1 in
  baseName +:+ pretty nextNum.

Definition with_name (node : EditableNode) (n : string) : EditableNode :=
  mkNode (id node) (path node) n (value node) (attributes node) (isText node)
    (children node).

Definition with_children (node : EditableNode) (l : list EditableNode)
    : EditableNode :=
  mkNode (id node) (path node) (name node) (value node) (attributes node)
    (isText node) l.

(** The local function [update] of the child branch. *)
Fixpoint update_node (sourceNode : EditableNode) (parentId : string)
    (node : EditableNode) : EditableNode :=
  if decide (id node = parentId) then
    let duplicated :=
      with_name (deepCloneNode sourceNode)
        (duplicate_name (name sourceNode) (children node)) in
    let newChildren := children node ++ [duplicated] in
    with_children node (regenerateIds newChildren (path node) ∅)
  else
    with_children node
      ((fix each (l : list EditableNode) : list EditableNode :=
          match l with
          | [] => []
          | c :: r => update_node sourceNode parentId c :: each r
          end) (children node)).

Definition update (sourceNode : EditableNode) (parentId : string)
    (nodes : list EditableNode) : list EditableNode :=
  update_node sourceNode parentId <$> nodes.

(** What [duplicatePath] does to the tree state: nothing, a [TypeError]
    raised before any state is set, or a new tree passed to [setTree]. *)
Inductive outcome : Type :=
| Unchanged
| TypeError
| SetTree (tree : list EditableNode).

Definition duplicatePath (tree : list EditableNode) (target : string) : outcome :=
  match findNodeById tree target with
  | None => Unchanged
  | Some sourceNode =>
      match findParentNodes tree target [] with
      | None =>
          let duplicated :=
            with_name (deepCloneNode sourceNode)
              (duplicate_name (name sourceNode) tree) in
          SetTree (regenerateIds (tree ++ [duplicated]) "" ∅)
      | Some parentList =>
          (* [parentList[parentList.length - 1]] is undefined for an empty
             list, and [update] then fails on [parent.id] at the first node
             of the tree, which is not empty since the source was found *)
          match last parentList with
          | None => TypeError
          | Some parent =>
              SetTree (regenerateIds (update sourceNode (id parent) tree) "" ∅)
          end
      end
  end.

(** *** Edits of the tree *)

Definition with_value (node : EditableNode) (v : string) : EditableNode :=
  mkNode (id node) (path node) (name node) v (attributes node) (isText node)
    (children node).

Definition with_attributes (node : EditableNode) (a : Js.record) : EditableNode :=
  mkNode (id node) (path node) (name node) (value node) a (isText node)
    (children node).

(** The local function [update] of [updateNodeValue], on one node and on a
    list of nodes. *)
Fixpoint update_value_node (target v : string) (node : EditableNode)
    : EditableNode :=
  if decide (id node = target) then with_value node v
  else
    with_children node
      ((fix each (l : list EditableNode) : list EditableNode :=
          match l with
          | [] => []
          | c :: r => update_value_node target v c :: each r
          end) (children node)).

Definition update_value (target v : string) (nodes : list EditableNode)
    : list EditableNode :=
  update_value_node target v <$> nodes.

(** [newAttrs[attrName] = attrValue] on the copy [{ ...node.attributes }].
    The copy holds the own properties only; an assignment to [__proto__]
    that finds no own property of that name reaches the setter of
    [Object.prototype], which ignores a string. *)
Definition assign (o : Js.record) (k v : string) : Js.record :=
  if decide (k = "__proto__") then
    if Js.has_own o k then Js.write o k v else o
  else Js.write o k v.

(** [delete newAttrs[attrName]] *)
Definition delete (o : Js.record) (k : string) : Js.record :=
  filter (fun e => e.1 ≠ k) o.

Definition edited_attributes (o : Js.record) (attrName attrValue : string)
    : Js.record :=
  if Js.truthy_string (Js.trim attrValue) then assign o attrName attrValue
  else delete o attrName.

(** The local function [update] of [updateNodeAttribute]. *)
Fixpoint update_attribute_node (target attrName attrValue : string)
    (node : EditableNode) : EditableNode :=
  if decide (id node = target) then
    with_attributes node (edited_attributes (attributes node) attrName attrValue)
  else
    with_children node
      ((fix each (l : list EditableNode) : list EditableNode :=
          match l with
          | [] => []
          | c :: r => update_attribute_node target attrName attrValue c :: each r
          end) (children node)).

Definition update_attribute (target attrName attrValue : string)
    (nodes : list EditableNode) : list EditableNode :=
  update_attribute_node target attrName attrValue <$> nodes.

(** The local function [remove] of [deleteNode]: the filter, then the map
    over what the filter kept. *)
Fixpoint remove_node (target : string) (node : EditableNode) : EditableNode :=
  with_children node
    ((fix each (l : list EditableNode) : list EditableNode :=
        match l with
        | [] => []
        | c :: r =>
            if decide (id c ≠ target) then remove_node target c :: each r
            else each r
        end) (children node)).

Definition remove (target : string) (nodes : list EditableNode)
    : list EditableNode :=
  remove_node target <$> filter (fun node => id node ≠ target) nodes.

(** *** The undo history *)

(** The state the edits share: the [tree] state, the two refs
    [historyRef.current] and [historyIndexRef.current], and the two flags
    that enable the undo and redo buttons. *)
Record session : Type := mkSession {
  tree : list EditableNode;
  history : list (list EditableNode);
  historyIndex : Z;
  canUndo : bool;
  canRedo : bool
}.

(** The component as mounted. *)
Definition mounted : session := mkSession [] [] (-1) false false.

(** [array.slice(0, end)]: a negative [end] counts from the end. *)
Definition slice_to {A : Type} (l : list A) (e : Z) : list A :=
  if decide (e < 0)%Z then take (Z.to_nat (Z.of_nat (length l) + e)) l
  else take (Z.to_nat e) l.

Definition saveToHistory (newTree : list EditableNode) (s : session) : session :=
  let newHistory :=
    slice_to (history s) (historyIndex s + 1) ++ [deepCloneNode <$> newTree] in
  if decide (50 < length newHistory)%nat then
    mkSession (tree s) (tail newHistory) (historyIndex s)
      (bool_decide (0 < historyIndex s)%Z) false
  else
    let index := (Z.of_nat (length newHistory) - 1)%Z in
    mkSession (tree s) newHistory index (bool_decide (0 < index)%Z) false.

(** [setTree(newTree); saveToHistory(newTree)], the end of every edit. *)
Definition commit (newTree : list EditableNode) (s : session) : session :=
  saveToHistory newTree
    (mkSession newTree (history s) (historyIndex s) (canUndo s) (canRedo s)).

(** [None] is the [TypeError] of [undefined.map], raised when the history
    holds nothing at the index read. *)
Definition undo (s : session) : option session :=
  if decide (0 < historyIndex s)%Z then
    entry ← history s !! Z.to_nat (historyIndex s - 1);
    Some (mkSession (deepCloneNode <$> entry) (history s) (historyIndex s - 1)
            (bool_decide (0 < historyIndex s - 1)%Z) true)
  else Some s.

Definition redo (s : session) : option session :=
  if decide (historyIndex s < Z.of_nat (length (history s)) - 1)%Z then
    entry ← (if decide (historyIndex s + 1 < 0)%Z then None
             else history s !! Z.to_nat (historyIndex s + 1));
    Some (mkSession (deepCloneNode <$> entry) (history s) (historyIndex s + 1)
            true
            (bool_decide (historyIndex s + 1 < Z.of_nat (length (history s)) - 1)%Z))
  else Some s.

Definition updateNodeValue (target v : string) (s : session) : session :=
  commit (update_value target v (tree s)) s.

Definition updateNodeAttribute (target attrName attrValue : string) (s : session)
    : session :=
  commit (update_attribute target attrName attrValue (tree s)) s.

Definition deleteNode (target : string) (s : session) : session :=
  commit (remove target (tree s)) s.

End Editor.

(** ** The report export: [utils/export.ts] *)

Module Exports.

(** The double quote and the line feed. *)
Definition quote : ascii := "034"%char.
Definition newline : ascii := "010"%char.

(** [toUpperCase] on one code unit; it is applied to the first letter of a
    change kind only, a lower-case ASCII letter. *)
Definition toUpperCase (c : ascii) : ascii :=
  let n := N_of_ascii c in
  if decide (97 ≤ n ≤ 122)%N then ascii_of_N (n - 32) else c.

Definition kind_name (c : Worker.ChangeKind) : string :=
  match c with
  | Worker.added => "added"
  | Worker.removed => "removed"
  | Worker.changed => "changed"
  end.

(** [s.charAt(0).toUpperCase() + s.slice(1)] *)
Definition capitalize (s : string) : string :=
  match s with
  | "" => ""
  | String c r => String (toUpperCase c) r
  end.

(** [v ?? '—'], converted with [String] as the cell template does. *)
Definition or_dash (v : Js.value) : string :=
  match v with
  | Js.JUndefined => "—"
  | _ => Js.to_string v
  end.

Definition headers : list string := ["Path"; "Status"; "Left Value"; "Right Value"].

(** One element of [rows]. *)
Definition row (diff : Worker.Diff) : list string :=
  [Worker.path diff; capitalize (kind_name (Worker.change diff));
   or_dash (Worker.leftValue diff); or_dash (Worker.rightValue diff)].

(** The [replace] of the cell template: every double quote is doubled. *)
Fixpoint escape (s : string) : string :=
  match s with
  | "" => ""
  | String c r =>
      if decide (c = quote) then String quote (String quote (escape r))
      else String c (escape r)
  end.

(** The template that wraps a cell in quotes. *)
Definition cell (s : string) : string :=
  String quote (escape s +:+ String quote "").

Definition line (r : list string) : string := Js.join "," (cell <$> r).

(** The text handed to the [Blob], after the byte order mark. *)
Definition csvContent (diffs : list Worker.Diff) : string :=
  Js.join (String newline "") (Js.join "," headers :: (line <$> (row <$> diffs))).

End Exports.

(** ** The comparison view: [handleCompare] of [App.tsx] *)

Module App.

(** The state [handleCompare] and its listeners write.  [lastRun] records
    whether a date has been set; [listening] whether the two listeners are
    attached to the worker. *)
Record ui : Type := mkUi {
  isComparing : bool;
  leftError : option string;
  rightError : option string;
  differences : list Worker.Diff;
  stats : Worker.Stats;
  progress : option (Z * string * option Worker.Phase);
  lastRun : bool;
  listening : bool
}.

(** [handleCompare] up to the [postMessage], for a worker that exists. *)
Definition handleCompare (u : ui) : ui :=
  mkUi true None None (differences u) (stats u) (Some (0%Z, "Starting…", None))
    (lastRun u) true.

(** The listener [onMessage]. *)
Definition onMessage (data : Worker.WorkerResponse) (u : ui) : ui :=
  match data with
  | Worker.WorkerProgress phase percent message =>
      mkUi (isComparing u) (leftError u) (rightError u) (differences u) (stats u)
        (Some (percent, message, Some phase)) (lastRun u) (listening u)
  | Worker.WorkerError le re =>
      mkUi false le re [] (Worker.mkStats 0 0 0) None (lastRun u) false
  | Worker.WorkerDone ds st =>
      mkUi false (leftError u) (rightError u) ds st None true false
  end.

(** The messages of the worker reach the listener while it is attached. *)
Definition deliver (u : ui) (msgs : list Worker.WorkerResponse) : ui :=
  fold_left (fun u m => if listening u then onMessage m u else u) msgs u.

Section Compare.

Variable xml2js : string → Xml.parse_result.
Variable localeCompare : string → string → Z.

(** A click on Compare, and the worker's answer delivered. *)
Definition compare (leftXml rightXml : string) (u : ui) : option ui :=
  msgs ← Worker.onmessage xml2js localeCompare leftXml rightXml;
  Some (deliver (handleCompare u) msgs).

End Compare.

End App.

(** ** Notions used to state the properties *)

Module Spec.
Import Xml.

(** *** Strings and keys *)

Fixpoint contains (c : ascii) (s : string) : bool :=
  match s with
  | "" => false
  | String a r => if decide (a = c) then true else contains c r
  end.

Fixpoint last_char (s : string) : option ascii :=
  match s with
  | "" => None
  | String c "" => Some c
  | String _ r => last_char r
  end.

(** *** The diff engine *)

(** A flat mapping is keyed by path plus suffix; every such key holds the
    slash that opens the suffix. *)
Definition FlatMapping (o : Js.record) : Prop :=
  Forall (fun k => contains "/" k = true) (Js.keys o).

(** The record the classification rule dictates for a key, following the
    rule as the specification words it: presence is own membership. *)
Definition dictated (left right : Js.record) (k : string) : list Worker.Diff :=
  match Js.assoc k left, Js.assoc k right with
  | Some l, None => [Worker.mkDiff k (Js.JStr l) Js.JUndefined Worker.removed]
  | None, Some r => [Worker.mkDiff k Js.JUndefined (Js.JStr r) Worker.added]
  | Some l, Some r =>
      if decide (l = r) then []
      else [Worker.mkDiff k (Js.JStr l) (Js.JStr r) Worker.changed]
  | None, None => []
  end.

Definition at_key (k : string) (ds : list Worker.Diff) : list Worker.Diff :=
  filter (fun d => Worker.path d = k) ds.

Definition count_kind (c : Worker.ChangeKind) (ds : list Worker.Diff) : nat :=
  length (filter (fun d => Worker.change d = c) ds).

(** What the callback of [diffMaps] adds for one key, and to the stats. *)
Definition emitted (left right : Js.record) (key : string) : option Worker.Diff :=
  if negb (Js.has right key) then
    Some (Worker.mkDiff key (Js.read left key) Js.JUndefined Worker.removed)
  else if negb (Js.has left key) then
    Some (Worker.mkDiff key Js.JUndefined (Js.read right key) Worker.added)
  else if negb (bool_decide (Js.read left key = Js.read right key)) then
    Some (Worker.mkDiff key (Js.read left key) (Js.read right key) Worker.changed)
  else None.

Definition bump (c : Worker.ChangeKind) (s : Worker.Stats) : Worker.Stats :=
  match c with
  | Worker.added =>
      Worker.mkStats (Worker.n_added s + 1) (Worker.n_removed s) (Worker.n_changed s)
  | Worker.removed =>
      Worker.mkStats (Worker.n_added s) (Worker.n_removed s + 1) (Worker.n_changed s)
  | Worker.changed =>
      Worker.mkStats (Worker.n_added s) (Worker.n_removed s) (Worker.n_changed s + 1)
  end.

(** The records in the order the keys are visited, before the sort. *)
Definition visited (left right : Js.record) : list Worker.Diff :=
  (fold_left (Worker.classify left right) (Worker.union_keys left right)
     ([], Worker.mkStats 0 0 0)).1.

(** Ascending order of two records under a comparator. *)
Definition precedes (compare : string → string → Z) (a b : Worker.Diff) : Prop :=
  (compare (Worker.path a) (Worker.path b) ≤ 0)%Z.

(** Two keys the comparator does not separate. *)
Definition tied (compare : string → string → Z) (a b : string) : Prop :=
  (compare a b ≤ 0 ∧ compare b a ≤ 0)%Z.

Global Instance tied_dec compare a b : Decision (tied compare a b).
Proof. unfold tied. apply _. Defined.

(** A comparator by code units, to try the statements on. *)
Definition ordinal_compare (a b : string) : Z :=
  match String.compare a b with Lt => (-1)%Z | Eq => 0%Z | Gt => 1%Z end.

(** *** The flattener, element by element *)

(** What the loop of [extractText] accumulates before the trim: the field
    [text] of every direct text or cdata child, in document order. *)
Definition text_fields (nodes : list Element) : string :=
  foldr String.append ""
    ((fun n => default "" (text n)) <$> filter (fun n => is_text_or_cdata n = true) nodes).

(** The text of an element as the specification words it: the literal text
    of every direct text or cdata child, concatenated in document order.
    The literal text of a text node is its [text], that of a CDATA section
    its [cdata]. *)
Definition literal (n : Element) : string :=
  match type n with
  | type_text => default "" (text n)
  | type_cdata => default "" (cdata n)
  | _ => ""
  end.

Definition literal_text (nodes : list Element) : string :=
  foldr String.append "" (literal <$> nodes).

(** Nodes as the parser delivers them: a text node has no [cdata], a CDATA
    section no [text]. *)
Definition as_parsed (n : Element) : Prop :=
  match type n with
  | type_text => cdata n = None
  | type_cdata => text n = None
  | _ => True
  end.

Definition entry : Type := string * string.

Definition write_all (es : list entry) (c : Js.record) : Js.record :=
  fold_left (fun c e => Js.write c e.1 e.2) es c.

(** The entries one element contributes at its path: one per attribute, in
    the order of the attributes, then the text entry if there is one. *)
Definition own_entries (pathString : string) (el : Element) : list entry :=
  match attributes el with
  | Some attrs => (fun a => (pathString +:+ "/@" +:+ a.1, a.2)) <$> attrs
  | None => []
  end ++
  (if Js.truthy_string (Worker.extractText (elements el))
   then [(pathString +:+ "/#text", Worker.extractText (elements el))]
   else []).

(** The item an element leaves on the work list. *)
Definition child_items (el : Element) (currentPath : list string)
    : list Worker.item :=
  match filter (fun n => is_element n = true) <$> elements el with
  | Some (c :: cs) => [Worker.mkItem (Some (c :: cs)) currentPath]
  | _ => []
  end.

Definition next_index (siblingCounts : Js.counters) (el : Element) : Js.value :=
  Js.add_one (Js.nullish_or_zero (Js.get siblingCounts (default "unnamed" (name el)))).

(** The element nodes of a batch, each with the path the loop gives it. *)
Fixpoint labelled (path : list string) (siblingCounts : Js.counters)
    (els : list Element) : list (Element * list string) :=
  match els with
  | [] => []
  | el :: r =>
      if negb (is_element el) then labelled path siblingCounts r else
      let name := default "unnamed" (name el) in
      let currentIndex := next_index siblingCounts el in
      (el, path ++ [Worker.segment name currentIndex])
      :: labelled path (Js.set siblingCounts name currentIndex) r
  end.

Definition items_of (lab : Element * list string) : list Worker.item :=
  child_items lab.1 lab.2.

Definition own_of (lab : Element * list string) : list entry :=
  own_entries (Js.join "." lab.2) lab.1.

(** The entries written for the descendants of an element, in the order of
    the loop: the batch of its children first, then what lies below each
    child, the last child first. *)
Fixpoint below (el : Element) (currentPath : list string) : list entry :=
  match elements el with
  | None => []
  | Some l =>
      let '(own, deep) :=
        (fix each (l : list Element) (siblingCounts : Js.counters)
           : list entry * list entry :=
           match l with
           | [] => ([], [])
           | c :: r =>
               if negb (is_element c) then each r siblingCounts else
               let name := default "unnamed" (name c) in
               let currentIndex := next_index siblingCounts c in
               let p := currentPath ++ [Worker.segment name currentIndex] in
               let '(own, deep) := each r (Js.set siblingCounts name currentIndex) in
               (own_entries (Js.join "." p) c ++ own, deep ++ below c p)
           end) l ∅ in
      own ++ deep
  end.

Definition below_of (lab : Element * list string) : list entry :=
  below lab.1 lab.2.

(** Everything written for a batch and below it. *)
Definition traversal (labs : list (Element * list string)) : list entry :=
  flat_map own_of labs ++ flat_map below_of (reverse labs).

Definition item_traversal (it : Worker.item) : list entry :=
  traversal (labelled (Worker.item_path it) ∅ (default [] (Worker.item_elements it))).

(** The name an element goes by in a path on the flattener's side. *)
Definition path_name (el : Element) : string := default "unnamed" (name el).

(** The same element with the literal name in place of a missing one. *)
Definition literally_named (el : Element) : Element :=
  match name el with
  | Some _ => el
  | None =>
      mkElement (type el) (Some "unnamed") (attributes el) (text el) (cdata el)
        (elements el)
  end.

(** The elements the tree builder counts under the name [unnamed]: those
    without a name, those literally named so, and those with the empty name,
    which no parsed document has and which [||] replaces as well. *)
Definition editor_unnamed (el : Element) : bool :=
  match name el with
  | None => true
  | Some n => bool_decide (n = "unnamed") || bool_decide (n = "")
  end.

(** The element that comes back from the editable tree: what
    [buildXmlFromEditable] makes of the node [buildEditableTree] builds. *)
Fixpoint rebuilt (el : Element) : Element :=
  mkElement type_element (Some (Editor.or_else (name el) "unnamed"))
    (if decide (0 < length (Js.keys (default [] (attributes el))))%nat
     then Some (default [] (attributes el)) else None)
    None None
    (Some ((if Js.truthy_string (Editor.textValue el)
            then [mkElement type_text None None (Some (Editor.textValue el)) None None]
            else [])
           ++ match elements el with
              | None => []
              | Some l =>
                  (fix each (l : list Element) : list Element :=
                     match l with
                     | [] => []
                     | c :: r => if negb (is_element c) then each r
                                 else rebuilt c :: each r
                     end) l
              end)).

(** Names as a parser produces them: never the empty string. *)
Fixpoint well_named (el : Element) : Prop :=
  name el ≠ Some "" ∧
  match elements el with
  | None => True
  | Some l =>
      (fix all (l : list Element) : Prop :=
         match l with [] => True | c :: r => well_named c ∧ all r end) l
  end.

(** *** Names that make paths unique *)

(** A name of the XML grammar holds no bracket and no slash; a plain name
    is, moreover, not the name of a member of [Object.prototype]. *)
Definition plain_name (nm : string) : Prop :=
  Js.inherited nm = None ∧ contains "[" nm = false ∧
  contains "]" nm = false ∧ contains "/" nm = false.

(** Every node of the subtree goes by a plain name and (as in any object)
    lists each attribute once. *)
Fixpoint plain (el : Element) : Prop :=
  plain_name (path_name el) ∧
  NoDup (Js.keys (default [] (attributes el))) ∧
  match elements el with
  | None => True
  | Some l =>
      (fix all (l : list Element) : Prop :=
         match l with [] => True | c :: r => plain c ∧ all r end) l
  end.

(** A path segment: a body without closing bracket or slash, then the
    closing bracket. *)
Definition wfseg (s : string) : Prop :=
  ∃ body, s = body +:+ "]" ∧ contains "]" body = false ∧ contains "/" body = false.

Definition key_of (q : list string) (suffix : string) : string :=
  Js.join "." q +:+ "/" +:+ suffix.

(** A key at a path that begins with [q] and continues with [seg]. *)
Definition keyed_under (q : list string) (seg : string) (k : string) : Prop :=
  ∃ q' suffix, Forall wfseg (q ++ seg :: q') ∧ k = key_of (q ++ seg :: q') suffix.

(** Below an element the keys are pairwise distinct and lie strictly under
    the element's path. *)
Definition distinct_below (el : Element) : Prop :=
  ∀ p, Forall wfseg p →
       NoDup (below el p).*1 ∧
       Forall (fun k => ∃ seg, keyed_under p seg k) (below el p).*1.

(** The number a counter object holds for a name, zero if none. *)
Definition count_of (siblingCounts : Js.counters) (nm : string) : nat :=
  match Js.nullish_or_zero (Js.get siblingCounts nm) with
  | Js.JNum n => n
  | _ => 0
  end.

(** Counters that hold numbers for all plain names. *)
Definition numeric (siblingCounts : Js.counters) : Prop :=
  ∀ nm, Js.inherited nm = None →
        ∃ n, Js.nullish_or_zero (Js.get siblingCounts nm) = Js.JNum n.

(** *** Editable trees up to their identifiers *)

(** A tree with every identifier and path blanked. *)
Fixpoint strip (node : Editor.EditableNode) : Editor.EditableNode :=
  Editor.mkNode "" "" (Editor.name node) (Editor.value node)
    (Editor.attributes node) (Editor.isText node)
    ((fix each (l : list Editor.EditableNode) : list Editor.EditableNode :=
        match l with [] => [] | c :: r => strip c :: each r end)
       (Editor.children node)).

(** *** The message stream *)

(** The percent values of the progress messages, in the order posted. *)
Definition percents (msgs : list Worker.WorkerResponse) : list Z :=
  omap (fun m => match m with
                 | Worker.WorkerProgress _ p _ => Some p
                 | _ => None
                 end) msgs.

(** The message of the error the parser threw, if it threw. *)
Definition thrown (r : parse_result) : option string :=
  match r with Thrown m => Some m | Parsed _ => None end.

Definition in_range (p : Z) : Prop := (0 ≤ p ≤ 99)%Z.

(** The portion of the scale allotted to a side. *)
Definition within (basePercent spanPercent : Z) (p : Z) : Prop :=
  (basePercent ≤ p ≤ basePercent + spanPercent)%Z.

(** What a side's call of [mapXmlToFlat] must return, given what the parser
    does with its text: after a throw, the empty map, the message and the
    one progress call that preceded the parse; otherwise the flattening. *)
Definition side_result (r : parse_result) (basePercent spanPercent : Z)
    (res : Worker.FlatResult * list (Z * string)) : Prop :=
  match r with
  | Thrown m =>
      res = (Worker.mkFlatResult [] (Some m), [(basePercent, "Parsing XML…")])
  | Parsed doc =>
      ∃ st, Worker.flatten basePercent spanPercent doc = Some st ∧
            res = (Worker.mkFlatResult (Worker.collector st) None, Worker.posted st)
  end.

(** *** Element counts, mirrored records, message kinds *)

(** The element nodes the flattener reaches from an element: the element
    itself and, through element children only, the element nodes below it. *)
Fixpoint element_count (el : Element) : nat :=
  S (match elements el with
     | None => 0
     | Some l =>
         (fix each (l : list Element) : nat :=
            match l with
            | [] => 0
            | c :: r => (if is_element c then element_count c else 0) + each r
            end) l
     end).

Definition elements_count (l : list Element) : nat :=
  sum_list_with (fun c => if is_element c then element_count c else 0) l.

Definition item_count (it : Worker.item) : nat :=
  elements_count (default [] (Worker.item_elements it)).

Definition stack_count (s : list Worker.item) : nat := sum_list_with item_count s.

(** A record read from the other side: values exchanged, added for removed. *)
Definition opposite (c : Worker.ChangeKind) : Worker.ChangeKind :=
  match c with
  | Worker.added => Worker.removed
  | Worker.removed => Worker.added
  | Worker.changed => Worker.changed
  end.

Definition mirror (d : Worker.Diff) : Worker.Diff :=
  Worker.mkDiff (Worker.path d) (Worker.rightValue d) (Worker.leftValue d)
    (opposite (Worker.change d)).

Definition mirror_stats (s : Worker.Stats) : Worker.Stats :=
  Worker.mkStats (Worker.n_removed s) (Worker.n_added s) (Worker.n_changed s).

Definition is_progress (m : Worker.WorkerResponse) : bool :=
  match m with Worker.WorkerProgress _ _ _ => true | _ => false end.

(** The state of the progress throttle after [k] scanning messages. *)
Definition throttled (basePercent : Z) (st : Worker.state) (k : nat) : Prop :=
  Worker.lastEmit st = 250 * k ∧
  Worker.lastEmit st ≤ Worker.processedElements st < Worker.lastEmit st + 250 ∧
  ∃ scans, Worker.posted st = (basePercent, "Parsing XML…") :: scans ∧
           length scans = k ∧
           Forall (fun e => e.2 = "Scanning elements…") scans.

(** *** Editable trees, node by node *)

(** The nodes of a subtree in document order, the root first. *)
Fixpoint nodes_of (node : Editor.EditableNode) : list Editor.EditableNode :=
  node ::
  (fix each (l : list Editor.EditableNode) : list Editor.EditableNode :=
     match l with [] => [] | c :: r => nodes_of c ++ each r end)
    (Editor.children node).

Definition all_nodes (l : list Editor.EditableNode) : list Editor.EditableNode :=
  flat_map nodes_of l.

(** What a node shows apart from its children. *)
Definition face (node : Editor.EditableNode)
    : string * string * string * string * Js.record :=
  (Editor.id node, Editor.path node, Editor.name node, Editor.value node,
   Editor.attributes node).

(** The same without the value. *)
Definition frame (node : Editor.EditableNode) : string * string * string * Js.record :=
  (Editor.id node, Editor.path node, Editor.name node, Editor.attributes node).

(** The entries the flat mapping holds for one node of an editable tree,
    keyed by the node's own path: its attributes, then its trimmed value if
    that is not empty. *)
Definition node_entries (node : Editor.EditableNode) : list entry :=
  ((fun a => (Editor.path node +:+ "/@" +:+ a.1, a.2)) <$> Editor.attributes node) ++
  (if Js.truthy_string (Js.trim (Editor.value node))
   then [(Editor.path node +:+ "/#text", Js.trim (Editor.value node))]
   else []).

(** Counters that hold neither [NaN] nor the empty string: the values on
    which [??] and [||] disagree, zero apart. *)
Definition settled (siblingCounts : Js.counters) : Prop :=
  ∀ k v, siblingCounts !! k = Some v → v ≠ Js.JNaN ∧ v ≠ Js.JStr "".

(** *** Reading quoted records back *)

(** A reader of quoted, comma-separated records, one per line: every field
    is wrapped in quotes, a doubled quote inside a field stands for one
    quote, and commas and line feeds inside a field belong to the field. *)
Inductive mode : Type :=
| Opening   (* a field must open here *)
| Inside    (* inside a field *)
| Quoted.   (* after a quote inside a field: doubled, or the closing one *)

Fixpoint read_quoted (s : string) (m : mode) (field : string) (record : list string)
    (records : list (list string)) : option (list (list string)) :=
  match s with
  | "" =>
      match m with
      | Quoted => Some (records ++ [record ++ [field]])
      | _ => None
      end
  | String c r =>
      match m with
      | Opening =>
          if decide (c = Exports.quote) then read_quoted r Inside "" record records else None
      | Inside =>
          if decide (c = Exports.quote) then read_quoted r Quoted field record records
          else read_quoted r Inside (field +:+ String c "") record records
      | Quoted =>
          if decide (c = Exports.quote)
          then read_quoted r Inside (field +:+ String Exports.quote "") record records
          else if decide (c = ","%char)
          then read_quoted r Opening "" (record ++ [field]) records
          else if decide (c = Exports.newline)
          then read_quoted r Opening "" [] (records ++ [record ++ [field]])
          else None
      end
  end.

Definition read_records (s : string) : option (list (list string)) :=
  match s with
  | "" => Some []
  | _ => read_quoted s Opening "" [] []
  end.

(** The undo history in a state the operations keep: at most fifty entries,
    an index that points into them (or is [-1] while there is none), and
    flags that say whether an entry lies before or after the index. *)
Definition consistent (s : Editor.session) : Prop :=
  (length (Editor.history s) ≤ 50)%nat ∧
  (if decide (Editor.history s = []) then Editor.historyIndex s = (-1)%Z
   else (0 ≤ Editor.historyIndex s < Z.of_nat (length (Editor.history s)))%Z) ∧
  Editor.canUndo s = bool_decide (0 < Editor.historyIndex s)%Z ∧
  Editor.canRedo s =
    bool_decide (Editor.historyIndex s < Z.of_nat (length (Editor.history s)) - 1)%Z.

(** The tree on screen is the entry at the index. *)
Definition current (s : Editor.session) : Prop :=
  (0 ≤ Editor.historyIndex s)%Z ∧
  Editor.history s !! Z.to_nat (Editor.historyIndex s) = Some (Editor.tree s).

(** An editable tree written out line by line, in document order: each node
    without its children, after the identifiers of its ancestors and its
    own, the outermost first.  The lines determine the tree (see
    [listing_inj] below). *)
Fixpoint lines (above : list string) (node : Editor.EditableNode)
    : list (list string * Editor.EditableNode) :=
  (above ++ [Editor.id node], Editor.with_children node []) ::
  (fix each (l : list Editor.EditableNode) : list (list string * Editor.EditableNode) :=
     match l with
     | [] => []
     | c :: r => lines (above ++ [Editor.id node]) c ++ each r
     end) (Editor.children node).

Definition listing (l : list Editor.EditableNode)
    : list (list string * Editor.EditableNode) :=
  flat_map (lines []) l.





(** Lines that do not go on at depth [n]: there is none, or the first is
    not deeper. *)
Definition stops (n : nat) (r : list (list string * Editor.EditableNode)) : Prop :=
  match r with
  | [] => True
  | ln :: _ => (length ln.1 ≤ n)%nat
  end.

End Spec.

(** ** Sample documents *)

Module Samples.
Import Xml.

(** A text node and a CDATA section, as the parser delivers them. *)
Definition txt (s : string) : Element :=
  mkElement type_text None None (Some s) None None.
Definition cdata (s : string) : Element :=
  mkElement type_cdata None None None (Some s) None.
Definition elem (n : string) (attrs : option Js.record) (children : list Element)
    : Element :=
  mkElement type_element (Some n) attrs None None (Some children).
Definition leaf (n : string) : Element :=
  mkElement type_element (Some n) None None None None.
Definition anonymous (children : list Element) : Element :=
  mkElement type_element None None None None (Some children).

Definition empty_state : Worker.state := Worker.mkState [] [] 0 0 [].

(** A document with attributes, mixed text and cdata, an element without a
    name and repeated sibling names. *)
Definition mixed : option (list Element) :=
  Some [elem "a" (Some [("id", "1")])
          [txt " ";
           elem "b" None [txt " 1 "];
           anonymous [cdata "x"];
           elem "b" (Some []) [txt "2"; elem "c" None []; txt "3"];
           elem "unnamed" None [txt "u"]]].

(** A root with 249 childless children followed by 250 children that have a
    child each. *)
Definition wide : option (list Element) :=
  Some [elem "r" None
          (replicate 249 (leaf "a") ++ replicate 250 (elem "p" None [leaf "c"]))].

(** A stand-in parser: one text it accepts, any other it rejects. *)
Definition toy_parser (xml : string) : parse_result :=
  if decide (xml = "<a>1</a>") then Parsed (Some [elem "a" None [txt "1"]])
  else Thrown "Unclosed root tag".

(** The two documents of the specification's first scenario,
    [<a><b>1</b><b>2</b></a>] and [<a><b>1</b><b>3</b></a>], and a stand-in
    parser that knows them by the names [left] and [right]. *)
Definition scenario_left : option (list Element) :=
  Some [elem "a" None [elem "b" None [txt "1"]; elem "b" None [txt "2"]]].

Definition scenario_right : option (list Element) :=
  Some [elem "a" None [elem "b" None [txt "1"]; elem "b" None [txt "3"]]].

Definition scenario_parser (xml : string) : parse_result :=
  if decide (xml = "left") then Parsed scenario_left
  else if decide (xml = "right") then Parsed scenario_right
  else Thrown "Unclosed root tag".

(** The editable tree of [<a><b/><b/><b/></a>]. *)
Definition three_siblings : list Editor.EditableNode :=
  Editor.buildEditableTree (Some [elem "a" None [leaf "b"; leaf "b"; leaf "b"]]) "" "".


(** Two siblings named [__proto__], each with text. *)
Definition proto_siblings : option (list Element) :=
  Some [elem "r" None
          [elem "__proto__" None [txt "x"];
           elem "__proto__" None [txt "y"]]].




End Samples.

(** ** The scenarios of the specification, run on the model *)

Section Scenarios.

Example flatten_scenario_left :
  Worker.collector <$> Worker.flatten 0 45 Samples.scenario_left =
  Some [("a[1].b[1]/#text", "1"); ("a[1].b[2]/#text", "2")].
Proof. by vm_compute. Qed.

Example compare_scenario :
  Worker.onmessage Samples.scenario_parser Spec.ordinal_compare "left" "right" =
  Some [Worker.WorkerProgress Worker.phase_left 0 "Parsing XML…";
        Worker.WorkerProgress Worker.phase_left 45 "Flatten complete";
        Worker.WorkerProgress Worker.phase_right 45 "Parsing XML…";
        Worker.WorkerProgress Worker.phase_right 90 "Flatten complete";
        Worker.WorkerProgress Worker.phase_diff 92 "Diffing…";
        Worker.WorkerProgress Worker.phase_diff 99 "Finalizing…";
        Worker.WorkerDone
          [Worker.mkDiff "a[1].b[2]/#text" (Js.JStr "2") (Js.JStr "3") Worker.changed]
          (Worker.mkStats 0 0 1)].
Proof. by vm_compute. Qed.

(** An added leaf without attributes or text leaves no record. *)
Example added_empty_leaf :
  Worker.collector <$>
    Worker.flatten 0 45
      (Some [Samples.elem "a" None [Samples.elem "b" None [Samples.txt "1"];
                                    Samples.leaf "c"]]) =
  Some [("a[1].b[1]/#text", "1")].
Proof. by vm_compute. Qed.

(** Duplicating a node at the root fails: the list of its parents is empty,
    not [null], so the child branch runs without a parent. *)
Example duplicate_root :
  Editor.duplicatePath Samples.three_siblings "a[1]" = Editor.TypeError.
Proof. by vm_compute. Qed.

End Scenarios.

(** ** Plain objects and key sets *)

Section JsFacts.

Lemma assoc_None {A} (k : string) (l : list (string * A)) :
  Js.assoc k l = None ↔ k ∉ l.*1.
Proof.
  induction l as [|[k' v] l IH]; simpl.
  - split; [intros _; apply not_elem_of_nil | done].
  - case_decide; subst.
    + split; [done | intros H; exfalso; apply H; left].
    + rewrite IH, not_elem_of_cons. naive_solver.
Qed.

Lemma assoc_Some_elem {A} (k : string) (l : list (string * A)) :
  is_Some (Js.assoc k l) ↔ k ∈ l.*1.
Proof.
  rewrite <- not_eq_None_Some, assoc_None.
  split; [apply dec_stable | auto].
Qed.

Lemma has_own_assoc (o : Js.record) (k : string) :
  Js.has_own o k = bool_decide (is_Some (Js.assoc k o)).
Proof. unfold Js.has_own, Js.keys. apply bool_decide_ext. by rewrite assoc_Some_elem. Qed.

Lemma flat_key_not_inherited (k : string) :
  Spec.contains "/" k = true → Js.inherited k = None.
Proof.
  unfold Js.inherited, Js.Object_prototype; simpl. intros H.
  repeat (case_decide; [subst; vm_compute in H; discriminate|]).
  done.
Qed.

Lemma set_of_go_spec (l s : list string) :
  NoDup s →
  let r := fold_left (fun s k => if bool_decide (k ∈ s) then s else s ++ [k]) l s in
  NoDup r ∧ ∀ k, k ∈ r ↔ k ∈ s ∨ k ∈ l.
Proof.
  revert s. induction l as [|x l IH]; intros s Hs; simpl.
  - split; [done|]. intros k. rewrite elem_of_nil. naive_solver.
  - case_bool_decide as Hx.
    + destruct (IH s Hs) as [Hn He]. split; [done|].
      intros k. rewrite He, elem_of_cons. naive_solver.
    + assert (NoDup (s ++ [x])) as Hs'.
      { apply NoDup_app. split_and!; [done| |apply NoDup_singleton].
        intros y Hy Hy'. apply list_elem_of_singleton in Hy'. by subst. }
      destruct (IH _ Hs') as [Hn He]. split; [done|].
      intros k. rewrite He, elem_of_app, list_elem_of_singleton, elem_of_cons.
      naive_solver.
Qed.

Lemma set_of_NoDup (l : list string) : NoDup (Js.set_of l).
Proof. apply (set_of_go_spec l []), NoDup_nil_2. Qed.

Lemma elem_of_set_of (l : list string) (k : string) : k ∈ Js.set_of l ↔ k ∈ l.
Proof.
  destruct (set_of_go_spec l [] (NoDup_nil_2)) as [_ H].
  unfold Js.set_of. rewrite H, elem_of_nil. naive_solver.
Qed.

End JsFacts.

(** ** The diff engine: classification, counts and order *)

Section DiffFacts.
Import Worker.

Variable localeCompare : string → string → Z.

Lemma classify_emitted left right ds st key :
  classify left right (ds, st) key =
  match Spec.emitted left right key with
  | Some d => (ds ++ [d], Spec.bump (change d) st)
  | None => (ds, st)
  end.
Proof.
  unfold classify, Spec.emitted.
  destruct (negb (Js.has right key)); [done|].
  destruct (negb (Js.has left key)); [done|].
  destruct (negb (bool_decide _)); done.
Qed.

Lemma emitted_path left right key d : Spec.emitted left right key = Some d → path d = key.
Proof.
  unfold Spec.emitted. repeat case_match; intros; simplify_eq; done.
Qed.

Lemma fold_classify left right keys ds st :
  fold_left (classify left right) keys (ds, st) =
  (ds ++ omap (Spec.emitted left right) keys,
   foldr (fun d => Spec.bump (change d)) st (reverse (omap (Spec.emitted left right) keys))).
Proof.
  revert ds st. induction keys as [|k keys IH]; intros ds st.
  - simpl. by rewrite app_nil_r.
  - cbn [fold_left]. rewrite classify_emitted. cbn [omap list_omap].
    destruct (Spec.emitted left right k) as [d|]; [|apply IH].
    rewrite IH, <- app_assoc. simpl. f_equal.
    by rewrite reverse_cons, foldr_app.
Qed.

Lemma visited_omap left right :
  Spec.visited left right = omap (Spec.emitted left right) (union_keys left right).
Proof. unfold Spec.visited. by rewrite fold_classify. Qed.

Lemma bump_counts (ds : list Diff) (st : Stats) :
  foldr (fun d => Spec.bump (change d)) st ds =
  mkStats (n_added st + Spec.count_kind added ds)
          (n_removed st + Spec.count_kind removed ds)
          (n_changed st + Spec.count_kind changed ds).
Proof.
  unfold Spec.count_kind.
  induction ds as [|d ds IH]; simpl.
  - destruct st; simpl; f_equal; lia.
  - rewrite IH. rewrite !filter_cons. destruct (change d); simpl;
      repeat case_decide; try done; simpl; f_equal; lia.
Qed.

Lemma insert_sorted_Permutation x l : insert_sorted localeCompare x l ≡ₚ x :: l.
Proof.
  induction l as [|y l IH]; simpl; [done|].
  case_decide; [done|]. rewrite IH. apply Permutation_swap.
Qed.

Lemma sort_Permutation l : sort localeCompare l ≡ₚ l.
Proof.
  induction l as [|x l IH]; simpl; [done|].
  by rewrite insert_sorted_Permutation, IH.
Qed.

Lemma count_kind_Permutation c l1 l2 :
  l1 ≡ₚ l2 → Spec.count_kind c l1 = Spec.count_kind c l2.
Proof. unfold Spec.count_kind. by intros ->. Qed.

Lemma diffMaps_unfold left right :
  diffMaps localeCompare left right =
  (sort localeCompare (Spec.visited left right),
   mkStats (Spec.count_kind added (Spec.visited left right))
           (Spec.count_kind removed (Spec.visited left right))
           (Spec.count_kind changed (Spec.visited left right))).
Proof.
  unfold diffMaps, Spec.visited. rewrite fold_classify. simpl.
  f_equal. rewrite bump_counts. simpl. f_equal;
    apply count_kind_Permutation, reverse_Permutation.
Qed.

Lemma at_key_omap_emitted left right keys k :
  NoDup keys →
  Spec.at_key k (omap (Spec.emitted left right) keys) =
  if bool_decide (k ∈ keys) then option_list (Spec.emitted left right k) else [].
Proof.
  unfold Spec.at_key. induction keys as [|x keys IH]; intros Hn; [done|].
  apply NoDup_cons in Hn as [Hx Hn]. simpl.
  destruct (decide (k = x)) as [->|Hne].
  - rewrite bool_decide_eq_true_2 by left.
    rewrite bool_decide_eq_false_2 in IH by done.
    destruct (Spec.emitted left right x) as [d|] eqn:Hd; simpl; [|by apply IH].
    rewrite filter_cons_True by by eapply emitted_path.
    f_equal. by apply IH.
  - rewrite (bool_decide_ext (k ∈ x :: keys) (k ∈ keys))
      by (rewrite elem_of_cons; naive_solver).
    destruct (Spec.emitted left right x) as [d|] eqn:Hd; simpl; [|by apply IH].
    rewrite filter_cons_False; [by apply IH|].
    apply emitted_path in Hd. congruence.
Qed.

(** On keys that are not members of the prototype the callback follows the
    rule as worded. *)
Lemma emitted_dictated left right k :
  Js.inherited k = None →
  k ∈ Js.keys left ∨ k ∈ Js.keys right →
  option_list (Spec.emitted left right k) = Spec.dictated left right k.
Proof.
  intros Hk Hin.
  unfold Spec.emitted, Spec.dictated, Js.has, Js.read.
  rewrite !has_own_assoc, Hk.
  unfold Js.keys in Hin. rewrite <- !assoc_Some_elem in Hin.
  destruct (Js.assoc k left) as [l|] eqn:Hl, (Js.assoc k right) as [r|] eqn:Hr;
    simpl; try done.
  - case_decide; subst.
    + by rewrite bool_decide_eq_true_2.
    + rewrite bool_decide_eq_false_2; [done|congruence].
  - destruct Hin as [[? ?]|[? ?]]; done.
Qed.

Lemma union_keys_spec left right :
  NoDup (union_keys left right) ∧
  ∀ k, k ∈ union_keys left right ↔ k ∈ Js.keys left ∨ k ∈ Js.keys right.
Proof.
  unfold union_keys. split; [apply set_of_NoDup|].
  intros k. by rewrite elem_of_set_of, elem_of_app.
Qed.

Lemma at_key_sort k l :
  (length (Spec.at_key k l) ≤ 1)%nat →
  Spec.at_key k (sort localeCompare l) = Spec.at_key k l.
Proof.
  intros Hlen.
  assert (Spec.at_key k (sort localeCompare l) ≡ₚ Spec.at_key k l) as Hp.
  { unfold Spec.at_key. by rewrite sort_Permutation. }
  destruct (Spec.at_key k l) as [|d [|d' r]]; simpl in Hlen; [| |lia].
  - by apply Permutation_nil_r.
  - by apply Permutation_singleton_r.
Qed.

Lemma at_key_visited left right k :
  Spec.at_key k (Spec.visited left right) =
  if bool_decide (k ∈ union_keys left right)
  then option_list (Spec.emitted left right k) else [].
Proof. rewrite visited_omap. apply at_key_omap_emitted, union_keys_spec. Qed.

(** *** Order *)

Hypothesis compare_total : ∀ a b, (localeCompare a b ≤ 0 ∨ localeCompare b a ≤ 0)%Z.
Hypothesis compare_trans :
  ∀ a b c, (localeCompare a b ≤ 0 → localeCompare b c ≤ 0 → localeCompare a c ≤ 0)%Z.

Lemma insert_sorted_sorted x l :
  StronglySorted (Spec.precedes localeCompare) l →
  StronglySorted (Spec.precedes localeCompare) (insert_sorted localeCompare x l).
Proof.
  induction 1 as [|y l Hs IH Hy]; simpl.
  - repeat constructor.
  - case_decide as Hxy.
    + constructor; [by constructor|].
      constructor; [done|]. eapply Forall_impl; [exact Hy|].
      intros z Hz. unfold Spec.precedes in *. eauto.
    + constructor; [done|].
      rewrite insert_sorted_Permutation. constructor; [|done].
      unfold Spec.precedes. destruct (compare_total (path x) (path y)); [done|lia].
Qed.

Lemma sort_sorted l : StronglySorted (Spec.precedes localeCompare) (sort localeCompare l).
Proof.
  induction l as [|x l IH]; simpl; [constructor|by apply insert_sorted_sorted].
Qed.



Lemma visited_paths_NoDup left right : NoDup (path <$> Spec.visited left right).
Proof.
  rewrite visited_omap.
  destruct (union_keys_spec left right) as [Hn _].
  induction Hn as [|k keys Hk Hn IH]; simpl; [constructor|].
  destruct (Spec.emitted left right k) as [d|] eqn:Hd; [|done].
  rewrite fmap_cons. constructor; [|done].
  rewrite (emitted_path _ _ _ _ Hd). intros Hin. apply Hk.
  apply list_elem_of_fmap in Hin as (d' & -> & Hd').
  apply list_elem_of_omap in Hd' as (k' & Hk' & He).
  by rewrite (emitted_path _ _ _ _ He).
Qed.



(** C1. For flat mappings [left] and [right], [diffMaps] visits every key of
    the union of the two key sets exactly once; the records it returns at a
    key are exactly the one the rule dictates (removed with the left value
    when the key is absent on the right, added with the right value when it
    is absent on the left, changed with both values when they differ, none
    when they are equal), no record sits at any other key, and the stats are
    the numbers of records of each kind in the output. *)
Theorem diffMaps_classifies (left right : Js.record) :
  Spec.FlatMapping left → Spec.FlatMapping right →
  NoDup (union_keys left right) ∧
  (∀ k, k ∈ union_keys left right ↔ k ∈ Js.keys left ∨ k ∈ Js.keys right) ∧
  (∀ k, k ∈ union_keys left right →
        Spec.at_key k (diffMaps localeCompare left right).1 = Spec.dictated left right k) ∧
  (∀ k, k ∉ union_keys left right →
        Spec.at_key k (diffMaps localeCompare left right).1 = []) ∧
  (diffMaps localeCompare left right).2 =
    mkStats (Spec.count_kind added (diffMaps localeCompare left right).1)
            (Spec.count_kind removed (diffMaps localeCompare left right).1)
            (Spec.count_kind changed (diffMaps localeCompare left right).1).
Proof.
  intros Hl Hr.
  destruct (union_keys_spec left right) as [Hn Hk].
  assert (∀ k, (length (Spec.at_key k (Spec.visited left right)) ≤ 1)%nat) as Hlen.
  { intros k. rewrite at_key_visited. case_bool_decide; [|simpl; lia].
    destruct (Spec.emitted left right k); simpl; lia. }
  rewrite diffMaps_unfold. simpl. split_and!; [done|done| | |].
  - intros k Hin. rewrite at_key_sort, at_key_visited by done.
    rewrite bool_decide_eq_true_2 by done.
    apply emitted_dictated; [|by apply Hk].
    apply flat_key_not_inherited.
    unfold Spec.FlatMapping in *. rewrite Forall_forall in Hl, Hr.
    apply Hk in Hin as [?|?]; auto.
  - intros k Hin. rewrite at_key_sort, at_key_visited by done.
    by rewrite bool_decide_eq_false_2.
  - f_equal; symmetry; apply count_kind_Permutation, sort_Permutation.
Qed.


End DiffFacts.

Lemma ordinal_compare_le (a b : string) :
  (Spec.ordinal_compare a b ≤ 0)%Z ↔ String.le a b.
Proof.
  unfold Spec.ordinal_compare, String.le, String.leb.
  destruct (String.compare a b); simpl; split; intros; try done; lia.
Qed.

Lemma ordinal_compare_total (a b : string) :
  (Spec.ordinal_compare a b ≤ 0 ∨ Spec.ordinal_compare b a ≤ 0)%Z.
Proof. rewrite !ordinal_compare_le. apply String.le_total. Qed.

Lemma ordinal_compare_trans (a b c : string) :
  (Spec.ordinal_compare a b ≤ 0 → Spec.ordinal_compare b c ≤ 0 →
   Spec.ordinal_compare a c ≤ 0)%Z.
Proof. rewrite !ordinal_compare_le. apply String.le_po. Qed.

Lemma diffMaps_classifies_witness :
  let left := [("a[1].b[1]/#text", "1"); ("a[1].b[2]/#text", "2"); ("a[1]/@id", "x")] in
  let right := [("a[1].b[1]/#text", "1"); ("a[1].b[2]/#text", "3"); ("a[1].c[1]/@k", "v")] in
  Spec.FlatMapping left ∧ Spec.FlatMapping right ∧
  Spec.at_key "a[1].b[2]/#text" (Worker.diffMaps Spec.ordinal_compare left right).1 =
    Spec.dictated left right "a[1].b[2]/#text".
Proof.
  intros left right.
  assert (Spec.FlatMapping left) as Hl by (repeat constructor).
  assert (Spec.FlatMapping right) as Hr by (repeat constructor).
  split_and!; [done|done|].
  destruct (diffMaps_classifies Spec.ordinal_compare left right Hl Hr)
    as (_ & _ & Hat & _).
  apply Hat. apply elem_of_set_of. vm_compute. repeat constructor.
Defined.



(** ** Strings *)

Section StringFacts.

Lemma append_empty_r (s : string) : s +:+ "" = s.
Proof.
  induction s as [|c s IH]; [done|].
  change (String c (s +:+ "") = String c s). by rewrite IH.
Qed.

Lemma append_assoc (a b c : string) : (a +:+ b) +:+ c = a +:+ (b +:+ c).
Proof.
  induction a as [|x a IH]; [done|].
  change (String x ((a +:+ b) +:+ c) = String x (a +:+ (b +:+ c))). by rewrite IH.
Qed.

Lemma append_cons (x : ascii) (a b : string) : String x a +:+ b = String x (a +:+ b).
Proof. done. Qed.

Lemma trimStart_head (s : string) :
  Js.trimStart s = "" ∨
  ∃ c r, Js.trimStart s = String c r ∧ Js.is_white_space c = false.
Proof.
  induction s as [|c s IH]; simpl; [by left|].
  destruct (Js.is_white_space c) eqn:Hc; [done|]. right. eauto.
Qed.

Lemma trimEnd_cons (c : ascii) (r : string) :
  Js.trimEnd (String c r) =
  match Js.trimEnd r with
  | "" => if Js.is_white_space c then "" else String c ""
  | r' => String c r'
  end.
Proof. done. Qed.

Lemma trimEnd_idem (s : string) : Js.trimEnd (Js.trimEnd s) = Js.trimEnd s.
Proof.
  induction s as [|c s IH]; [done|]. rewrite trimEnd_cons.
  destruct (Js.trimEnd s) as [|a r] eqn:Hs.
  - destruct (Js.is_white_space c) eqn:Hc; [done|]. cbn. by rewrite Hc.
  - rewrite trimEnd_cons, IH. done.
Qed.

Lemma trimEnd_head (c : ascii) (r : string) :
  Js.is_white_space c = false → ∃ r', Js.trimEnd (String c r) = String c r'.
Proof.
  intros Hc. cbn [Js.trimEnd]. destruct (Js.trimEnd r); [rewrite Hc|]; eauto.
Qed.

(** Trimming a trimmed string changes nothing. *)
Lemma trim_idem (s : string) : Js.trim (Js.trim s) = Js.trim s.
Proof.
  unfold Js.trim.
  destruct (trimStart_head s) as [->|(c & r & -> & Hc)]; [done|].
  destruct (trimEnd_head c r Hc) as [r' Hr]. rewrite Hr.
  cbn [Js.trimStart]. rewrite Hc, <- Hr. apply trimEnd_idem.
Qed.

Lemma truthy_string_spec (s : string) : Js.truthy_string s = true ↔ s ≠ "".
Proof. destruct s; simpl; naive_solver. Qed.

End StringFacts.

(** ** The flattener: one element, one batch, the whole loop *)

Section FlattenFacts.
Import Xml Worker.

Variables basePercent spanPercent : Z.

Lemma write_all_app es1 es2 c :
  Spec.write_all (es1 ++ es2) c = Spec.write_all es2 (Spec.write_all es1 c).
Proof. unfold Spec.write_all. apply fold_left_app. Qed.

Lemma write_attributes_entries pathString attrs c :
  write_attributes pathString attrs c =
  Spec.write_all ((fun a => (pathString +:+ "/@" +:+ a.1, a.2)) <$> attrs) c.
Proof.
  unfold write_attributes, Spec.write_all. revert c.
  induction attrs as [|[an av] attrs IH]; intros c; simpl; [done|apply IH].
Qed.

(** What one turn of the [for] loop does to the collector, the work list and
    the counters; the progress bookkeeping does not feed back into them. *)
Lemma visit_skip path st counts el :
  is_element el = false → visit basePercent spanPercent path (st, counts) el = (st, counts).
Proof. unfold visit. by intros ->. Qed.

Lemma visit_element path st counts el :
  is_element el = true →
  let name := default "unnamed" (Xml.name el) in
  let currentPath := path ++ [segment name (Spec.next_index counts el)] in
  let r := visit basePercent spanPercent path (st, counts) el in
  collector r.1 =
    Spec.write_all (Spec.own_entries (Js.join "." currentPath) el) (collector st) ∧
  stack r.1 = Spec.child_items el currentPath ++ stack st ∧
  processedElements r.1 = S (processedElements st) ∧
  r.2 = Js.set counts name (Spec.next_index counts el).
Proof.
  intros Hel. unfold visit. rewrite Hel. cbn [negb].
  unfold Spec.own_entries, Spec.child_items, Spec.next_index.
  set (p := path ++ _).
  assert (∀ c, (if Js.truthy_string (extractText (elements el))
                then Js.write
                       match attributes el with
                       | Some attrs => write_attributes (Js.join "." p) attrs c
                       | None => c
                       end (Js.join "." p +:+ "/#text") (extractText (elements el))
                else match attributes el with
                     | Some attrs => write_attributes (Js.join "." p) attrs c
                     | None => c
                     end) =
               Spec.write_all
                 (match attributes el with
                  | Some attrs => (fun a => (Js.join "." p +:+ "/@" +:+ a.1, a.2)) <$> attrs
                  | None => []
                  end ++
                  (if Js.truthy_string (extractText (elements el))
                   then [(Js.join "." p +:+ "/#text", extractText (elements el))]
                   else [])) c) as Hc.
  { intros c. rewrite write_all_app.
    destruct (attributes el); [rewrite write_attributes_entries|];
      destruct (Js.truthy_string _); done. }
  case_decide; simpl; rewrite Hc; split_and!; try done;
    destruct (elements el) as [l|]; simpl; try done;
    destruct (filter _ l); done.
Qed.

(** *** The text entry of an element *)

Lemma extractText_fold (nodes : list Element) (out : string) :
  fold_left
    (fun out node =>
       if is_text_or_cdata node then out +:+ default "" (text node) else out)
    nodes out = out +:+ Spec.text_fields nodes.
Proof.
  unfold Spec.text_fields. revert out.
  induction nodes as [|n nodes IH]; intros out; simpl; [by rewrite append_empty_r|].
  rewrite IH, filter_cons. case_decide as Hn.
  - rewrite Hn. csimpl. by rewrite append_assoc.
  - apply not_true_is_false in Hn. by rewrite Hn.
Qed.

Lemma extractText_fields (nodes : list Element) :
  extractText (Some nodes) = Js.trim (Spec.text_fields nodes).
Proof. unfold extractText. by rewrite extractText_fold. Qed.

(** When the flattener processes an element, the collector it leaves is the
    collector after the attribute writes, with at most one more write: the
    key is the path followed by [/#text] and the value is the text that
    [extractText] returns; when that is empty nothing is written. *)
Lemma visit_text_entry path st counts el :
  is_element el = true →
  let pathString :=
    Js.join "." (path ++ [segment (default "unnamed" (Xml.name el))
                            (Spec.next_index counts el)]) in
  let trimmed := Js.trim (Spec.text_fields (default [] (elements el))) in
  let after_attributes :=
    match attributes el with
    | Some attrs => write_attributes pathString attrs (collector st)
    | None => collector st
    end in
  extractText (elements el) = trimmed ∧
  collector (visit basePercent spanPercent path (st, counts) el).1 =
    if decide (trimmed = "") then after_attributes
    else Js.write after_attributes (pathString +:+ "/#text") trimmed.
Proof.
  intros Hel pathString trimmed after_attributes.
  assert (extractText (elements el) = trimmed) as Ht.
  { subst trimmed. destruct (elements el); [apply extractText_fields|done]. }
  split; [done|].
  destruct (visit_element path st counts el Hel) as [-> _].
  unfold Spec.own_entries. rewrite write_all_app, Ht.
  fold pathString. subst after_attributes.
  destruct (attributes el) as [attrs|]; rewrite ?write_attributes_entries;
    (case_decide as He; [by rewrite He|];
     apply truthy_string_spec in He; by rewrite He).
Qed.

Lemma fold_visit path els st counts :
  let labs := Spec.labelled path counts els in
  let r := fold_left (visit basePercent spanPercent path) els (st, counts) in
  collector r.1 = Spec.write_all (flat_map Spec.own_of labs) (collector st) ∧
  stack r.1 = flat_map Spec.items_of (reverse labs) ++ stack st ∧
  processedElements r.1 = (processedElements st + length labs)%nat.
Proof.
  revert st counts. induction els as [|el els IH]; intros st counts.
  - simpl. split_and!; [done|done|lia].
  - cbn [fold_left Spec.labelled].
    destruct (is_element el) eqn:Hel; cbn [negb].
    + destruct (visit_element path st counts el Hel) as (Hc & Hs & Hp & Hn).
      destruct (visit basePercent spanPercent path (st, counts) el) as [st1 counts1].
      simpl in Hc, Hs, Hp, Hn. subst counts1.
      destruct (IH st1 (Js.set counts (default "unnamed" (Xml.name el))
                          (Spec.next_index counts el))) as (Hc' & Hs' & Hp').
      cbv zeta in *. rewrite Hc', Hs', Hp', Hc, Hs, Hp.
      cbn [flat_map]. rewrite write_all_app, reverse_cons, flat_map_app.
      cbn [flat_map length]. rewrite app_nil_r, <- app_assoc.
      split_and!; [done|done|lia].
    + rewrite visit_skip by done. apply IH.
Qed.

Lemma batch_spec it st :
  let labs := Spec.labelled (item_path it) ∅ (default [] (item_elements it)) in
  collector (batch basePercent spanPercent it st) =
    Spec.write_all (flat_map Spec.own_of labs) (collector st) ∧
  stack (batch basePercent spanPercent it st) =
    flat_map Spec.items_of (reverse labs) ++ stack st.
Proof.
  unfold batch. destruct (item_elements it) as [els|]; simpl; [|done].
  destruct (fold_visit (item_path it) els st ∅) as (? & ? & _). done.
Qed.

(** *** The loop terminates *)

Lemma size_unfold (e : Element) :
  size e = S (match elements e with None => 0 | Some l => sizes l end).
Proof.
  by destruct e as [t n a x cd [l|]].
Qed.

Lemma sizes_filter (P : Element → Prop) `{!∀ x, Decision (P x)} (l : list Element) :
  (sizes (filter P l) ≤ sizes l)%nat.
Proof.
  unfold sizes. induction l as [|c l IH]; [done|].
  rewrite filter_cons. case_decide; csimpl; lia.
Qed.

Lemma child_items_weight el p :
  (stack_weight (Spec.child_items el p) ≤ size el)%nat.
Proof.
  rewrite size_unfold. unfold Spec.child_items, stack_weight.
  destruct (elements el) as [l|]; simpl; [|lia].
  pose proof (sizes_filter (fun n => is_element n = true) l) as Hf.
  destruct (filter _ l); simpl in *; lia.
Qed.

Lemma stack_weight_app s1 s2 :
  stack_weight (s1 ++ s2) = (stack_weight s1 + stack_weight s2)%nat.
Proof. apply sum_list_with_app. Qed.

Lemma labelled_weight path counts els :
  (stack_weight (flat_map Spec.items_of (reverse (Spec.labelled path counts els)))
   ≤ sizes els)%nat.
Proof.
  revert counts. induction els as [|el els IH]; intros counts; simpl; [done|].
  unfold sizes in *. destruct (is_element el); simpl.
  - rewrite reverse_cons, flat_map_app, stack_weight_app. simpl.
    rewrite app_nil_r. specialize (IH (Js.set counts (default "unnamed" (Xml.name el))
                                         (Spec.next_index counts el))).
    pose proof (child_items_weight el (path ++ [segment (default "unnamed" (Xml.name el))
                                                  (Spec.next_index counts el)])).
    unfold Spec.items_of at 2. simpl. lia.
  - specialize (IH counts). lia.
Qed.

Lemma batch_weight it st :
  (stack_weight (stack (batch basePercent spanPercent it st)) <
   stack_weight (it :: stack st))%nat.
Proof.
  destruct (batch_spec it st) as [_ ->]. rewrite stack_weight_app.
  unfold stack_weight at 3. simpl. fold (stack_weight (stack st)).
  unfold item_weight.
  pose proof (labelled_weight (item_path it) ∅ (default [] (item_elements it))).
  destruct (item_elements it); simpl in *; unfold sizes in *; simpl in *; lia.
Qed.

Lemma loop_total fuel st :
  (stack_weight (stack st) ≤ fuel)%nat →
  ∃ st', loop basePercent spanPercent fuel st = Some st'.
Proof.
  revert st. induction fuel as [|fuel IH]; intros st Hw.
  - destruct st as [c [|it rest] pe le po]; simpl in *; [eauto|].
    unfold stack_weight, item_weight in Hw. simpl in Hw. lia.
  - destruct st as [c [|it rest] pe le po]; simpl in *; [eauto|].
    apply IH.
    pose proof (batch_weight it (mkState c rest pe le po)) as Hb. simpl in Hb. lia.
Qed.

(** The flattener always returns. *)
Lemma flatten_total rootElements :
  ∃ st, flatten basePercent spanPercent rootElements = Some st.
Proof.
  unfold flatten.
  edestruct (loop_total (stack_weight [mkItem rootElements []])) as [st' ->];
    [|eauto]. done.
Qed.

(** *** What the loop writes *)

Lemma labelled_filter path counts els :
  Spec.labelled path counts (filter (fun n => is_element n = true) els) =
  Spec.labelled path counts els.
Proof.
  revert counts. induction els as [|el els IH]; intros counts; [done|].
  rewrite filter_cons. case_decide as Hel; cbn [Spec.labelled].
  - rewrite Hel. cbn [negb]. by rewrite IH.
  - apply not_true_is_false in Hel. rewrite Hel. apply IH.
Qed.

Lemma labelled_no_elements path counts els :
  filter (fun n => is_element n = true) els = [] → Spec.labelled path counts els = [].
Proof. intros H. by rewrite <- labelled_filter, H. Qed.

Lemma below_unfold el p :
  Spec.below el p = Spec.traversal (Spec.labelled p ∅ (default [] (elements el))).
Proof.
  destruct el as [t n a x cd [l|]]; [|done]. cbn [Spec.below elements default].
  unfold Spec.traversal.
  match goal with |- (let '(_, _) := ?f l ∅ in _) = _ => set (each := f) end.
  assert (∀ l counts, each l counts =
            (flat_map Spec.own_of (Spec.labelled p counts l),
             flat_map Spec.below_of (reverse (Spec.labelled p counts l)))) as Heach.
  { clear l. induction l as [|c l IH]; intros counts; [done|].
    cbn [each Spec.labelled]. fold each.
    destruct (is_element c); cbn [negb]; [|apply IH].
    rewrite IH. cbn [flat_map]. rewrite reverse_cons, flat_map_app.
    cbn [flat_map]. by rewrite app_nil_r. }
  by rewrite Heach.
Qed.

Lemma items_traversal lab :
  flat_map Spec.item_traversal (Spec.items_of lab) = Spec.below_of lab.
Proof.
  destruct lab as [el p]. unfold Spec.items_of, Spec.below_of, Spec.child_items. simpl.
  rewrite below_unfold.
  destruct (elements el) as [l|]; simpl; [|done].
  destruct (filter _ l) as [|c cs] eqn:Hf; simpl.
  - by rewrite labelled_no_elements.
  - rewrite app_nil_r.
    change (Spec.traversal (Spec.labelled p ∅ (c :: cs)) =
            Spec.traversal (Spec.labelled p ∅ l)).
    by rewrite <- Hf, labelled_filter.
Qed.

Lemma flat_map_items (labs : list (Element * list string)) :
  flat_map Spec.item_traversal (flat_map Spec.items_of labs) = flat_map Spec.below_of labs.
Proof.
  induction labs as [|lab labs IH]; [done|].
  cbn [flat_map]. by rewrite flat_map_app, items_traversal, IH.
Qed.

Lemma loop_collector fuel st st' :
  loop basePercent spanPercent fuel st = Some st' →
  stack st' = [] ∧
  collector st' = Spec.write_all (flat_map Spec.item_traversal (stack st)) (collector st).
Proof.
  revert st. induction fuel as [|fuel IH]; intros st;
    destruct st as [c [|it rest] pe le po]; simpl; intros H; simplify_eq; try done.
  apply IH in H as [Hs Hc]. split; [done|]. rewrite Hc.
  destruct (batch_spec it (mkState c rest pe le po)) as [-> ->]. simpl.
  rewrite <- write_all_app, flat_map_app, flat_map_items, app_assoc. done.
Qed.

(** The mapping the flattener returns is the result of writing, into an
    empty object, the entries of the document in the order of the loop. *)
Lemma flatten_collector rootElements st :
  flatten basePercent spanPercent rootElements = Some st →
  collector st =
  Spec.write_all (Spec.traversal (Spec.labelled [] ∅ (default [] rootElements))) [].
Proof.
  unfold flatten. destruct (loop _ _ _ _) as [st'|] eqn:Hl; [|done].
  intros [= <-]. simpl. apply loop_collector in Hl as [_ ->]. simpl.
  by rewrite app_nil_r.
Qed.

End FlattenFacts.

Lemma text_fields_parsed (nodes : list Xml.Element) :
  Forall Spec.as_parsed nodes →
  Spec.text_fields nodes =
  Spec.literal_text (filter (fun n => Xml.type n ≠ Xml.type_cdata) nodes).
Proof.
  unfold Spec.text_fields, Spec.literal_text.
  induction 1 as [|n nodes Hn _ IH]; [done|].
  rewrite (filter_cons (fun n => Xml.is_text_or_cdata n = true)),
    (filter_cons (fun n => Xml.type n ≠ Xml.type_cdata)).
  destruct n as [t nm a x cd l]. unfold Spec.as_parsed in Hn. cbn [Xml.type] in *.
  destruct t.
  - rewrite decide_False by done. rewrite decide_True by done.
    rewrite fmap_cons. cbn [foldr]. by rewrite <- IH.
  - rewrite !decide_True by done. rewrite !fmap_cons. cbn [foldr]. by rewrite <- IH.
  - rewrite decide_True by done. rewrite decide_False by (by intros H; apply H).
    rewrite fmap_cons. cbn [foldr]. cbn in Hn. by rewrite Hn, <- IH.
  - rewrite decide_False by done. rewrite decide_True by done.
    rewrite fmap_cons. cbn [foldr]. by rewrite <- IH.
  - rewrite decide_False by done. rewrite decide_True by done.
    rewrite fmap_cons. cbn [foldr]. by rewrite <- IH.
  - rewrite decide_False by done. rewrite decide_True by done.
    rewrite fmap_cons. cbn [foldr]. by rewrite <- IH.
Qed.

(** C3. The text entry of an element leaves out its CDATA children.  The
    parser stores the content of a CDATA section in the field [cdata], and
    [extractText] reads the field [text] of text and cdata children alike.
    For nodes as the parser delivers them the text of an element is
    therefore the trimmed concatenation of its direct text children alone.
    For the element b with attribute x = y, the text [ 2], a child c and
    the CDATA section [3 ], the entry written is [2] where the trimmed
    literal text of the text and cdata children is [23]; and an element
    whose only content is the CDATA section [x] gets no text entry, where
    the specification requires the entry [x]. *)
Theorem cdata_text_is_dropped :
  (∀ nodes, Forall Spec.as_parsed nodes →
     Worker.extractText (Some nodes) =
     Js.trim (Spec.literal_text (filter (fun n => Xml.type n ≠ Xml.type_cdata) nodes))) ∧
  (let el := Samples.elem "b" (Some [("x", "y")])
               [Samples.txt " 2"; Samples.elem "c" None [Samples.txt "no"];
                Samples.cdata "3 "] in
   Js.trim (Spec.literal_text (default [] (Xml.elements el))) = "23" ∧
   Worker.extractText (Xml.elements el) = "2" ∧
   Worker.collector (Worker.visit 0 45 ["a[1]"] (Samples.empty_state, ∅) el).1 =
     [("a[1].b[1]/@x", "y"); ("a[1].b[1]/#text", "2")]) ∧
  (Js.trim (Spec.literal_text [Samples.cdata "x"]) = "x" ∧
   Worker.collector <$>
     Worker.flatten 0 45 (Some [Samples.elem "a" None [Samples.cdata "x"]]) =
   Some []).
Proof.
  split; [|by vm_compute].
  intros nodes Hp. by rewrite extractText_fields, text_fields_parsed.
Qed.

(** ** Sibling counters *)

Section CounterFacts.
Import Xml.

Lemma get_set_eq (c : Js.counters) (k : string) (v : Js.value) :
  k ≠ "__proto__" → Js.get (Js.set c k v) k = v.
Proof.
  intros Hk. unfold Js.get, Js.set, Js.counters in *.
  rewrite decide_False by done. by rewrite lookup_insert_eq.
Qed.

Lemma get_set_ne (c : Js.counters) (k k' : string) (v : Js.value) :
  k ≠ k' → Js.get (Js.set c k v) k' = Js.get c k'.
Proof.
  intros Hk. unfold Js.get, Js.set, Js.counters in *. case_decide; [done|].
  by rewrite lookup_insert_ne.
Qed.

Lemma append_char_inj (a b : string) (x : ascii) :
  a +:+ String x "" = b +:+ String x "" → a = b.
Proof.
  revert b. induction a as [|y a IH]; intros [|z b] H; [done| | |].
  - injection H as _ H. by destruct b.
  - injection H as _ H. by destruct a.
  - injection H as -> H. f_equal. by apply IH.
Qed.

Lemma segment_inj (name : string) (i j : nat) :
  Worker.segment name (Js.JNum i) = Worker.segment name (Js.JNum j) → i = j.
Proof.
  unfold Worker.segment. simpl. intros H.
  apply (inj (String.app name)), (inj (String.app "[")) in H.
  apply append_char_inj in H. by apply pretty_nat_inj in H.
Qed.

(** The flattener numbers the siblings that go by the name [unnamed], with
    or without a name of their own, from one counter. *)
Lemma labelled_unnamed path counts els n :
  Js.nullish_or_zero (Js.get counts "unnamed") = Js.JNum n →
  (filter (fun lab => Spec.path_name lab.1 = "unnamed")
     (Spec.labelled path counts els)).*2 =
  (fun i => path ++ [Worker.segment "unnamed" (Js.JNum i)]) <$>
    seq (S n)
      (length (filter (fun lab => Spec.path_name lab.1 = "unnamed")
                 (Spec.labelled path counts els))).
Proof.
  revert counts n. induction els as [|el els IH]; intros counts n Hn; [done|].
  cbn [Spec.labelled]. destruct (is_element el); cbn [negb]; [|by apply IH].
  destruct (decide (Spec.path_name el = "unnamed")) as [Hnm|Hnm].
  - rewrite !filter_cons_True by done. unfold Spec.path_name in Hnm.
    cbn [fmap list_fmap length seq snd]. rewrite Hnm.
    unfold Spec.next_index. rewrite Hnm, Hn. cbn [Js.add_one].
    replace (n + 1)%nat with (S n) by lia. f_equal.
    apply IH. by rewrite get_set_eq.
  - rewrite !filter_cons_False by done. apply IH. rewrite get_set_ne; done.
Qed.

(** The tree builder does the same, with its own path syntax. *)
Lemma build_each_unnamed l path parentPath counts n :
  Js.falsy_or_zero (Js.get counts "unnamed") = Js.JNum n →
  Editor.path <$> filter (fun node => Editor.name node = "unnamed")
                    (Editor.build_each l path parentPath counts) =
  (fun i => Editor.indexed_path path "unnamed" (Js.JNum i)) <$>
    seq (S n)
      (length (filter (fun node => Editor.name node = "unnamed")
                 (Editor.build_each l path parentPath counts))).
Proof.
  revert counts n. induction l as [|el l IH]; intros counts n Hn; [done|].
  cbn [Editor.build_each]. destruct (is_element el); cbn [negb]; [|by apply IH].
  assert (∀ cp fpp, Editor.name (Editor.build_node el cp fpp) =
                    Editor.or_else (Xml.name el) "unnamed") as Hname
    by (by destruct el).
  assert (∀ cp fpp, Editor.path (Editor.build_node el cp fpp) = cp) as Hpath
    by (by destruct el).
  destruct (decide (Editor.or_else (Xml.name el) "unnamed" = "unnamed")) as [Hnm|Hnm].
  - rewrite !filter_cons_True by (by rewrite Hname).
    cbn [fmap list_fmap length seq]. rewrite Hpath, Hnm.
    unfold Editor.next_count. rewrite Hn. cbn [Js.add_one].
    replace (n + 1)%nat with (S n) by lia. f_equal.
    apply IH. by rewrite get_set_eq.
  - rewrite !filter_cons_False by (by rewrite Hname).
    apply IH. rewrite get_set_ne; done.
Qed.

Lemma build_node_literally_named el cp fpp :
  Editor.build_node (Spec.literally_named el) cp fpp = Editor.build_node el cp fpp.
Proof. by destruct el as [t [n|] a x e]. Qed.

(** The node the builder returns for an element without a name: it stands
    at the element's position among the element children, is named
    [unnamed], and its index is one more than the number of earlier element
    siblings counted under that name. *)
Lemma build_each_nameless l p pp counts n i el :
  Js.falsy_or_zero (Js.get counts "unnamed") = Js.JNum n →
  filter (fun e => is_element e = true) l !! i = Some el →
  Xml.name el = None →
  ∃ node, Editor.build_each l p pp counts !! i = Some node ∧
    Editor.name node = "unnamed" ∧
    Editor.path node =
      Editor.indexed_path p "unnamed"
        (Js.JNum (S (n + length (filter (fun e => Spec.editor_unnamed e = true)
                                   (take i (filter (fun e => is_element e = true) l)))))).
Proof.
  revert counts n i. induction l as [|el0 l IH]; intros counts n i Hn Hi Hnone; [done|].
  cbn [Editor.build_each].
  destruct (is_element el0) eqn:He; cbn [negb].
  2: { rewrite filter_cons_False in Hi |- * by (by rewrite He). by apply IH. }
  rewrite filter_cons_True in Hi |- * by done.
  assert (∀ cp fpp, Editor.name (Editor.build_node el0 cp fpp) =
                    Editor.or_else (Xml.name el0) "unnamed") as Hname
    by (by destruct el0).
  assert (∀ cp fpp, Editor.path (Editor.build_node el0 cp fpp) = cp) as Hpath
    by (by destruct el0).
  assert (Spec.editor_unnamed el0 = true ↔
          Editor.or_else (Xml.name el0) "unnamed" = "unnamed") as Hun.
  { unfold Spec.editor_unnamed, Editor.or_else.
    destruct (Xml.name el0) as [[|c r]|]; cbn [Js.truthy_string]; [done| |done].
    rewrite orb_true_iff, !bool_decide_eq_true. naive_solver. }
  destruct i as [|i].
  - injection Hi as ->. eexists. split; [done|].
    rewrite Hname, Hpath, Hnone. cbn [Editor.or_else]. split; [done|].
    unfold Editor.next_count. rewrite Hn. cbn [Js.add_one take filter length].
    do 2 f_equal. rewrite filter_nil. simpl. lia.
  - cbn [lookup list_lookup] in Hi |- *. cbn [take].
    destruct (Spec.editor_unnamed el0) eqn:Hu.
    + rewrite filter_cons_True by done. cbn [length].
      assert (Editor.or_else (Xml.name el0) "unnamed" = "unnamed") as Hnm by (by apply Hun).
      rewrite Hnm.
      destruct (IH (Js.set counts "unnamed" (Editor.next_count counts "unnamed"))
                  (S n) i) as (node & Hl & Hnn & Hp); [|done|done|].
      { rewrite get_set_eq by done. unfold Editor.next_count. rewrite Hn.
        cbn [Js.add_one]. by replace (n + 1)%nat with (S n) by lia. }
      exists node. split_and!; [done|done|]. rewrite Hp. do 3 f_equal. lia.
    + rewrite filter_cons_False by (by rewrite Hu). 
      assert (Editor.or_else (Xml.name el0) "unnamed" ≠ "unnamed") as Hnm.
      { intros H. apply Hun in H. congruence. }
      apply IH; [|done|done]. by rewrite get_set_ne.
Qed.

(** C10. An element without a name is treated, by the flattener and by the
    tree builder alike, exactly as the same element literally named
    [unnamed]: the same turn of the loop, the same node.  The flattener
    writes and pushes a batch under the paths of [labelled]; among these,
    and among the paths of the nodes the builder returns, the siblings that
    go by the name [unnamed], with or without a name of their own, are
    numbered 1, 2, 3, ... in document order from one counter, so their paths
    are pairwise distinct.  The builder returns one node for each element
    child, in order; the node of an element without a name is named
    [unnamed] and its path ends in [unnamed[k]], where [k] is one more than
    the number of earlier element siblings counted under that name. *)
Theorem unnamed_elements (b s : Z) (path : list string) (p pp : string)
    (els : list Element) :
  (∀ acc el, Worker.visit b s path acc (Spec.literally_named el) =
             Worker.visit b s path acc el) ∧
  Editor.build_each (Spec.literally_named <$> els) p pp ∅ =
    Editor.build_each els p pp ∅ ∧
  (∀ st, let r := fold_left (Worker.visit b s path) els (st, ∅) in
         Worker.collector r.1 =
           Spec.write_all (flat_map Spec.own_of (Spec.labelled path ∅ els))
             (Worker.collector st) ∧
         Worker.stack r.1 =
           flat_map Spec.items_of (reverse (Spec.labelled path ∅ els)) ++
           Worker.stack st) ∧
  (let unnamed := filter (fun lab => Spec.path_name lab.1 = "unnamed")
                    (Spec.labelled path ∅ els) in
   unnamed.*2 = (fun i => path ++ [Worker.segment "unnamed" (Js.JNum i)]) <$>
                  seq 1 (length unnamed) ∧
   NoDup unnamed.*2) ∧
  (let unnamed := filter (fun node => Editor.name node = "unnamed")
                    (Editor.build_each els p pp ∅) in
   Editor.path <$> unnamed =
     (fun i => Editor.indexed_path p "unnamed" (Js.JNum i)) <$>
       seq 1 (length unnamed) ∧
   NoDup (Editor.path <$> unnamed)) ∧
  length (Editor.build_each els p pp ∅) =
    length (filter (fun e => is_element e = true) els) ∧
  (∀ i el,
     filter (fun e => is_element e = true) els !! i = Some el →
     Xml.name el = None →
     ∃ node, Editor.build_each els p pp ∅ !! i = Some node ∧
       Editor.name node = "unnamed" ∧
       Editor.path node =
         Editor.indexed_path p "unnamed"
           (Js.JNum (S (length (filter (fun e => Spec.editor_unnamed e = true)
                                  (take i (filter (fun e => is_element e = true) els))))))).
Proof.
  split_and!; [| | | | | |
    intros i el Hi Hnone;
    by apply (build_each_nameless els p pp ∅ 0 i el)].
  6: { generalize (∅ : Js.counters).
       induction els as [|el els IH]; intros counts; [done|].
       cbn [Editor.build_each]. destruct (is_element el) eqn:He; cbn [negb].
       - rewrite filter_cons_True by done. cbn [length]. by rewrite IH.
       - rewrite filter_cons_False by (by rewrite He). apply IH. }
  - intros [st counts] el. by destruct el as [t [n|] a x e].
  - generalize (∅ : Js.counters). induction els as [|el els IH]; intros counts; [done|].
    rewrite fmap_cons. cbn [Editor.build_each].
    assert (is_element (Spec.literally_named el) = is_element el) as ->
      by (by destruct el as [t [n|] a x e]).
    assert (Xml.name (Spec.literally_named el) = Some (Spec.path_name el) ∧
            Editor.or_else (Xml.name (Spec.literally_named el)) "unnamed" =
            Editor.or_else (Xml.name el) "unnamed") as [_ ->]
      by (by destruct el as [t [n|] a x e]).
    destruct (is_element el); cbn [negb]; [|apply IH].
    by rewrite build_node_literally_named, IH.
  - intros st. destruct (fold_visit b s path els st ∅) as (Hc & Hs & _). done.
  - assert (Js.nullish_or_zero (Js.get ∅ "unnamed") = Js.JNum 0) as H0 by done.
    pose proof (labelled_unnamed path ∅ els 0 H0) as Heq. cbv zeta.
    split; [done|]. rewrite Heq.
    apply NoDup_fmap_2; [|apply NoDup_seq].
    intros i j Hij. apply app_inv_head in Hij.
    assert (Worker.segment "unnamed" (Js.JNum i) = Worker.segment "unnamed" (Js.JNum j))
      as Hseg by congruence.
    by eapply segment_inj.
  - assert (Js.falsy_or_zero (Js.get ∅ "unnamed") = Js.JNum 0) as H0 by done.
    pose proof (build_each_unnamed els p pp ∅ 0 H0) as Heq. cbv zeta.
    split; [done|]. rewrite Heq.
    apply NoDup_fmap_2; [|apply NoDup_seq].
    intros i j Hij. unfold Editor.indexed_path in Hij.
    destruct (Js.truthy_string p).
    + apply (inj (String.app p)), (inj (String.app ".")) in Hij.
      by eapply segment_inj.
    + by eapply segment_inj.
Qed.

End CounterFacts.

Lemma unnamed_elements_witness :
  let els := [Samples.leaf "unnamed"; Samples.txt "t"; Samples.anonymous [];
              Samples.leaf "b"; Samples.anonymous [Samples.txt "u"]] in
  ∃ node, Editor.build_each els "a[1]" "a" ∅ !! 3%nat = Some node ∧
          Editor.name node = "unnamed" ∧ Editor.path node = "a[1].unnamed[3]".
Proof.
  intros els.
  destruct (unnamed_elements 0 45 [] "a[1]" "a" els) as (_ & _ & _ & _ & _ & _ & H).
  destruct (H 3%nat (Samples.anonymous [Samples.txt "u"]) eq_refl eq_refl)
    as (node & Hl & Hn & Hp).
  exists node. split_and!; [exact Hl|exact Hn|exact Hp].
Defined.

(** ** Round trip through the editable tree *)

Section RoundTrip.
Import Xml.

Lemma Element_forall_ind (P : Element → Prop) :
  (∀ t n a x cd, P (mkElement t n a x cd None)) →
  (∀ t n a x cd l, Forall P l → P (mkElement t n a x cd (Some l))) →
  ∀ e, P e.
Proof.
  intros Hnone Hsome. fix IH 1. intros [t n a x cd [l|]]; [|apply Hnone].
  apply Hsome. induction l as [|c l IHl]; constructor; [apply IH|exact IHl].
Qed.

Lemma well_named_unfold (el : Element) :
  Spec.well_named el ↔
  name el ≠ Some "" ∧ Forall Spec.well_named (default [] (elements el)).
Proof.
  destruct el as [t n a x cd [l|]]; simpl.
  - apply and_iff_compat_l. induction l as [|c l IH]; [by split|].
    rewrite Forall_cons, IH. done.
  - split; [intros [? _]; by split|by intros [? _]].
Qed.

(** [buildEditableTree] as the source writes it: the node of an element
    holds the tree built from the element children alone. *)
Lemma build_each_filter (l : list Element) (path parentPath : string)
    (counts : Js.counters) :
  Editor.build_each (filter (fun n => is_element n = true) l) path parentPath counts =
  Editor.build_each l path parentPath counts.
Proof.
  revert counts. induction l as [|c l IH]; intros counts; [done|].
  rewrite filter_cons. case_decide as Hc; cbn [Editor.build_each].
  - rewrite Hc. cbn [negb]. by rewrite IH.
  - apply not_true_is_false in Hc. rewrite Hc. apply IH.
Qed.

Lemma buildEditableTree_unfold (el : Element) (currentPath fullParentPath : string) :
  Editor.build_node el currentPath fullParentPath =
  Editor.mkNode currentPath currentPath (Editor.or_else (name el) "unnamed")
    (Editor.textValue el) (default [] (attributes el)) true
    (Editor.buildEditableTree
       (Some (filter (fun n => is_element n = true) (default [] (elements el))))
       currentPath fullParentPath).
Proof.
  destruct el as [t n a x cd [l|]]; [|done]. cbn [Editor.build_node]. f_equal.
  cbn [Editor.buildEditableTree elements from_option id].
  rewrite build_each_filter. generalize (∅ : Js.counters).
  induction l as [|c l IH]; intros counts; [done|].
  cbn [Editor.build_each]. destruct (is_element c); cbn [negb]; [|apply IH].
  by rewrite IH.
Qed.

Lemma rebuilt_children_unfold (l : list Element) :
  (fix each (l : list Element) : list Element :=
     match l with
     | [] => []
     | c :: r => if negb (is_element c) then each r else Spec.rebuilt c :: each r
     end) l = Spec.rebuilt <$> filter (fun n => is_element n = true) l.
Proof.
  induction l as [|c l IH]; [done|]. rewrite filter_cons.
  case_decide as Hc.
  - rewrite Hc. cbn [negb]. by rewrite IH.
  - apply not_true_is_false in Hc. by rewrite Hc.
Qed.

(** Serializing the node built for an element gives [rebuilt], whatever
    path the builder assigned. *)
Lemma rebuild_node (el : Element) :
  ∀ cp fpp, Editor.buildXmlFromEditable_node (Editor.build_node el cp fpp) = Spec.rebuilt el.
Proof.
  induction el as [t n a x cd|t n a x cd l IH] using Element_forall_ind; intros cp fpp;
    [done|].
  cbn [Editor.build_node Editor.buildXmlFromEditable_node Spec.rebuilt
       Editor.name Editor.value Editor.attributes Editor.children
       Xml.name Xml.attributes Xml.elements].
  f_equal. f_equal. f_equal.
  generalize (∅ : Js.counters).
  induction IH as [|c l Hc _ IHl]; intros counts; [done|].
  destruct (is_element c); cbn [negb]; [|apply IHl].
  by rewrite Hc, IHl.
Qed.

Lemma rebuild_each (l : list Element) (path parentPath : string) (counts : Js.counters) :
  Editor.buildXmlFromEditable (Editor.build_each l path parentPath counts) =
  Spec.rebuilt <$> filter (fun n => is_element n = true) l.
Proof.
  unfold Editor.buildXmlFromEditable. revert counts.
  induction l as [|c l IH]; intros counts; [done|].
  cbn [Editor.build_each]. rewrite filter_cons. case_decide as Hc.
  - rewrite Hc. cbn [negb]. rewrite !fmap_cons. by rewrite rebuild_node, IH.
  - apply not_true_is_false in Hc. rewrite Hc. apply IH.
Qed.

Lemma join_empty_concat (l : list string) : Js.join "" l = foldr String.append "" l.
Proof.
  induction l as [|a [|b l] IH]; [done| |].
  - simpl. by rewrite append_empty_r.
  - change (a +:+ "" +:+ Js.join "" (b :: l) = a +:+ foldr String.append "" (b :: l)).
    by rewrite IH.
Qed.

Lemma textValue_extractText (el : Element) :
  Editor.textValue el = Worker.extractText (elements el).
Proof.
  unfold Editor.textValue. destruct (elements el) as [l|]; [|done].
  rewrite extractText_fields, join_empty_concat. unfold Spec.text_fields.
  f_equal. f_equal. apply list_fmap_ext. intros _ n _. by destruct (text n) as [[|??]|].
Qed.

Lemma text_fields_elements (l : list Element) :
  Forall (fun n => is_element n = true) l → Spec.text_fields l = "".
Proof.
  unfold Spec.text_fields. induction 1 as [|c l Hc _ IH]; [done|].
  rewrite filter_cons_False; [done|].
  unfold is_element, is_text_or_cdata in *. apply bool_decide_eq_true in Hc.
  rewrite Hc. done.
Qed.

Lemma text_fields_app (l1 l2 : list Element) :
  Spec.text_fields (l1 ++ l2) = Spec.text_fields l1 +:+ Spec.text_fields l2.
Proof.
  unfold Spec.text_fields. rewrite filter_app, fmap_app, foldr_app.
  generalize (foldr String.append "" ((fun n => default "" (text n)) <$>
                filter (fun n => is_text_or_cdata n = true) l2)).
  intros z. induction (_ <$> filter _ l1) as [|a l IH]; [done|].
  simpl. by rewrite IH, append_assoc.
Qed.

Lemma rebuilt_is_element (el : Element) : is_element (Spec.rebuilt el) = true.
Proof. by destruct el. Qed.

Lemma extractText_rebuilt (el : Element) :
  Worker.extractText (elements (Spec.rebuilt el)) = Worker.extractText (elements el).
Proof.
  rewrite <- (textValue_extractText el).
  destruct el as [t n a x cd e]. cbn [Spec.rebuilt elements].
  rewrite extractText_fields, text_fields_app.
  set (tv := Editor.textValue _).
  rewrite (text_fields_elements (match e with None => [] | Some l => _ end)).
  - rewrite append_empty_r. destruct (Js.truthy_string tv) eqn:Htv.
    + unfold Spec.text_fields. simpl. rewrite append_empty_r.
      subst tv. unfold Editor.textValue. apply trim_idem.
    + destruct tv; done.
  - destruct e as [l|]; [|constructor]. rewrite rebuilt_children_unfold.
    apply Forall_fmap, Forall_forall. intros c _. apply rebuilt_is_element.
Qed.

Lemma own_entries_rebuilt (pathString : string) (el : Element) :
  Spec.own_entries pathString (Spec.rebuilt el) = Spec.own_entries pathString el.
Proof.
  unfold Spec.own_entries. rewrite extractText_rebuilt. f_equal.
  destruct el as [t n [[|a0 a]|] x e]; done.
Qed.

Lemma path_name_rebuilt (el : Element) :
  name el ≠ Some "" → Spec.path_name (Spec.rebuilt el) = Spec.path_name el.
Proof. destruct el as [t [[|??]|] a x e]; done. Qed.

Lemma labelled_rebuilt path counts (l : list Element) :
  Forall (fun c => name c ≠ Some "") l →
  Spec.labelled path counts (Spec.rebuilt <$> filter (fun n => is_element n = true) l) =
  (fun lab => (Spec.rebuilt lab.1, lab.2)) <$> Spec.labelled path counts l.
Proof.
  intros Hl. revert counts. induction Hl as [|c l Hc _ IH]; intros counts; [done|].
  rewrite filter_cons. cbn [Spec.labelled]. case_decide as Hel.
  - rewrite Hel, fmap_cons. cbn [Spec.labelled negb].
    rewrite rebuilt_is_element. cbn [negb].
    pose proof (path_name_rebuilt c Hc) as Hn. unfold Spec.path_name in Hn.
    unfold Spec.next_index. rewrite Hn, fmap_cons. cbn [fst snd]. f_equal.
    apply IH.
  - apply not_true_is_false in Hel. rewrite Hel. apply IH.
Qed.

Lemma labelled_elem path counts (l : list Element) lab :
  lab ∈ Spec.labelled path counts l → lab.1 ∈ l.
Proof.
  revert counts. induction l as [|c l IH]; intros counts; cbn [Spec.labelled].
  - by intros ?%elem_of_nil.
  - destruct (is_element c); cbn [negb].
    + intros [->|H]%elem_of_cons; [left|right; eauto].
    + intros H. right. eauto.
Qed.

Lemma traversal_ext (f : Element → Element) (labs : list (Element * list string)) :
  (∀ lab, lab ∈ labs → Spec.own_of (f lab.1, lab.2) = Spec.own_of lab ∧
                        Spec.below_of (f lab.1, lab.2) = Spec.below_of lab) →
  Spec.traversal ((fun lab => (f lab.1, lab.2)) <$> labs) = Spec.traversal labs.
Proof.
  intros H. unfold Spec.traversal. rewrite <- fmap_reverse.
  assert (∀ (g : Element * list string → list Spec.entry) l,
            (∀ lab, lab ∈ l → g (f lab.1, lab.2) = g lab) →
            flat_map g ((fun lab => (f lab.1, lab.2)) <$> l) = flat_map g l) as Hfm.
  { intros g l Hg. induction l as [|x l IH]; [done|].
    rewrite fmap_cons. cbn [flat_map]. rewrite Hg by left.
    f_equal. apply IH. intros lab Hlab. apply Hg. by right. }
  rewrite !Hfm; [done| |].
  - intros lab Hlab. apply H. by apply elem_of_reverse.
  - intros lab Hlab. by apply H.
Qed.

Lemma labelled_text_head path counts (tv : string) (l : list Element) :
  Spec.labelled path counts
    ((if Js.truthy_string tv
      then [mkElement type_text None None (Some tv) None None] else []) ++ l) =
  Spec.labelled path counts l.
Proof. by destruct (Js.truthy_string tv). Qed.

Lemma below_rebuilt (el : Element) :
  Spec.well_named el → ∀ p, Spec.below (Spec.rebuilt el) p = Spec.below el p.
Proof.
  induction el as [t n a x cd|t n a x cd l IH] using Element_forall_ind; intros Hwf p.
  - rewrite !below_unfold. cbn [Spec.rebuilt elements from_option id].
    by rewrite labelled_text_head.
  - apply well_named_unfold in Hwf as [_ Hl]. cbn [elements from_option id] in Hl.
    rewrite !below_unfold. cbn [Spec.rebuilt elements from_option id].
    rewrite labelled_text_head, rebuilt_children_unfold.
    rewrite labelled_rebuilt.
    + apply traversal_ext. intros lab Hlab. apply labelled_elem in Hlab.
      split; [apply own_entries_rebuilt|].
      rewrite Forall_forall in IH, Hl. unfold Spec.below_of. simpl. auto.
    + eapply Forall_impl; [exact Hl|]. intros c Hc.
      by apply well_named_unfold in Hc as [? _].
Qed.

(** C5. For a document whose names are as a parser produces them, building
    the editable tree, serializing it back to an element structure and
    flattening that structure returns the very mapping that flattening the
    document returns: the same keys with the same values (and in the same
    order). *)
Theorem round_trip (b s : Z) (rootElements : option (list Element)) :
  Forall Spec.well_named (default [] rootElements) →
  is_Some (Worker.flatten b s rootElements) ∧
  Worker.collector <$>
    Worker.flatten b s
      (Some (Editor.buildXmlFromEditable (Editor.buildEditableTree rootElements "" ""))) =
  Worker.collector <$> Worker.flatten b s rootElements.
Proof.
  intros Hwf.
  destruct (flatten_total b s rootElements) as [st Hst].
  destruct (flatten_total b s
              (Some (Editor.buildXmlFromEditable
                       (Editor.buildEditableTree rootElements "" "")))) as [st' Hst'].
  rewrite Hst, Hst'. split; [done|]. simpl. f_equal.
  rewrite (flatten_collector _ _ _ _ Hst), (flatten_collector _ _ _ _ Hst').
  f_equal. cbn [default from_option id].
  destruct rootElements as [l|]; [|done]. cbn [Editor.buildEditableTree default] in *.
  rewrite rebuild_each. change (from_option id [] (Some ?x)) with x in *.
  rewrite labelled_rebuilt.
  - apply traversal_ext. intros lab Hlab. apply labelled_elem in Hlab.
    split; [apply own_entries_rebuilt|].
    rewrite Forall_forall in Hwf. unfold Spec.below_of. simpl.
    by apply below_rebuilt, Hwf.
  - eapply Forall_impl; [exact Hwf|]. intros c Hc.
    by apply well_named_unfold in Hc as [? _].
Qed.

End RoundTrip.

Lemma round_trip_witness :
  Forall Spec.well_named (default [] Samples.mixed) ∧
  Worker.collector <$>
    Worker.flatten 0 45
      (Some (Editor.buildXmlFromEditable
               (Editor.buildEditableTree Samples.mixed "" ""))) =
  Worker.collector <$> Worker.flatten 0 45 Samples.mixed.
Proof.
  assert (Forall Spec.well_named (default [] Samples.mixed)) as Hwf.
  { repeat constructor; simpl; done. }
  split; [exact Hwf|]. apply (round_trip 0 45 Samples.mixed Hwf).
Defined.

(** ** Uniqueness of keys *)

(** C2. Uniqueness of keys fails on siblings named [__proto__]: reading that
    key from the fresh counter object yields the prototype, the sum is the
    string "[object Object]1", and the assignment is ignored, so both
    siblings receive the same path.  Their text entries share one key and
    the second overwrites the first: the mapping holds one entry for two
    elements with text. *)
Theorem proto_siblings_share_a_key :
  (Spec.labelled ["r[1]"] ∅
     [Samples.elem "__proto__" None [Samples.txt "x"];
      Samples.elem "__proto__" None [Samples.txt "y"]]).*2 =
    [["r[1]"; "__proto__[[object Object]1]"];
     ["r[1]"; "__proto__[[object Object]1]"]] ∧
  Worker.collector <$> Worker.flatten 0 45 Samples.proto_siblings =
    Some [("r[1].__proto__[[object Object]1]/#text", "y")].
Proof. by vm_compute. Qed.

(** ** The message handler: progress and failure *)

Section HandlerFacts.
Import Xml Worker.

Variable xml2js : string → parse_result.
Variable localeCompare : string → string → Z.

Lemma scan_percent_range b s processed stackLength :
  Spec.in_range (scan_percent b s processed stackLength).
Proof. unfold Spec.in_range, scan_percent. lia. Qed.

Lemma visit_posted b s path st counts el :
  ∃ scans, posted (visit b s path (st, counts) el).1 = posted st ++ scans ∧
           Forall (fun e => Spec.in_range e.1) scans.
Proof.
  unfold visit. destruct (negb (is_element el)).
  - exists []. by rewrite app_nil_r.
  - case_decide; simpl.
    + eexists [_]. split; [done|]. repeat constructor; apply scan_percent_range.
    + exists []. by rewrite app_nil_r.
Qed.

Lemma fold_visit_posted b s path els st counts :
  ∃ scans, posted (fold_left (visit b s path) els (st, counts)).1 = posted st ++ scans ∧
           Forall (fun e => Spec.in_range e.1) scans.
Proof.
  revert st counts. induction els as [|el els IH]; intros st counts.
  - exists []. by rewrite app_nil_r.
  - cbn [fold_left].
    destruct (visit_posted b s path st counts el) as (s1 & H1 & F1).
    destruct (visit b s path (st, counts) el) as [st1 counts1]. simpl in H1.
    destruct (IH st1 counts1) as (s2 & H2 & F2).
    exists (s1 ++ s2). rewrite H2, H1, app_assoc. split; [done|].
    by apply Forall_app.
Qed.

Lemma loop_posted b s fuel st st' :
  loop b s fuel st = Some st' →
  ∃ scans, posted st' = posted st ++ scans ∧
           Forall (fun e => Spec.in_range e.1) scans.
Proof.
  revert st. induction fuel as [|fuel IH]; intros st;
    destruct st as [c [|it rest] pe le po]; simpl; intros H; simplify_eq;
    try (exists []; by rewrite app_nil_r).
  apply IH in H as (s2 & H2 & F2). unfold batch in H2.
  destruct (item_elements it) as [els|]; simpl in H2; [|eauto].
  destruct (fold_visit_posted b s (item_path it) els (mkState c rest pe le po) ∅)
    as (s1 & H1 & F1).
  exists (s1 ++ s2). rewrite H2, H1, app_assoc. split; [done|].
  by apply Forall_app.
Qed.

(** A flattening posts its base first and its base plus span last, with
    clamped estimates in between. *)
Lemma flatten_posted b s doc st :
  flatten b s doc = Some st →
  ∃ scans, posted st = (b, "Parsing XML…") :: scans ++ [((b + s)%Z, "Flatten complete")] ∧
           Forall (fun e => Spec.in_range e.1) scans.
Proof.
  unfold flatten. destruct (loop _ _ _ _) as [st'|] eqn:Hl; [|done].
  intros [= <-]. apply loop_posted in Hl as (scans & -> & F). simpl. eauto.
Qed.

(** *** The estimates of a side stay within the side's portion *)

Lemma round_estimate_near (base span p d : Z) :
  (0 < d)%Z →
  (Z.abs (2 * d * Js.round_estimate base span p d - 2 * (base * d + p * span)) ≤ d)%Z.
Proof.
  intros Hd.
  assert (Z.abs (2 * d * Js.exact_estimate base span p d - 2 * (base * d + p * span)) ≤ d)%Z
    as Hexact.
  { unfold Js.exact_estimate.
    pose proof (Z.div_mod (2 * (base * d + p * span) + d) (2 * d) ltac:(lia)) as Hq.
    pose proof (Z.mod_pos_bound (2 * (base * d + p * span) + d) (2 * d) ltac:(lia)) as Hr.
    lia. }
  unfold Js.round_estimate. destruct (Js.double_estimate base span p d) as [r|]; [|done].
  by case_decide.
Qed.

Lemma round_estimate_within (base span p d : Z) :
  (0 < d)%Z → (0 ≤ p ≤ d)%Z → (0 ≤ span)%Z →
  Spec.within base span (Js.round_estimate base span p d).
Proof.
  intros Hd Hp Hs. pose proof (round_estimate_near base span p d Hd) as Hn.
  unfold Spec.within. nia.
Qed.

Lemma scan_percent_within b s processed stackLength :
  (0 ≤ b)%Z → (0 ≤ s)%Z → (b + s ≤ 99)%Z →
  Spec.within b s (scan_percent b s processed stackLength).
Proof.
  intros Hb Hs Hbs. unfold scan_percent.
  pose proof (round_estimate_within b s (Z.of_nat processed)
                (Z.of_nat processed + Z.of_nat stackLength + 1)
                ltac:(lia) ltac:(lia) Hs) as Hw.
  unfold Spec.within in *. lia.
Qed.

Lemma visit_posted_within b s path st counts el :
  (0 ≤ b)%Z → (0 ≤ s)%Z → (b + s ≤ 99)%Z →
  ∃ scans, posted (visit b s path (st, counts) el).1 = posted st ++ scans ∧
           Forall (fun e => Spec.within b s e.1) scans.
Proof.
  intros Hb Hs Hbs. unfold visit. destruct (negb (is_element el)).
  - exists []. by rewrite app_nil_r.
  - case_decide; simpl.
    + eexists [_]. split; [done|].
      constructor; [by apply scan_percent_within|constructor].
    + exists []. by rewrite app_nil_r.
Qed.

Lemma fold_visit_posted_within b s path els st counts :
  (0 ≤ b)%Z → (0 ≤ s)%Z → (b + s ≤ 99)%Z →
  ∃ scans, posted (fold_left (visit b s path) els (st, counts)).1 = posted st ++ scans ∧
           Forall (fun e => Spec.within b s e.1) scans.
Proof.
  intros Hb Hs Hbs. revert st counts. induction els as [|el els IH]; intros st counts.
  - exists []. by rewrite app_nil_r.
  - cbn [fold_left].
    destruct (visit_posted_within b s path st counts el Hb Hs Hbs) as (s1 & H1 & F1).
    destruct (visit b s path (st, counts) el) as [st1 counts1]. simpl in H1.
    destruct (IH st1 counts1) as (s2 & H2 & F2).
    exists (s1 ++ s2). rewrite H2, H1, app_assoc. split; [done|].
    by apply Forall_app.
Qed.

Lemma loop_posted_within b s fuel st st' :
  (0 ≤ b)%Z → (0 ≤ s)%Z → (b + s ≤ 99)%Z →
  loop b s fuel st = Some st' →
  ∃ scans, posted st' = posted st ++ scans ∧
           Forall (fun e => Spec.within b s e.1) scans.
Proof.
  intros Hb Hs Hbs. revert st. induction fuel as [|fuel IH]; intros st;
    destruct st as [c [|it rest] pe le po]; simpl; intros H; simplify_eq;
    try (exists []; by rewrite app_nil_r).
  apply IH in H as (s2 & H2 & F2). unfold batch in H2.
  destruct (item_elements it) as [els|]; simpl in H2; [|eauto].
  destruct (fold_visit_posted_within b s (item_path it) els (mkState c rest pe le po) ∅
              Hb Hs Hbs) as (s1 & H1 & F1).
  exists (s1 ++ s2). rewrite H2, H1, app_assoc. split; [done|].
  by apply Forall_app.
Qed.

Lemma flatten_posted_within b s doc st :
  (0 ≤ b)%Z → (0 ≤ s)%Z → (b + s ≤ 99)%Z →
  flatten b s doc = Some st →
  ∃ scans, posted st = (b, "Parsing XML…") :: scans ++ [((b + s)%Z, "Flatten complete")] ∧
           Forall (fun e => Spec.within b s e.1) scans.
Proof.
  intros Hb Hs Hbs. unfold flatten. destruct (loop _ _ _ _) as [st'|] eqn:Hl; [|done].
  intros [= <-]. apply loop_posted_within in Hl as (scans & -> & F); [|done..].
  simpl. eauto.
Qed.

Lemma mapXmlToFlat_side xml b s :
  ∃ res, mapXmlToFlat xml2js xml b s = Some res ∧
         Spec.side_result (xml2js xml) b s res.
Proof.
  unfold mapXmlToFlat, Spec.side_result.
  destruct (xml2js xml) as [doc|m]; [|eauto].
  destruct (flatten_total b s doc) as [st Hst]. rewrite Hst. simpl. eauto.
Qed.

Lemma percents_app l1 l2 : Spec.percents (l1 ++ l2) = Spec.percents l1 ++ Spec.percents l2.
Proof. apply omap_app. Qed.

Lemma percents_post ph (l : list (Z * string)) : Spec.percents (post ph <$> l) = l.*1.
Proof.
  induction l as [|e l IH]; [done|].
  rewrite !fmap_cons. cbn [Spec.percents omap list_omap post].
  f_equal. exact IH.
Qed.

Lemma side_result_error r b s res :
  Spec.side_result r b s res → result_error res.1 = Spec.thrown r.
Proof. destruct r; simpl; [intros (st & _ & ->)|intros ->]; done. Qed.

Lemma side_result_percents r b s res :
  (0 ≤ b)%Z → (0 ≤ s)%Z → (b + s ≤ 99)%Z →
  Spec.side_result r b s res →
  ∃ scans, Forall (Spec.within b s) scans ∧
           res.2.*1 = b :: match r with
                           | Parsed _ => scans ++ [(b + s)%Z]
                           | Thrown _ => []
                           end.
Proof.
  intros Hb Hs Hbs. destruct r as [doc|m]; simpl.
  - intros (st & Hst & ->).
    apply flatten_posted_within in Hst as (scans & Hp & F); [|done..].
    exists scans.*1. split; [by apply Forall_fmap|].
    simpl. rewrite Hp. rewrite fmap_cons, fmap_app. done.
  - intros ->. exists []. done.
Qed.

(** C4. When the parser throws on a side (and every error it throws carries
    a message), that side's call returns the empty map with the parser's
    message, having posted only the progress that preceded the parse; the
    other side's call returns what it returns on its own, a full flattening
    if its text parses; the handler then posts one terminal error message
    carrying the error of each side that failed, after the two sides'
    progress and with no message of the diff phase and no result. *)
Theorem parse_failure (leftXml rightXml : string) :
  (∀ xml m, xml2js xml = Thrown m → m ≠ "") →
  is_Some (Spec.thrown (xml2js leftXml)) ∨ is_Some (Spec.thrown (xml2js rightXml)) →
  ∃ l r,
    mapXmlToFlat xml2js leftXml 0 45 = Some l ∧
    Spec.side_result (xml2js leftXml) 0 45 l ∧
    mapXmlToFlat xml2js rightXml 45 45 = Some r ∧
    Spec.side_result (xml2js rightXml) 45 45 r ∧
    onmessage xml2js localeCompare leftXml rightXml =
      Some ((post phase_left <$> l.2) ++ (post phase_right <$> r.2) ++
            [WorkerError (Spec.thrown (xml2js leftXml))
                         (Spec.thrown (xml2js rightXml))]).
Proof.
  intros Hmsg Hfail.
  destruct (mapXmlToFlat_side leftXml 0 45) as (l & Hl & Sl).
  destruct (mapXmlToFlat_side rightXml 45 45) as (r & Hr & Sr).
  exists l, r. split_and!; try done.
  unfold onmessage. rewrite Hl, Hr. simpl.
  rewrite (side_result_error _ _ _ _ Sl), (side_result_error _ _ _ _ Sr).
  assert (truthy (Spec.thrown (xml2js leftXml)) || truthy (Spec.thrown (xml2js rightXml))
          = true) as ->.
  { apply orb_true_iff.
    destruct Hfail as [[m Hm]|[m Hm]]; [left|right];
      rewrite Hm; simpl; apply truthy_string_spec;
      destruct (xml2js _) eqn:Hx; simplify_eq/=; eauto. }
  by rewrite <- app_assoc.
Qed.

(** C6 (amended). Every request ends in a terminal message, and the
    percents of the progress messages before it keep to the portions of
    the scale allotted to the phases.  The left side posts 0, then
    estimates between 0 and 45, then 45 if its text parses; the right side
    posts 45, then estimates between 45 and 90, then 90 if its text parses;
    when neither side reports an error the handler then posts 92 and 99.
    So no percent of a phase exceeds a percent of a later phase, each side
    opens with the lower end of its portion and, if its text parses, closes
    with the upper end; only the estimates of one side need not be ordered
    among themselves.  Every percent lies between 0 and 99, and no progress
    message carries 100. *)
Theorem progress_percents (leftXml rightXml : string) :
  ∃ msgs sl sr,
    onmessage xml2js localeCompare leftXml rightXml = Some msgs ∧
    Forall (Spec.within 0 45) sl ∧ Forall (Spec.within 45 45) sr ∧
    Spec.percents msgs =
      (0 :: match xml2js leftXml with Parsed _ => sl ++ [45] | Thrown _ => [] end)%Z ++
      (45 :: match xml2js rightXml with Parsed _ => sr ++ [90] | Thrown _ => [] end)%Z ++
      (if truthy (Spec.thrown (xml2js leftXml)) || truthy (Spec.thrown (xml2js rightXml))
       then [] else [92; 99]%Z) ∧
    Forall Spec.in_range sl ∧ Forall Spec.in_range sr ∧
    Forall Spec.in_range (Spec.percents msgs) ∧
    100%Z ∉ Spec.percents msgs.
Proof.
  destruct (mapXmlToFlat_side leftXml 0 45) as (l & Hl & Sl).
  destruct (mapXmlToFlat_side rightXml 45 45) as (r & Hr & Sr).
  destruct (side_result_percents _ 0 45 _ ltac:(lia) ltac:(lia) ltac:(lia) Sl)
    as (sl & Fl & Pl).
  destruct (side_result_percents _ 45 45 _ ltac:(lia) ltac:(lia) ltac:(lia) Sr)
    as (sr & Fr & Pr).
  assert (Forall Spec.in_range sl) as Fl'.
  { eapply Forall_impl; [exact Fl|]. unfold Spec.within, Spec.in_range. intros; lia. }
  assert (Forall Spec.in_range sr) as Fr'.
  { eapply Forall_impl; [exact Fr|]. unfold Spec.within, Spec.in_range. intros; lia. }
  pose proof (side_result_error _ _ _ _ Sl) as El.
  pose proof (side_result_error _ _ _ _ Sr) as Er.
  assert (∃ msgs, onmessage xml2js localeCompare leftXml rightXml = Some msgs ∧
            Spec.percents msgs =
              l.2.*1 ++ r.2.*1 ++
              (if truthy (Spec.thrown (xml2js leftXml)) ||
                  truthy (Spec.thrown (xml2js rightXml))
               then [] else [92; 99]%Z)) as (msgs & Hm & Hp).
  { unfold onmessage. rewrite Hl, Hr. simpl. rewrite El, Er.
    destruct (truthy _ || truthy _).
    - eexists. split; [done|].
      rewrite !percents_app, !percents_post. simpl. by rewrite <- app_assoc.
    - destruct (diffMaps _ _ _) as [ds stats]. eexists. split; [done|].
      rewrite !percents_app, !percents_post. simpl. by rewrite <- app_assoc. }
  assert (Forall Spec.in_range (Spec.percents msgs)) as Hall.
  { rewrite Hp, Pl, Pr.
    destruct (xml2js leftXml), (xml2js rightXml), (truthy _ || truthy _);
      repeat (rewrite Forall_app || rewrite Forall_cons);
      split_and!; try done; try apply Forall_nil_2; unfold Spec.in_range; lia. }
  exists msgs, sl, sr. split_and!; try done.
  - by rewrite Hp, Pl, Pr.
  - intros H100. rewrite Forall_forall in Hall. apply Hall in H100.
    unfold Spec.in_range in H100. lia.
Qed.

End HandlerFacts.

Lemma parse_failure_witness :
  (∀ xml m, Samples.toy_parser xml = Xml.Thrown m → m ≠ "") ∧
  is_Some (Spec.thrown (Samples.toy_parser "<a>")) ∧
  Worker.onmessage Samples.toy_parser Spec.ordinal_compare "<a>1</a>" "<a>" =
    Some [Worker.WorkerProgress Worker.phase_left 0 "Parsing XML…";
          Worker.WorkerProgress Worker.phase_left 45 "Flatten complete";
          Worker.WorkerProgress Worker.phase_right 45 "Parsing XML…";
          Worker.WorkerError None (Some "Unclosed root tag")].
Proof.
  assert (∀ xml m, Samples.toy_parser xml = Xml.Thrown m → m ≠ "") as Hmsg.
  { intros xml m. unfold Samples.toy_parser. case_decide; [done|]. by intros [= <-]. }
  assert (is_Some (Spec.thrown (Samples.toy_parser "<a>"))) as Hfail by (by eexists).
  split_and!; [done|done|].
  destruct (parse_failure Samples.toy_parser Spec.ordinal_compare "<a>1</a>" "<a>"
              Hmsg (or_intror Hfail)) as (l & r & Hl & _ & Hr & _ & ->).
  vm_compute in Hl, Hr. by simplify_eq.
Defined.

(** C6, as stated, fails: on a wide document the estimates of a side go
    down, and the last percent posted is 99. *)
Lemma progress_not_monotone :
  Spec.percents <$>
    Worker.onmessage (fun _ => Xml.Parsed Samples.wide) Spec.ordinal_compare "" "" =
    Some [0; 45; 30; 45; 45; 45; 90; 75; 90; 90; 92; 99]%Z ∧
  ¬ Sorted Z.le [0; 45; 30; 45; 45; 45; 90; 75; 90; 90; 92; 99]%Z ∧
  100%Z ∉ [0; 45; 30; 45; 45; 45; 90; 75; 90; 90; 92; 99]%Z.
Proof.
  split_and!.
  - by vm_compute.
  - intros H. apply Sorted_inv in H as [H _]. apply Sorted_inv in H as [_ H].
    apply HdRel_inv in H. lia.
  - intros H. repeat (apply elem_of_cons in H as [H|H]; [lia|]).
    by apply elem_of_nil in H.
Qed.

(** ** The tree path indexer *)

Section IndexerFacts.
Import Editor.

Lemma EditableNode_forall_ind (P : EditableNode → Prop) :
  (∀ i p n v a t l, Forall P l → P (mkNode i p n v a t l)) → ∀ node, P node.
Proof.
  intros H. fix IH 1. intros [i p n v a t l]. apply H.
  induction l as [|c l IHl]; constructor; [apply IH|exact IHl].
Qed.

Lemma strip_unfold (node : EditableNode) :
  Spec.strip node =
  mkNode "" "" (name node) (value node) (attributes node) (isText node)
    (Spec.strip <$> children node).
Proof.
  by destruct node.
Qed.

Lemma regenerate_node_unfold (node : EditableNode) (currentPath : string) :
  regenerate_node node currentPath =
  mkNode currentPath currentPath (name node) (value node) (attributes node)
    (isText node) (regenerateIds (children node) currentPath ∅).
Proof.
  destruct node as [i p n v a t l]. simpl. f_equal.
  generalize (∅ : Js.counters). induction l as [|c l IH]; intros counts; [done|].
  simpl. by rewrite IH.
Qed.

Lemma deepCloneNode_id (node : EditableNode) : deepCloneNode node = node.
Proof.
  induction node as [i p n v a t l IH] using EditableNode_forall_ind.
  simpl. f_equal. induction IH as [|c l Hc _ IHl]; [done|]. by rewrite Hc, IHl.
Qed.

(** Reindexing reads the names and the shape of a tree and nothing else. *)
Lemma regenerate_strip_node (node : EditableNode) :
  ∀ p, regenerate_node (Spec.strip node) p = regenerate_node node p.
Proof.
  induction node as [i q n v a t l IH] using EditableNode_forall_ind. intros p.
  rewrite !regenerate_node_unfold, strip_unfold. simpl. f_equal.
  generalize (∅ : Js.counters).
  induction IH as [|c l Hc _ IHl]; intros counts; [done|].
  rewrite fmap_cons. cbn [regenerateIds].
  assert (name (Spec.strip c) = name c) as -> by (by destruct c).
  by rewrite Hc, IHl.
Qed.

Lemma regenerate_strip (l : list EditableNode) (p : string) (counts : Js.counters) :
  regenerateIds (Spec.strip <$> l) p counts = regenerateIds l p counts.
Proof.
  revert counts. induction l as [|c l IH]; intros counts; [done|].
  rewrite fmap_cons. cbn [regenerateIds].
  assert (name (Spec.strip c) = name c) as -> by (by destruct c).
  by rewrite regenerate_strip_node, IH.
Qed.

Lemma strip_regenerate_node (node : EditableNode) :
  ∀ p, Spec.strip (regenerate_node node p) = Spec.strip node.
Proof.
  induction node as [i q n v a t l IH] using EditableNode_forall_ind. intros p.
  rewrite regenerate_node_unfold, !strip_unfold. simpl. f_equal.
  generalize (∅ : Js.counters).
  induction IH as [|c l Hc _ IHl]; intros counts; [done|].
  cbn [regenerateIds]. rewrite !fmap_cons. by rewrite Hc, IHl.
Qed.

Lemma strip_regenerate (l : list EditableNode) (p : string) (counts : Js.counters) :
  Spec.strip <$> regenerateIds l p counts = Spec.strip <$> l.
Proof.
  revert counts. induction l as [|c l IH]; intros counts; [done|].
  cbn [regenerateIds]. rewrite !fmap_cons. by rewrite strip_regenerate_node, IH.
Qed.

(** C8. Reindexing is idempotent: reindexing a reindexed list of trees under
    the same parent path gives the reindexed list again.  The children of
    every node are reindexed by a call of their own that counts occurrences
    from a fresh counter object. *)
Theorem regenerateIds_idempotent (T : list EditableNode) (parentPath : string) :
  regenerateIds (regenerateIds T parentPath ∅) parentPath ∅ =
    regenerateIds T parentPath ∅ ∧
  ∀ node currentPath,
    children (regenerate_node node currentPath) =
      regenerateIds (children node) currentPath ∅.
Proof.
  split.
  - rewrite <- (regenerate_strip (regenerateIds T parentPath ∅)).
    by rewrite strip_regenerate, regenerate_strip.
  - intros node currentPath. by rewrite regenerate_node_unfold.
Qed.


(** *** Duplicating a node *)

Lemma findNodeById_node_unfold (node : EditableNode) (target : string) :
  findNodeById_node node target =
  if decide (id node = target) then Some node
  else findNodeById (children node) target.
Proof.
  destruct node as [i p n v a t l]. simpl. case_decide; [done|].
  induction l as [|c l IH]; [done|]. simpl. by rewrite IH.
Qed.

Lemma findParentNodes_node_unfold (node : EditableNode) (target : string) parentList :
  findParentNodes_node node target parentList =
  if decide (id node = target) then Some parentList
  else findParentNodes (children node) target (parentList ++ [node]).
Proof.
  destruct node as [i p n v a t l]. simpl. case_decide; [done|].
  set (me := mkNode i p n v a t l). clearbody me.
  induction l as [|c l IH]; [done|]. simpl. by rewrite IH.
Qed.

Lemma update_node_unfold (sourceNode : EditableNode) (parentId : string)
    (node : EditableNode) :
  update_node sourceNode parentId node =
  if decide (id node = parentId) then
    with_children node
      (regenerateIds
         (children node ++
          [with_name (deepCloneNode sourceNode)
             (duplicate_name (name sourceNode) (children node))])
         (path node) ∅)
  else with_children node (update sourceNode parentId (children node)).
Proof.
  destruct node as [i p n v a t l]. simpl. case_decide; [done|].
  unfold with_children, update. simpl. reflexivity.
Qed.

Lemma startsWith_app (a x y : string) :
  Js.startsWith (a +:+ x) (a +:+ y) = Js.startsWith x y.
Proof.
  induction a as [|c a IH]; [done|].
  change (Js.startsWith (String c (a +:+ x)) (String c (a +:+ y)) = Js.startsWith x y).
  simpl. by rewrite decide_True.
Qed.

Lemma startsWith_refl (s : string) : Js.startsWith s s = true.
Proof. induction s as [|c s IH]; [done|]. simpl. by rewrite decide_True. Qed.

Lemma startsWith_prefix (t a b : string) :
  Js.startsWith t (a +:+ b) = true → Js.startsWith t a = true.
Proof.
  revert t. induction a as [|c a IH]; intros t; [done|].
  change (Js.startsWith t (String c (a +:+ b)) = true → Js.startsWith t (String c a) = true).
  destruct t as [|d t]; simpl; [done|]. case_decide; [apply IH|done].
Qed.

Lemma truthy_app_r (a b : string) :
  Js.truthy_string b = true → Js.truthy_string (a +:+ b) = true.
Proof. destruct a; [done|]. by destruct b. Qed.

Lemma indexed_path_truthy (p nm : string) (c : Js.value) :
  Js.truthy_string (indexed_path p nm c) = true.
Proof.
  unfold indexed_path. destruct (Js.truthy_string p);
    repeat (apply truthy_app_r); done.
Qed.

Lemma indexed_path_child (p nm : string) (c : Js.value) :
  Js.truthy_string p = true →
  indexed_path p nm c = p +:+ "." +:+ nm +:+ "[" +:+ Js.to_string c +:+ "]".
Proof. unfold indexed_path. by intros ->. Qed.

Lemma next_count_fresh (nm : string) :
  Js.inherited nm = None → next_count ∅ nm = Js.JNum 1.
Proof.
  unfold next_count, Js.get, Js.counters. rewrite lookup_empty. by intros ->.
Qed.

Lemma next_count_after (c : Js.counters) (nm : string) (i : nat) :
  Js.get c nm = Js.JNum (S i) → next_count c nm = Js.JNum (S (S i)).
Proof. unfold next_count. intros ->. simpl. f_equal. lia. Qed.

Lemma inherited_not_proto (nm : string) : Js.inherited nm = None → nm ≠ "__proto__".
Proof. by intros H ->. Qed.

Lemma last_char_app (a : string) (c : ascii) : Spec.last_char (a +:+ String c "") = Some c.
Proof.
  induction a as [|x a IH]; [done|].
  change (Spec.last_char (String x (a +:+ String c "")) = Some c).
  simpl. rewrite IH. by destruct a.
Qed.

(** No member of the prototype has a name that ends in the digit 1. *)
Lemma inherited_app_1 (nm : string) : Js.inherited (nm +:+ "1") = None.
Proof.
  unfold Js.inherited, Js.Object_prototype; simpl.
  repeat (destruct (decide _) as [H|_];
          [apply (f_equal Spec.last_char) in H; rewrite last_char_app in H;
           vm_compute in H; discriminate|]).
  done.
Qed.

Lemma app_1_ne (nm : string) : nm +:+ "1" ≠ nm.
Proof.
  intros H. apply (f_equal String.length) in H. revert H.
  induction nm as [|c nm IH]; [done|].
  change (S (String.length (nm +:+ "1")) = S (String.length nm) → False). lia.
Qed.

Lemma regenerate_three (P nm : string) (k1 k2 k3 : EditableNode) (rest : list EditableNode) :
  Js.inherited nm = None → name k1 = nm → name k2 = nm → name k3 = nm →
  regenerateIds (k1 :: k2 :: k3 :: rest) P ∅ =
  regenerate_node k1 (indexed_path P nm (Js.JNum 1))
  :: regenerate_node k2 (indexed_path P nm (Js.JNum 2))
  :: regenerate_node k3 (indexed_path P nm (Js.JNum 3))
  :: regenerateIds rest P
       (Js.set (Js.set (Js.set ∅ nm (Js.JNum 1)) nm (Js.JNum 2)) nm (Js.JNum 3)).
Proof.
  intros Hn Hk1 Hk2 Hk3. pose proof (inherited_not_proto _ Hn) as Hp.
  cbn [regenerateIds]. rewrite Hk1, Hk2, Hk3.
  rewrite (next_count_fresh _ Hn).
  rewrite (next_count_after _ _ 0) by (by rewrite get_set_eq).
  rewrite (next_count_after _ _ 1) by (by rewrite get_set_eq).
  done.
Qed.

(** A reindexed subtree holds no identifier outside its own path. *)
Lemma find_outside (node : EditableNode) :
  ∀ cp target, Js.startsWith target cp = false →
    findNodeById_node (regenerate_node node cp) target = None ∧
    ∀ pl, findParentNodes_node (regenerate_node node cp) target pl = None.
Proof.
  induction node as [i q n v a t l IH] using EditableNode_forall_ind.
  intros cp target Hout.
  assert (cp ≠ target) as Hne by (intros ->; by rewrite startsWith_refl in Hout).
  assert (Js.truthy_string cp = true) as Hcp by (destruct cp; [by destruct target|done]).
  assert (∀ counts,
            findNodeById (regenerateIds l cp counts) target = None ∧
            ∀ pl, findParentNodes (regenerateIds l cp counts) target pl = None) as Hkids.
  { induction IH as [|c l Hc _ IHl]; intros counts; [done|].
    cbn [regenerateIds findNodeById findParentNodes].
    destruct (Hc (indexed_path cp (name c) (next_count counts (name c))) target)
      as [-> Hp].
    { rewrite indexed_path_child by done.
      destruct (Js.startsWith target (cp +:+ _)) eqn:Hs; [|done].
      apply startsWith_prefix in Hs. congruence. }
    destruct (IHl (Js.set counts (name c) (next_count counts (name c)))) as [-> Hp'].
    split; [done|]. intros pl. by rewrite Hp, Hp'. }
  rewrite regenerate_node_unfold. split; [|intros pl].
  - rewrite findNodeById_node_unfold. cbn [id children].
    rewrite decide_False by done. apply Hkids.
  - rewrite findParentNodes_node_unfold. cbn [id children].
    rewrite decide_False by done. apply Hkids.
Qed.

Lemma duplicate_name_same (nm : string) (k1 k2 k3 : EditableNode) :
  Js.match_index_suffix nm = None → name k1 = nm → name k2 = nm → name k3 = nm →
  duplicate_name nm [k1; k2; k3] = nm +:+ "1".
Proof.
  intros Hs H1 H2 H3. unfold duplicate_name, baseName_of. rewrite Hs.
  rewrite !filter_cons, H1, H2, H3, startsWith_refl.
  rewrite !decide_True by done. rewrite filter_nil.
  cbn [fmap list_fmap]. rewrite H1, H2, H3. unfold suffix_number. rewrite Hs.
  done.
Qed.

Lemma strip_with_name (k : EditableNode) (nm : string) :
  Spec.strip (with_name k nm) = with_name (Spec.strip k) nm.
Proof. by destruct k. Qed.

(** The scenario of three same-named siblings on their own, for a name that
    does not end in a bracketed number and names that no object inherits:
    the copy of the second comes after the third, under the name with the
    digit 1 added; the three siblings keep the indices 1, 2, 3. *)
Lemma duplicate_second_of_three (r n : string) (root k1 k2 k3 : EditableNode) :
  Js.inherited r = None → Js.inherited n = None →
  Js.match_index_suffix n = None →
  name root = r → children root = [k1; k2; k3] →
  name k1 = n → name k2 = n → name k3 = n →
  let P := indexed_path "" r (Js.JNum 1) in
  ∃ result,
    duplicatePath (regenerateIds [root] "" ∅) (indexed_path P n (Js.JNum 2)) =
      SetTree [result] ∧
    path result = P ∧
    name <$> children result = [n; n; n; n +:+ "1"] ∧
    path <$> children result =
      [indexed_path P n (Js.JNum 1); indexed_path P n (Js.JNum 2);
       indexed_path P n (Js.JNum 3); indexed_path P (n +:+ "1") (Js.JNum 1)] ∧
    Spec.strip <$> children result =
      Spec.strip <$> [k1; k2; k3; with_name k2 (n +:+ "1")].
Proof.
  intros Hr Hn Hs Hroot Hkids H1 H2 H3 P.
  pose proof (inherited_not_proto _ Hn) as Hnp.
  assert (Js.truthy_string P = true) as HP by apply indexed_path_truthy.
  set (target := indexed_path P n (Js.JNum 2)).
  set (k1' := regenerate_node k1 (indexed_path P n (Js.JNum 1))).
  set (k2' := regenerate_node k2 target).
  set (k3' := regenerate_node k3 (indexed_path P n (Js.JNum 3))).
  set (root' := mkNode P P r (value root) (attributes root) (isText root)
                  [k1'; k2'; k3']).
  assert (regenerateIds [root] "" ∅ = [root']) as Htree.
  { cbn [regenerateIds]. rewrite Hroot, (next_count_fresh _ Hr).
    rewrite regenerate_node_unfold, Hroot, Hkids. fold P.
    by rewrite (regenerate_three P n k1 k2 k3 [] Hn H1 H2 H3). }
  assert (P ≠ target) as HPt.
  { unfold target. rewrite indexed_path_child by done. intros H.
    rewrite <- (append_empty_r P) in H at 1. by apply (inj (String.app P)) in H. }
  assert (Js.startsWith target (indexed_path P n (Js.JNum 1)) = false) as Hout.
  { unfold target. rewrite !indexed_path_child by done.
    by rewrite !startsWith_app. }
  assert (id k2' = target) as Hid2 by (unfold k2'; by rewrite regenerate_node_unfold).
  assert (name k2' = n) as Hname2 by (unfold k2'; by rewrite regenerate_node_unfold).
  destruct (find_outside k1 _ _ Hout) as [Hf1 Hp1]. fold k1' in Hf1, Hp1.
  assert (findNodeById [root'] target = Some k2') as Hfind.
  { cbn [findNodeById]. rewrite findNodeById_node_unfold. cbn [id children root'].
    rewrite decide_False by done. cbn [findNodeById]. rewrite Hf1.
    rewrite (findNodeById_node_unfold k2'), Hid2. by rewrite decide_True. }
  assert (findParentNodes [root'] target [] = Some [root']) as Hparents.
  { cbn [findParentNodes]. rewrite findParentNodes_node_unfold. cbn [id children root'].
    rewrite decide_False by done. cbn [findParentNodes]. rewrite Hp1.
    rewrite (findParentNodes_node_unfold k2'), Hid2. by rewrite decide_True. }
  set (copy := with_name k2' (n +:+ "1")).
  assert (update k2' P [root'] =
          [with_children root' (regenerateIds [k1'; k2'; k3'; copy] P ∅)]) as Hupd.
  { unfold update. rewrite fmap_cons, update_node_unfold. cbn [id path children root'].
    rewrite decide_True by done. rewrite deepCloneNode_id, Hname2.
    rewrite (duplicate_name_same n k1' k2' k3' Hs);
      [done|unfold k1'|done|unfold k3']; by rewrite regenerate_node_unfold. }
  assert (regenerateIds (regenerateIds [k1'; k2'; k3'; copy] P ∅) P ∅ =
          regenerateIds [k1; k2; k3; with_name k2 (n +:+ "1")] P ∅) as Hkids'.
  { rewrite <- (regenerate_strip (regenerateIds _ P ∅)), strip_regenerate.
    rewrite <- (regenerate_strip [k1; k2; k3; _]). f_equal.
    rewrite !fmap_cons. unfold copy, k1', k2', k3'.
    by rewrite !strip_with_name, !strip_regenerate_node. }
  set (k4 := with_name k2 (n +:+ "1")) in *.
  assert (regenerateIds [k1; k2; k3; k4] P ∅ =
          [k1'; k2'; k3'; regenerate_node k4 (indexed_path P (n +:+ "1") (Js.JNum 1))])
    as Hfour.
  { rewrite (regenerate_three P n k1 k2 k3 [k4] Hn H1 H2 H3).
    cbn [regenerateIds]. do 3 f_equal.
    assert (name k4 = n +:+ "1") as -> by (by destruct k2).
    unfold next_count. rewrite !get_set_ne by (apply not_eq_sym, app_1_ne).
    unfold Js.get, Js.counters. by rewrite lookup_empty, inherited_app_1. }
  remember (regenerateIds [k1'; k2'; k3'; copy] P ∅) as X eqn:HX in *.
  eexists. split_and!.
  - unfold duplicatePath. rewrite Htree, Hfind, Hparents. cbn [last id root'].
    rewrite Hupd. cbn [regenerateIds name with_children root'].
    rewrite (next_count_fresh _ Hr). rewrite regenerate_node_unfold.
    unfold with_children. cbn [name value attributes isText children]. fold P.
    rewrite Hkids', Hfour. reflexivity.
  - done.
  - cbn [children fmap list_fmap]. unfold k1', k2', k3'.
    rewrite !regenerate_node_unfold. cbn [name]. rewrite H1, H2, H3.
    by destruct k2.
  - cbn [children fmap list_fmap]. unfold k1', k2', k3'.
    by rewrite !regenerate_node_unfold.
  - cbn [children]. rewrite !fmap_cons. unfold k1', k2', k3'.
    by rewrite !strip_regenerate_node.
Qed.

End IndexerFacts.


(** ** Uniqueness of keys for plain names *)

Section KeyFacts.
Import Xml.

Lemma contains_app (c : ascii) (a b : string) :
  Spec.contains c (a +:+ b) = Spec.contains c a || Spec.contains c b.
Proof.
  induction a as [|x a IH]; [done|].
  change (Spec.contains c (String x (a +:+ b)) =
          Spec.contains c (String x a) || Spec.contains c b).
  simpl. by case_decide.
Qed.

(** A string splits in one way only at the first occurrence of a character. *)
Lemma split_first (c : ascii) (a a' r r' : string) :
  Spec.contains c a = false → Spec.contains c a' = false →
  a +:+ String c r = a' +:+ String c r' → a = a' ∧ r = r'.
Proof.
  revert a'. induction a as [|x a IH]; intros [|y a'] Ha Ha' H.
  - by injection H.
  - injection H as <- _. simpl in Ha'. by rewrite decide_True in Ha'.
  - injection H as -> _. simpl in Ha. by rewrite decide_True in Ha.
  - injection H as -> H. simpl in Ha, Ha'.
    destruct (decide (y = c)); [done|].
    destruct (IH a' Ha Ha' H) as [-> ->]. done.
Qed.

Lemma pretty_N_go_digits (c : ascii) (x : N) (s : string) :
  Spec.contains c (pretty_N_go x s) = true →
  Js.is_digit c = true ∨ Spec.contains c s = true.
Proof.
  revert s. induction (N.lt_wf_0 x) as [x _ IH]; intros s.
  destruct (decide (x = 0)%N) as [->|Hx].
  - rewrite pretty_N_go_0. auto.
  - rewrite pretty_N_go_step by lia. intros H.
    apply IH in H as [H|H]; [by left| |by apply N.div_lt; lia].
    simpl in H. case_decide as Hc; [|by right]. left. subst c.
    unfold pretty_N_char. by repeat case_match.
Qed.

Lemma pretty_digits (c : ascii) (n : nat) :
  Spec.contains c (pretty n) = true → Js.is_digit c = true.
Proof.
  unfold pretty, pretty_nat, pretty, pretty_N. case_decide as Hz.
  - simpl. case_decide; [by intros _; subst|done].
  - intros [Hd|Hd]%pretty_N_go_digits; done.
Qed.

Lemma pretty_no (c : ascii) (n : nat) :
  Js.is_digit c = false → Spec.contains c (pretty n) = false.
Proof.
  intros Hc. destruct (Spec.contains c (pretty n)) eqn:H; [|done].
  apply pretty_digits in H. congruence.
Qed.

Lemma segment_wf (nm : string) (i : nat) :
  Spec.plain_name nm → Spec.wfseg (Worker.segment nm (Js.JNum i)).
Proof.
  intros (_ & _ & Hc & Hs). exists (nm +:+ "[" +:+ pretty i). split_and!.
  - unfold Worker.segment. simpl. by rewrite !append_assoc.
  - rewrite !contains_app, Hc, pretty_no; done.
  - rewrite !contains_app, Hs, pretty_no; done.
Qed.

Lemma segment_plain_inj (nm nm' : string) (i i' : nat) :
  Spec.plain_name nm → Spec.plain_name nm' →
  Worker.segment nm (Js.JNum i) = Worker.segment nm' (Js.JNum i') → nm = nm' ∧ i = i'.
Proof.
  intros (_ & Hb & _) (_ & Hb' & _) H. unfold Worker.segment in H. simpl in H.
  apply (split_first "[" nm nm' _ _ Hb Hb') in H as [-> H]. split; [done|].
  apply append_char_inj in H. by apply pretty_nat_inj in H.
Qed.

Lemma wfseg_no_slash (x : string) : Spec.wfseg x → Spec.contains "/" x = false.
Proof. intros (b & -> & _ & Hs). by rewrite contains_app, Hs. Qed.

Lemma join_cons (sep x : string) (r : list string) :
  Js.join sep (x :: r) =
  x +:+ match r with [] => "" | _ => sep +:+ Js.join sep r end.
Proof. destruct r; [|done]. simpl. by rewrite append_empty_r. Qed.

Lemma join_no_slash (q : list string) :
  Forall Spec.wfseg q → Spec.contains "/" (Js.join "." q) = false.
Proof.
  induction 1 as [|x r Hx Hr IH]; [done|].
  rewrite join_cons, contains_app, (wfseg_no_slash x Hx).
  destruct r; [done|]. by rewrite contains_app, IH.
Qed.

Lemma join_inj (q1 q2 : list string) :
  Forall Spec.wfseg q1 → Forall Spec.wfseg q2 →
  Js.join "." q1 = Js.join "." q2 → q1 = q2.
Proof.
  intros H1. revert q2. induction H1 as [|x r Hx Hr IH]; intros q2 H2 H.
  - destruct H2 as [|y r' (b & -> & _) _]; [done|].
    rewrite join_cons in H. simpl in H. by destruct b.
  - destruct H2 as [|y r' Hy Hr']; rewrite !join_cons in H.
    + destruct Hx as (b & -> & _). by destruct b.
    + destruct Hx as (b & -> & Hb & _), Hy as (b' & -> & Hb' & _).
      rewrite !append_assoc in H.
      apply (split_first "]" b b' _ _ Hb Hb') in H as [-> H].
      f_equal. destruct r as [|z r], r' as [|z' r']; try done.
      apply IH; [done|]. by apply (inj (String.app ".")) in H.
Qed.

Lemma key_of_inj (q1 q2 : list string) (s1 s2 : string) :
  Forall Spec.wfseg q1 → Forall Spec.wfseg q2 →
  Spec.key_of q1 s1 = Spec.key_of q2 s2 → q1 = q2 ∧ s1 = s2.
Proof.
  intros H1 H2 H. unfold Spec.key_of in H.
  apply (split_first "/" _ _ _ _ (join_no_slash _ H1) (join_no_slash _ H2))
    in H as [H ->].
  split; [by apply join_inj|done].
Qed.

(** Keys under different segments of one parent path are different. *)
Lemma keyed_under_inj (q : list string) (seg seg' k : string) :
  Spec.keyed_under q seg k → Spec.keyed_under q seg' k → seg = seg'.
Proof.
  intros (q1 & s1 & W1 & ->) (q2 & s2 & W2 & H).
  apply key_of_inj in H as [H _]; [|done..].
  apply app_inv_head in H. by injection H.
Qed.

Lemma keyed_under_app (q : list string) (seg seg' k : string) :
  Spec.keyed_under (q ++ [seg]) seg' k → Spec.keyed_under q seg k.
Proof.
  intros (q1 & s1 & W1 & ->). exists (seg' :: q1), s1.
  by rewrite <- app_assoc in *.
Qed.

(** *** Counters on plain names *)

Lemma numeric_empty : Spec.numeric ∅.
Proof.
  intros nm Hnm. exists 0. unfold Js.get, Js.counters.
  by rewrite lookup_empty, Hnm.
Qed.

Lemma next_index_plain (counts : Js.counters) (el : Element) :
  Spec.numeric counts → Spec.plain_name (Spec.path_name el) →
  Spec.next_index counts el = Js.JNum (S (Spec.count_of counts (Spec.path_name el))).
Proof.
  intros Hc (Hnm & _). unfold Spec.next_index, Spec.count_of.
  fold (Spec.path_name el). destruct (Hc _ Hnm) as [n ->]. simpl.
  f_equal. lia.
Qed.

Lemma numeric_set (counts : Js.counters) (nm : string) (k : nat) :
  Spec.numeric counts → Spec.numeric (Js.set counts nm (Js.JNum k)).
Proof.
  intros Hc nm' Hnm'. destruct (decide (nm = nm')) as [->|Hne].
  - rewrite get_set_eq by (by apply inherited_not_proto). by exists k.
  - rewrite get_set_ne by done. by apply Hc.
Qed.

Lemma count_of_set_eq (counts : Js.counters) (nm : string) (k : nat) :
  Js.inherited nm = None → Spec.count_of (Js.set counts nm (Js.JNum k)) nm = k.
Proof.
  intros Hnm. unfold Spec.count_of.
  by rewrite get_set_eq by (by apply inherited_not_proto).
Qed.

Lemma count_of_set_ne (counts : Js.counters) (nm nm' : string) (v : Js.value) :
  nm ≠ nm' → Spec.count_of (Js.set counts nm v) nm' = Spec.count_of counts nm'.
Proof. intros Hne. unfold Spec.count_of. by rewrite get_set_ne. Qed.

(** *** The keys of one element *)

Lemma own_keys (q : list string) (el : Element) :
  (Spec.own_of (el, q)).*1 =
  ((fun a => Spec.key_of q ("@" +:+ a.1)) <$> default [] (attributes el)) ++
  (if Js.truthy_string (Worker.extractText (elements el))
   then [Spec.key_of q "#text"] else []).
Proof.
  unfold Spec.own_of, Spec.own_entries, Spec.key_of. simpl.
  rewrite fmap_app. f_equal.
  - destruct (attributes el) as [attrs|]; [|done]. simpl.
    rewrite <- list_fmap_compose. done.
  - by destruct (Js.truthy_string _).
Qed.

Lemma own_keys_NoDup (q : list string) (el : Element) :
  NoDup (Js.keys (default [] (attributes el))) → NoDup (Spec.own_of (el, q)).*1.
Proof.
  intros Hn. rewrite own_keys. apply NoDup_app. split_and!.
  - unfold Js.keys in Hn. revert Hn.
    generalize (default [] (attributes el)). intros attrs Hn.
    induction attrs as [|a attrs IH]; [constructor|].
    rewrite fmap_cons in *. apply NoDup_cons in Hn as [Ha Hn].
    constructor; [|by apply IH].
    intros Hin. apply Ha. apply list_elem_of_fmap in Hin as (a' & Heq & Hin).
    unfold Spec.key_of in Heq.
    apply (inj (String.app _)), (inj (String.app "/")), (inj (String.app "@")) in Heq.
    rewrite Heq. by apply list_elem_of_fmap_2.
  - intros k Hk Hk'. destruct (Js.truthy_string _); [|by apply elem_of_nil in Hk'].
    apply list_elem_of_singleton in Hk' as ->.
    apply list_elem_of_fmap in Hk as (a & Heq & _).
    unfold Spec.key_of in Heq. by apply (inj (String.app _)) in Heq.
  - destruct (Js.truthy_string _); [apply NoDup_singleton|constructor].
Qed.

Lemma own_keys_at (q : list string) (el : Element) (k : string) :
  k ∈ (Spec.own_of (el, q)).*1 → ∃ suffix, k = Spec.key_of q suffix.
Proof.
  rewrite own_keys. intros [H|H]%elem_of_app.
  - apply list_elem_of_fmap in H as (a & -> & _). eauto.
  - destruct (Js.truthy_string _); [|by apply elem_of_nil in H].
    apply list_elem_of_singleton in H as ->. eauto.
Qed.

Lemma key_at_not_under (p : list string) (suffix seg k : string) :
  Forall Spec.wfseg p → k = Spec.key_of p suffix → ¬ Spec.keyed_under p seg k.
Proof.
  intros Hp -> (q' & s' & W & H).
  apply key_of_inj in H as [H _]; [|done..].
  apply (f_equal length) in H. rewrite length_app in H. simpl in H. lia.
Qed.

Lemma traversal_cons (lab : Element * list string) (rest : list (Element * list string)) :
  Spec.traversal (lab :: rest) ≡ₚ
  Spec.own_of lab ++ Spec.below_of lab ++ Spec.traversal rest.
Proof.
  unfold Spec.traversal. rewrite reverse_cons, flat_map_app. cbn [flat_map].
  rewrite app_nil_r, <- !app_assoc. apply Permutation_app_head.
  rewrite (Permutation_app_comm (Spec.below_of lab)).
  by rewrite !app_assoc.
Qed.

(** *** The keys of a batch and of everything below it *)

Lemma plain_unfold (el : Element) :
  Spec.plain el ↔
  Spec.plain_name (Spec.path_name el) ∧
  NoDup (Js.keys (default [] (attributes el))) ∧
  Forall Spec.plain (default [] (elements el)).
Proof.
  destruct el as [t n a x cd [l|]]; simpl.
  - do 2 apply and_iff_compat_l. induction l as [|c l IH]; [by split|].
    rewrite Forall_cons, IH. done.
  - split; [intros (? & ? & _)|intros (? & ? & _)]; by split_and!.
Qed.

Lemma batch_keys (l : list Element) :
  Forall (fun c => Spec.plain c ∧ Spec.distinct_below c) l →
  ∀ p counts, Forall Spec.wfseg p → Spec.numeric counts →
    NoDup (Spec.traversal (Spec.labelled p counts l)).*1 ∧
    Forall (fun k => ∃ nm i, Spec.plain_name nm ∧ (Spec.count_of counts nm < i)%nat ∧
                             Spec.keyed_under p (Worker.segment nm (Js.JNum i)) k)
      (Spec.traversal (Spec.labelled p counts l)).*1.
Proof.
  induction 1 as [|c l [Hc Hd] _ IH]; intros p counts Hp Hnum.
  { split; [constructor|constructor]. }
  cbn [Spec.labelled]. destruct (is_element c); cbn [negb]; [|by apply IH].
  apply plain_unfold in Hc as (Hnm & Hattrs & _).
  pose proof Hnm as (Hinh & _).
  fold (Spec.path_name c). set (nm := Spec.path_name c) in *.
  rewrite (next_index_plain counts c Hnum Hnm). fold nm.
  set (n := Spec.count_of counts nm).
  set (seg := Worker.segment nm (Js.JNum (S n))).
  assert (Forall Spec.wfseg (p ++ [seg])) as Hp'.
  { apply Forall_app. split; [done|]. repeat constructor. by apply segment_wf. }
  destruct (IH p (Js.set counts nm (Js.JNum (S n))) Hp (numeric_set _ _ _ Hnum))
    as [IHn IHk].
  destruct (Hd (p ++ [seg]) Hp') as [Hbn Hbk].
  assert (Forall (Spec.keyed_under p seg) (Spec.own_of (c, p ++ [seg])).*1) as Hown.
  { apply Forall_forall. intros k [s ->]%own_keys_at. exists [], s. done. }
  assert (Forall (Spec.keyed_under p seg) (Spec.below c (p ++ [seg])).*1) as Hbel.
  { eapply Forall_impl; [exact Hbk|]. intros k [seg' Hk]. by eapply keyed_under_app. }
  assert (∀ k, Spec.keyed_under p seg k →
               k ∉ (Spec.traversal
                      (Spec.labelled p (Js.set counts nm (Js.JNum (S n))) l)).*1)
    as Hfresh.
  { intros k Hk Hin. rewrite Forall_forall in IHk.
    destruct (IHk k Hin) as (nm' & i & Hnm' & Hi & Hk').
    pose proof (keyed_under_inj _ _ _ _ Hk Hk') as Hseg.
    apply segment_plain_inj in Hseg as [<- <-]; [|done..].
    rewrite count_of_set_eq in Hi by done. lia. }
  rewrite traversal_cons, !fmap_app. unfold Spec.below_of. cbn [fst snd]. split.
  - apply NoDup_app. split_and!.
    + by apply own_keys_NoDup.
    + intros k Hk [Hk'|Hk']%elem_of_app.
      * apply own_keys_at in Hk as [s ->].
        rewrite Forall_forall in Hbk. destruct (Hbk _ Hk') as [seg' Hu].
        by eapply key_at_not_under.
      * rewrite Forall_forall in Hown. by eapply Hfresh; [apply Hown|].
    + apply NoDup_app. split_and!; [done| |done].
      intros k Hk Hk'. rewrite Forall_forall in Hbel.
      by eapply Hfresh; [apply Hbel|].
  - rewrite !Forall_app. split_and!.
    + eapply Forall_impl; [exact Hown|]. intros k Hk. exists nm, (S n).
      split_and!; [done|unfold n; lia|done].
    + eapply Forall_impl; [exact Hbel|]. intros k Hk. exists nm, (S n).
      split_and!; [done|unfold n; lia|done].
    + eapply Forall_impl; [exact IHk|]. intros k (nm' & i & Hnm' & Hi & Hk).
      exists nm', i. split_and!; [done| |done].
      destruct (decide (nm = nm')) as [<-|Hne].
      * rewrite count_of_set_eq in Hi by done. unfold n in *. lia.
      * by rewrite count_of_set_ne in Hi.
Qed.

Lemma plain_distinct_below (el : Element) : Spec.plain el → Spec.distinct_below el.
Proof.
  induction el as [t n a x cd|t n a x cd l IH] using Element_forall_ind; intros Hpl p Hp.
  - split; constructor.
  - apply plain_unfold in Hpl as (_ & _ & Hl). cbn [elements from_option id] in Hl.
    rewrite below_unfold. cbn [elements from_option id].
    assert (Forall (fun c => Spec.plain c ∧ Spec.distinct_below c) l) as Hall.
    { rewrite Forall_forall in IH, Hl. apply Forall_forall. intros c Hc. auto. }
    destruct (batch_keys l Hall p ∅ Hp numeric_empty) as [Hn Hk].
    split; [done|]. eapply Forall_impl; [exact Hk|].
    intros k (nm & i & _ & _ & Hu). eauto.
Qed.

Lemma write_all_fresh (es : list Spec.entry) (c : Js.record) :
  NoDup (Js.keys c ++ es.*1) → Spec.write_all es c = c ++ es.
Proof.
  revert c. induction es as [|[k v] es IH]; intros c Hn; [by rewrite app_nil_r|].
  cbn [Spec.write_all fold_left fst snd].
  assert (Js.write c k v = c ++ [(k, v)]) as ->.
  { apply NoDup_app in Hn as (_ & Hk & _).
    assert (k ∉ Js.keys c) as Hc.
    { intros Hin. apply (Hk k Hin). left. }
    clear -Hc. induction c as [|[k' v'] c IH]; [done|].
    unfold Js.keys in *. rewrite fmap_cons in Hc. apply not_elem_of_cons in Hc as [Hne Hc].
    simpl. rewrite decide_False by done. by rewrite IH. }
  fold (Spec.write_all es (c ++ [(k, v)])). rewrite IH, <- app_assoc; [done|].
  unfold Js.keys in *. rewrite fmap_app, <- app_assoc. done.
Qed.

(** For a document of plain names no two entries of the traversal share a
    key, so the flattener overwrites nothing: the mapping it returns has
    exactly the entries of the document, in the order of the loop. *)
Lemma flatten_plain_unique (b s : Z) (rootElements : option (list Element))
    (st : Worker.state) :
  Forall Spec.plain (default [] rootElements) →
  Worker.flatten b s rootElements = Some st →
  NoDup (Js.keys (Worker.collector st)) ∧
  Worker.collector st =
    Spec.traversal (Spec.labelled [] ∅ (default [] rootElements)).
Proof.
  intros Hpl Hst. rewrite (flatten_collector _ _ _ _ Hst).
  assert (Forall (fun c => Spec.plain c ∧ Spec.distinct_below c) (default [] rootElements))
    as Hall.
  { eapply Forall_impl; [exact Hpl|]. intros c Hc. split; [done|].
    by apply plain_distinct_below. }
  destruct (batch_keys _ Hall [] ∅ (Forall_nil_2 _) numeric_empty) as [Hn _].
  rewrite write_all_fresh by done. done.
Qed.

End KeyFacts.

(** ** The flattener as a whole: keys, element count, progress throttle *)

Section FlattenerFacts.
Import Xml Worker.

Variables basePercent spanPercent : Z.

Lemma write_flat (c : Js.record) (k v : string) :
  Spec.FlatMapping c → Spec.contains "/" k = true → Spec.FlatMapping (Js.write c k v).
Proof.
  unfold Spec.FlatMapping, Js.keys. intros Hc Hk.
  induction c as [|[k' v'] c IH]; simpl.
  - by repeat constructor.
  - apply Forall_cons in Hc as [Hk' Hc]. case_decide; constructor; auto.
Qed.

Lemma write_all_flat (es : list Spec.entry) (c : Js.record) :
  Forall (fun e => Spec.contains "/" e.1 = true) es →
  Spec.FlatMapping c → Spec.FlatMapping (Spec.write_all es c).
Proof.
  revert c. induction es as [|e es IH]; intros c Hes Hc; [done|].
  apply Forall_cons in Hes as [He Hes].
  cbn [Spec.write_all fold_left]. apply IH; [done|]. by apply write_flat.
Qed.

Lemma own_entries_flat (pathString : string) (el : Element) :
  Forall (fun e => Spec.contains "/" e.1 = true) (Spec.own_entries pathString el).
Proof.
  unfold Spec.own_entries. apply Forall_app. split.
  - destruct (attributes el) as [attrs|]; [|constructor].
    apply Forall_fmap, Forall_forall. intros a _. cbn.
    rewrite contains_app, contains_app. cbn. by rewrite orb_true_r.
  - case_match; repeat constructor. cbn.
    rewrite contains_app. cbn. by rewrite orb_true_r.
Qed.

Lemma own_of_flat (labs : list (Element * list string)) :
  Forall (fun e => Spec.contains "/" e.1 = true) (flat_map Spec.own_of labs).
Proof.
  induction labs as [|lab labs IH]; [constructor|].
  cbn [flat_map]. apply Forall_app. split; [apply own_entries_flat|done].
Qed.

Lemma loop_flat (fuel : nat) (st st' : state) :
  loop basePercent spanPercent fuel st = Some st' →
  Spec.FlatMapping (collector st) → Spec.FlatMapping (collector st').
Proof.
  revert st. induction fuel as [|fuel IH]; intros st; cbn [loop];
    destruct (stack st) as [|it rest] eqn:Hs; try congruence.
  intros Hl Hc. apply IH in Hl; [done|].
  destruct (batch_spec basePercent spanPercent it
              (mkState (collector st) rest (processedElements st)
                 (lastEmit st) (posted st))) as [-> _].
  apply write_all_flat; [apply own_of_flat|done].
Qed.

(** *** Every element is processed once *)

Lemma element_count_unfold (el : Element) :
  Spec.element_count el = S (Spec.elements_count (default [] (elements el))).
Proof.
  destruct el as [t n a x cd [l|]]; [|done].
  cbn [Spec.element_count elements from_option id]. by f_equal.
Qed.

Lemma elements_count_filter (l : list Element) :
  Spec.elements_count (filter (fun n => is_element n = true) l) = Spec.elements_count l.
Proof.
  unfold Spec.elements_count. induction l as [|c r IH]; [done|].
  rewrite filter_cons. destruct (is_element c) eqn:Hc.
  - rewrite decide_True by done. csimpl. by rewrite Hc, IH.
  - rewrite decide_False by congruence. csimpl. by rewrite Hc, IH.
Qed.

Lemma child_items_count (el : Element) (p : list string) :
  Spec.stack_count (Spec.child_items el p) = Spec.elements_count (default [] (elements el)).
Proof.
  unfold Spec.child_items.
  destruct (elements el) as [l|] eqn:He; [|done]. cbn [fmap option_fmap option_map].
  cbn [from_option id]. rewrite <- (elements_count_filter l).
  destruct (filter _ l) as [|c cs]; [done|].
  unfold Spec.stack_count, Spec.item_count. csimpl. lia.
Qed.

Lemma stack_count_app (s1 s2 : list item) :
  Spec.stack_count (s1 ++ s2) = (Spec.stack_count s1 + Spec.stack_count s2)%nat.
Proof. apply sum_list_with_app. Qed.

Lemma labelled_count (path : list string) (counts : Js.counters) (els : list Element) :
  (length (Spec.labelled path counts els) +
   Spec.stack_count (flat_map Spec.items_of (reverse (Spec.labelled path counts els))))%nat =
  Spec.elements_count els.
Proof.
  revert counts. induction els as [|el r IH]; intros counts; [done|].
  cbn [Spec.labelled]. unfold Spec.elements_count. csimpl.
  fold (Spec.elements_count r).
  destruct (is_element el) eqn:Hel; cbn [negb]; [|by rewrite IH].
  rewrite reverse_cons, flat_map_app, stack_count_app. cbn [flat_map length].
  rewrite app_nil_r. unfold Spec.items_of at 2. cbn [fst snd].
  rewrite child_items_count, element_count_unfold.
  specialize (IH (Js.set counts (default "unnamed" (name el)) (Spec.next_index counts el))).
  lia.
Qed.

Lemma batch_processed (it : item) (st : state) :
  processedElements (batch basePercent spanPercent it st) =
  (processedElements st +
   length (Spec.labelled (item_path it) ∅ (default [] (item_elements it))))%nat.
Proof.
  unfold batch. destruct (item_elements it) as [els|]; [|cbn; lia].
  apply fold_visit.
Qed.

Lemma loop_processed (fuel : nat) (st st' : state) :
  loop basePercent spanPercent fuel st = Some st' →
  processedElements st' = (processedElements st + Spec.stack_count (stack st))%nat.
Proof.
  revert st. induction fuel as [|fuel IH]; intros st; cbn [loop];
    destruct (stack st) as [|it rest] eqn:Hs; try congruence.
  - intros [= <-]. cbn. lia.
  - intros [= <-]. cbn. lia.
  - intros Hl. apply IH in Hl. rewrite Hl, batch_processed.
    destruct (batch_spec basePercent spanPercent it
                (mkState (collector st) rest (processedElements st)
                   (lastEmit st) (posted st))) as [_ ->].
    rewrite stack_count_app. cbn [processedElements stack].
    pose proof (labelled_count (item_path it) ∅ (default [] (item_elements it))) as Hc.
    change (Spec.stack_count (it :: rest))
      with (Spec.item_count it + Spec.stack_count rest)%nat.
    unfold Spec.item_count at 1. lia.
Qed.

(** *** The progress throttle *)

Lemma visit_throttled (path : list string) (st : state) (counts : Js.counters)
    (el : Element) (k : nat) :
  Spec.throttled basePercent st k →
  ∃ k', Spec.throttled basePercent
          (visit basePercent spanPercent path (st, counts) el).1 k'.
Proof.
  intros (Hl & Hp & scans & Hposted & Hlen & Hmsg).
  unfold visit. destruct (is_element el); cbn [negb].
  2:{ exists k. split; [done|]. split; [done|]. eauto. }
  case_decide as Hd; cbn [fst].
  - exists (S k). unfold Spec.throttled. cbn [lastEmit processedElements posted].
    split; [lia|]. split; [lia|].
    exists (scans ++ [(scan_percent basePercent spanPercent (S (processedElements st))
                         (length match filter (fun n => is_element n = true) <$> elements el with
                                 | Some (c :: cs) =>
                                     mkItem (Some (c :: cs))
                                       (path ++ [segment (default "unnamed" (name el))
                                          (Js.add_one (Js.nullish_or_zero
                                             (Js.get counts (default "unnamed" (name el)))))])
                                     :: stack st
                                 | _ => stack st
                                 end), "Scanning elements…")]).
    rewrite Hposted. split; [done|]. split.
    + rewrite length_app. cbn. lia.
    + apply Forall_app. split; [done|]. by repeat constructor.
  - exists k. unfold Spec.throttled. cbn [lastEmit processedElements posted].
    split; [done|]. split; [lia|]. eauto.
Qed.

Lemma fold_visit_throttled (path : list string) (els : list Element) (st : state)
    (counts : Js.counters) (k : nat) :
  Spec.throttled basePercent st k →
  ∃ k', Spec.throttled basePercent
          (fold_left (visit basePercent spanPercent path) els (st, counts)).1 k'.
Proof.
  revert st counts k. induction els as [|el els IH]; intros st counts k Hk; [eauto|].
  cbn [fold_left].
  destruct (visit_throttled path st counts el k Hk) as [k' Hk'].
  destruct (visit basePercent spanPercent path (st, counts) el) as [st1 counts1].
  eauto.
Qed.

Lemma loop_throttled (fuel : nat) (st st' : state) (k : nat) :
  loop basePercent spanPercent fuel st = Some st' →
  Spec.throttled basePercent st k → ∃ k', Spec.throttled basePercent st' k'.
Proof.
  revert st k. induction fuel as [|fuel IH]; intros st k; cbn [loop];
    destruct (stack st) as [|it rest] eqn:Hs; try congruence.
  - intros [= <-]. eauto.
  - intros [= <-]. eauto.
  - intros Hl Hk.
    assert (∃ k', Spec.throttled basePercent
                    (batch basePercent spanPercent it
                       (mkState (collector st) rest (processedElements st)
                          (lastEmit st) (posted st))) k') as [k' Hk'].
    { unfold batch. destruct (item_elements it) as [els|].
      - by apply fold_visit_throttled with k.
      - by exists k. }
    eauto.
Qed.

Lemma flatten_inner (rootElements : option (list Element)) :
  let st0 := mkState [] [mkItem rootElements []] 0 0 [(basePercent, "Parsing XML…")] in
  ∃ st1, loop basePercent spanPercent (stack_weight (stack st0)) st0 = Some st1 ∧
         flatten basePercent spanPercent rootElements =
           Some (mkState (collector st1) (stack st1) (processedElements st1)
                   (lastEmit st1)
                   (posted st1 ++ [((basePercent + spanPercent)%Z, "Flatten complete")])).
Proof.
  intros st0.
  destruct (loop_total basePercent spanPercent (stack_weight (stack st0)) st0)
    as [st1 Hst1]; [done|].
  exists st1. split; [done|]. unfold flatten. fold st0. by rewrite Hst1.
Qed.

End FlattenerFacts.

(** X1. Whatever the parser makes of a text, [mapXmlToFlat] returns, and
    every key of the map it returns holds a slash (the one that opens the
    [/@name] or [/#text] suffix).  The maps the handler passes to [diffMaps]
    are therefore flat mappings: no key of theirs is a member of
    [Object.prototype]. *)
Theorem mapXmlToFlat_flat_mapping (xml2js : string → Xml.parse_result) (xml : string)
    (b s : Z) :
  ∃ res, Worker.mapXmlToFlat xml2js xml b s = Some res ∧
         Spec.FlatMapping (Worker.result_map res.1) ∧
         ∀ k, k ∈ Js.keys (Worker.result_map res.1) → Js.inherited k = None.
Proof.
  assert (∃ res, Worker.mapXmlToFlat xml2js xml b s = Some res ∧
                 Spec.FlatMapping (Worker.result_map res.1)) as (res & Hres & Hflat).
  { unfold Worker.mapXmlToFlat. destruct (xml2js xml) as [doc|m].
    - destruct (flatten_inner b s doc) as (st1 & Hloop & ->).
      eexists. split; [done|]. cbn.
      apply (loop_flat _ _ _ _ _ Hloop). constructor.
    - eexists. split; [done|]. constructor. }
  exists res. split; [done|]. split; [done|].
  intros k Hk. apply flat_key_not_inherited.
  unfold Spec.FlatMapping in Hflat. rewrite Forall_forall in Hflat. auto.
Qed.

(** X2. The work-list loop of the flattener ends with an empty work list
    and has then counted every element node of the document once: the nodes
    of type element that are reached through element nodes, whatever their
    names, attributes or text. *)
Theorem flatten_counts_elements (b s : Z) (rootElements : option (list Xml.Element)) :
  ∃ st, Worker.flatten b s rootElements = Some st ∧
        Worker.stack st = [] ∧
        Worker.processedElements st = Spec.elements_count (default [] rootElements).
Proof.
  destruct (flatten_inner b s rootElements) as (st1 & Hloop & ->).
  eexists. split; [done|]. cbn [Worker.stack Worker.processedElements].
  split; [by apply loop_collector in Hloop as [? _]|].
  apply loop_processed in Hloop. rewrite Hloop. cbn.
  unfold Spec.item_count, Spec.elements_count. cbn. lia.
Qed.

(** X3. Progress is throttled by count: between the message that precedes
    the parse and the message that follows the loop, the flattener posts
    one scanning message for every 250 elements processed, no more and no
    fewer (none at all for a document of fewer than 250 elements). *)
Theorem flatten_scanning_cadence (b s : Z) (rootElements : option (list Xml.Element)) :
  ∃ st scans,
    Worker.flatten b s rootElements = Some st ∧
    Worker.posted st =
      (b, "Parsing XML…") :: scans ++ [((b + s)%Z, "Flatten complete")] ∧
    Forall (fun e => e.2 = "Scanning elements…") scans ∧
    length scans = (Spec.elements_count (default [] rootElements) / 250)%nat.
Proof.
  destruct (flatten_inner b s rootElements) as (st1 & Hloop & ->).
  destruct (loop_throttled b s _ _ _ 0 Hloop) as (k & Hl & Hp & scans & Hposted & Hlen & Hmsg).
  { split; [done|]. split; [cbn; lia|]. exists []. by repeat split. }
  eexists _, scans. split; [done|]. cbn [Worker.posted].
  split; [by rewrite Hposted|]. split; [done|].
  apply loop_processed in Hloop. cbn in Hloop.
  unfold Spec.item_count in Hloop. cbn in Hloop.
  fold (Spec.elements_count (default [] rootElements)) in Hloop.
  rewrite Nat.add_0_r in Hloop. rewrite <- Hloop, Hlen.
  apply (Nat.div_unique _ 250 k (Worker.processedElements st1 - 250 * k)); lia.
Qed.

(** ** The diff engine: equal maps and exchanged sides *)

Section DiffSymmetry.
Import Worker.

Variable localeCompare : string → string → Z.

Lemma has_key (o : Js.record) (k : string) : k ∈ Js.keys o → Js.has o k = true.
Proof.
  intros Hk. unfold Js.has, Js.has_own. by rewrite bool_decide_eq_true_2.
Qed.

Lemma omap_ext_in {A B} (f g : A → option B) (l : list A) :
  (∀ x, x ∈ l → f x = g x) → omap f l = omap g l.
Proof.
  induction l as [|x l IH]; intros H; [done|]. csimpl.
  rewrite (H x) by left. rewrite IH; [done|]. intros y Hy. apply H. by right.
Qed.

Lemma visited_same (m : Js.record) : Spec.visited m m = [].
Proof.
  rewrite visited_omap.
  rewrite (omap_ext_in _ (fun _ => None)).
  - by induction (union_keys m m).
  - intros k Hk. apply union_keys_spec in Hk.
    assert (Js.has m k = true) as Hh by (apply has_key; tauto).
    unfold Spec.emitted. rewrite Hh. cbn [negb].
    by rewrite bool_decide_eq_true_2.
Qed.

Lemma emitted_swap (left right : Js.record) (k : string) :
  k ∈ Js.keys left ∨ k ∈ Js.keys right →
  Spec.emitted right left k = Spec.mirror <$> Spec.emitted left right k.
Proof.
  intros Hk. unfold Spec.emitted.
  destruct (Js.has right k) eqn:Hr, (Js.has left k) eqn:Hl; cbn [negb]; try done.
  - destruct (decide (Js.read left k = Js.read right k)) as [He|Hne].
    + rewrite !bool_decide_eq_true_2 by done. done.
    + rewrite !bool_decide_eq_false_2 by done. done.
  - destruct Hk as [Hk|Hk]; apply has_key in Hk; congruence.
Qed.

Lemma union_keys_swap (left right : Js.record) :
  union_keys right left ≡ₚ union_keys left right.
Proof.
  apply NoDup_Permutation; try apply union_keys_spec.
  intros k. rewrite !(proj2 (union_keys_spec _ _)). tauto.
Qed.

Lemma visited_swap (left right : Js.record) :
  Spec.visited right left ≡ₚ Spec.mirror <$> Spec.visited left right.
Proof.
  rewrite !visited_omap, list_fmap_omap.
  rewrite (omap_ext_in (Spec.emitted right left)
             (fun k => Spec.mirror <$> Spec.emitted left right k)).
  - by rewrite union_keys_swap.
  - intros k Hk. apply emitted_swap. apply union_keys_spec in Hk. tauto.
Qed.

Lemma count_kind_mirror (c : ChangeKind) (l : list Diff) :
  Spec.count_kind c (Spec.mirror <$> l) = Spec.count_kind (Spec.opposite c) l.
Proof.
  unfold Spec.count_kind. induction l as [|d l IH]; [done|].
  rewrite fmap_cons, !filter_cons.
  destruct d as [p lv rv ch]. cbn [Spec.mirror change].
  destruct c, ch; cbn [Spec.opposite];
    repeat (case_decide; try done); cbn [length]; by rewrite IH.
Qed.

Lemma fmap_path_inj (l : list Diff) (x y : Diff) :
  NoDup (path <$> l) → x ∈ l → y ∈ l → path x = path y → x = y.
Proof.
  induction l as [|d l IH]; intros Hn Hx Hy Hp; [by apply elem_of_nil in Hx|].
  rewrite fmap_cons in Hn. apply NoDup_cons in Hn as [Hd Hn].
  apply elem_of_cons in Hx as [->|Hx], Hy as [->|Hy]; auto.
  - destruct Hd. rewrite Hp. by apply list_elem_of_fmap_2.
  - destruct Hd. rewrite <- Hp. by apply list_elem_of_fmap_2.
Qed.

End DiffSymmetry.

(** X4. Comparing a map with itself reports nothing: no record and three
    zero counts, whatever the keys and values of the map (members of
    [Object.prototype] included). *)
Theorem diffMaps_same (localeCompare : string → string → Z) (m : Js.record) :
  Worker.diffMaps localeCompare m m = ([], Worker.mkStats 0 0 0).
Proof. by rewrite diffMaps_unfold, (visited_same localeCompare). Qed.

(** X5. Exchanging the two sides mirrors the report: the records of
    [diffMaps right left] are those of [diffMaps left right] with the two
    values exchanged and added exchanged with removed, up to the order of
    records the comparator ties, and the added and removed counts are
    exchanged. *)
Theorem diffMaps_swap (localeCompare : string → string → Z) (left right : Js.record) :
  (Worker.diffMaps localeCompare right left).1 ≡ₚ
    Spec.mirror <$> (Worker.diffMaps localeCompare left right).1 ∧
  (Worker.diffMaps localeCompare right left).2 =
    Spec.mirror_stats (Worker.diffMaps localeCompare left right).2.
Proof.
  rewrite !diffMaps_unfold. cbn [fst snd]. split.
  - rewrite !sort_Permutation. apply (visited_swap localeCompare).
  - unfold Spec.mirror_stats. cbn.
    rewrite !(count_kind_Permutation _ _ _ (visited_swap localeCompare left right)).
    by rewrite !count_kind_mirror.
Qed.

(** X6. Under a comparator that is a total order on keys the mirrored
    report is the same list: [diffMaps right left] returns exactly the
    records of [diffMaps left right], mirrored, in the same order. *)
Theorem diffMaps_swap_ordered (localeCompare : string → string → Z)
    (left right : Js.record) :
  (∀ a b, (localeCompare a b ≤ 0 ∨ localeCompare b a ≤ 0)%Z) →
  (∀ a b c, (localeCompare a b ≤ 0 → localeCompare b c ≤ 0 → localeCompare a c ≤ 0)%Z) →
  (∀ a b, (localeCompare a b ≤ 0 → localeCompare b a ≤ 0 → a = b)%Z) →
  (Worker.diffMaps localeCompare right left).1 =
    Spec.mirror <$> (Worker.diffMaps localeCompare left right).1.
Proof.
  intros Htotal Htrans Hanti.
  rewrite !diffMaps_unfold. cbn [fst snd].
  apply (StronglySorted_unique_strong (Spec.precedes localeCompare)).
  - intros x y Hx Hy Hxy Hyx.
    assert (y ∈ Worker.sort localeCompare (Spec.visited right left)) as Hy'.
    { rewrite sort_Permutation, (visited_swap localeCompare).
      rewrite sort_Permutation in Hy. done. }
    apply (fmap_path_inj (Worker.sort localeCompare (Spec.visited right left))); try done.
    + rewrite sort_Permutation. apply visited_paths_NoDup.
    + by apply Hanti.
  - by apply sort_sorted.
  - apply StronglySorted_fmap with (R1 := Spec.precedes localeCompare);
      [by intros [] []|by apply sort_sorted].
  - rewrite !sort_Permutation. apply (visited_swap localeCompare).
Qed.

Lemma ordinal_compare_antisym (a b : string) :
  (Spec.ordinal_compare a b ≤ 0 → Spec.ordinal_compare b a ≤ 0 → a = b)%Z.
Proof. rewrite !ordinal_compare_le. apply String.le_po. Qed.

Lemma diffMaps_swap_ordered_witness :
  (Worker.diffMaps Spec.ordinal_compare
     [("a[1]/@id", "y"); ("c[1]/#text", "3")]
     [("b[1]/#text", "1"); ("a[1]/@id", "x")]).1 =
  Spec.mirror <$>
    (Worker.diffMaps Spec.ordinal_compare
       [("b[1]/#text", "1"); ("a[1]/@id", "x")]
       [("a[1]/@id", "y"); ("c[1]/#text", "3")]).1.
Proof.
  apply diffMaps_swap_ordered.
  - apply ordinal_compare_total.
  - apply ordinal_compare_trans.
  - apply ordinal_compare_antisym.
Defined.

(** ** The handler's answer *)

Lemma onmessage_shape (xml2js : string → Xml.parse_result)
    (localeCompare : string → string → Z) (leftXml rightXml : string) :
  ∃ l r progress terminal,
    Worker.mapXmlToFlat xml2js leftXml 0 45 = Some l ∧
    Worker.mapXmlToFlat xml2js rightXml 45 45 = Some r ∧
    Worker.onmessage xml2js localeCompare leftXml rightXml =
      Some (progress ++ [terminal]) ∧
    Forall (fun m => Spec.is_progress m = true) progress ∧
    Spec.is_progress terminal = false ∧
    terminal =
      if Worker.truthy (Spec.thrown (xml2js leftXml)) ||
         Worker.truthy (Spec.thrown (xml2js rightXml))
      then Worker.WorkerError (Spec.thrown (xml2js leftXml))
             (Spec.thrown (xml2js rightXml))
      else Worker.WorkerDone
             (Worker.diffMaps localeCompare (Worker.result_map l.1)
                (Worker.result_map r.1)).1
             (Worker.diffMaps localeCompare (Worker.result_map l.1)
                (Worker.result_map r.1)).2.
Proof.
  destruct (mapXmlToFlat_side xml2js leftXml 0 45) as (l & Hl & Hsl).
  destruct (mapXmlToFlat_side xml2js rightXml 45 45) as (r & Hr & Hsr).
  apply side_result_error in Hsl, Hsr.
  assert (∀ ph (ps : list (Z * string)),
            Forall (fun m => Spec.is_progress m = true) (Worker.post ph <$> ps)) as Hpost.
  { intros ph ps. apply Forall_fmap, Forall_forall. by intros [] _. }
  exists l, r. unfold Worker.onmessage. rewrite Hl, Hr. cbn [mbind option_bind].
  rewrite Hsl, Hsr.
  destruct (Worker.truthy (Spec.thrown (xml2js leftXml)) ||
            Worker.truthy (Spec.thrown (xml2js rightXml))).
  - eexists _, _. split_and!; [done|done|reflexivity| |done|done].
    apply Forall_app; split; apply Hpost.
  - destruct (Worker.diffMaps localeCompare (Worker.result_map l.1)
                (Worker.result_map r.1)) as [differences stats].
    exists ((Worker.post Worker.phase_left <$> l.2) ++
            (Worker.post Worker.phase_right <$> r.2) ++
            [Worker.WorkerProgress Worker.phase_diff 92 "Diffing…";
             Worker.WorkerProgress Worker.phase_diff 99 "Finalizing…"]).
    exists (Worker.WorkerDone differences stats).
    split_and!; [done|done| | |done|done].
    + by rewrite <- !app_assoc.
    + rewrite !Forall_app. split_and!; [apply Hpost|apply Hpost|].
      by repeat constructor.
Qed.

(** X7. The handler answers every request: both flattenings return, and the
    messages posted are progress messages followed by exactly one terminal
    message, the last.  The terminal message is the error report when the
    message of either parse error is a non-empty string, and otherwise the
    diff of the two maps the flattenings returned. *)
Theorem onmessage_one_terminal (xml2js : string → Xml.parse_result)
    (localeCompare : string → string → Z) (leftXml rightXml : string) :
  ∃ l r progress terminal,
    Worker.mapXmlToFlat xml2js leftXml 0 45 = Some l ∧
    Worker.mapXmlToFlat xml2js rightXml 45 45 = Some r ∧
    Worker.onmessage xml2js localeCompare leftXml rightXml =
      Some (progress ++ [terminal]) ∧
    Forall (fun m => Spec.is_progress m = true) progress ∧
    Spec.is_progress terminal = false ∧
    terminal =
      if Worker.truthy (Spec.thrown (xml2js leftXml)) ||
         Worker.truthy (Spec.thrown (xml2js rightXml))
      then Worker.WorkerError (Spec.thrown (xml2js leftXml))
             (Spec.thrown (xml2js rightXml))
      else Worker.WorkerDone
             (Worker.diffMaps localeCompare (Worker.result_map l.1)
                (Worker.result_map r.1)).1
             (Worker.diffMaps localeCompare (Worker.result_map l.1)
                (Worker.result_map r.1)).2.
Proof. apply onmessage_shape. Qed.

(** ** Documents the flat mapping cannot tell apart, and documents it can *)

Section Visibility.
Import Xml Worker.

Lemma labelled_app (path : list string) (counts : Js.counters) (l1 l2 : list Element) :
  ∃ counts', Spec.labelled path counts (l1 ++ l2) =
             Spec.labelled path counts l1 ++ Spec.labelled path counts' l2.
Proof.
  revert counts. induction l1 as [|el l1 IH]; intros counts; [by exists counts|].
  cbn [app Spec.labelled]. destruct (negb (is_element el)); [apply IH|].
  destruct (IH (Js.set counts (default "unnamed" (name el)) (Spec.next_index counts el)))
    as [counts' ->].
  by exists counts'.
Qed.

Lemma traversal_snoc_silent (labs : list (Element * list string))
    (lab : Element * list string) :
  Spec.own_of lab = [] → Spec.below_of lab = [] →
  Spec.traversal (labs ++ [lab]) = Spec.traversal labs.
Proof.
  intros Ho Hb. unfold Spec.traversal.
  rewrite reverse_app, !flat_map_app. cbn [reverse flat_map app].
  rewrite reverse_singleton. cbn [flat_map].
  by rewrite Ho, Hb, !app_nil_r.
Qed.

Lemma empty_leaf_silent (c : Element) (q : list string) :
  default [] (attributes c) = [] → default [] (elements c) = [] →
  Spec.own_of (c, q) = [] ∧ Spec.below_of (c, q) = [].
Proof.
  intros Ha He. split.
  - unfold Spec.own_of, Spec.own_entries. cbn [fst snd].
    destruct (attributes c) as [attrs|], (elements c) as [l|];
      cbn [from_option id] in Ha, He; subst; done.
  - unfold Spec.below_of. cbn [fst snd]. by rewrite below_unfold, He.
Qed.

Lemma text_fields_element (c : Element) :
  is_element c = true → Spec.text_fields [c] = "".
Proof. intros Hc. apply text_fields_elements. by constructor. Qed.

Lemma extractText_default (nodes : option (list Element)) :
  extractText nodes = Js.trim (Spec.text_fields (default [] nodes)).
Proof. destruct nodes as [l|]; [apply extractText_fields|done]. Qed.

End Visibility.

(** X8. An element without attributes, text or children appended after the
    last child of the root leaves the flat mapping as it was, so comparing
    a document with the same document plus such a trailing empty element
    reports no difference. *)
Theorem trailing_empty_leaf (b s : Z) (localeCompare : string → string → Z)
    (r c : Xml.Element) :
  Xml.is_element c = true →
  default [] (Xml.attributes c) = [] →
  default [] (Xml.elements c) = [] →
  let r' := Xml.mkElement (Xml.type r) (Xml.name r) (Xml.attributes r) (Xml.text r)
              (Xml.cdata r)
              (Some (default [] (Xml.elements r) ++ [c])) in
  ∃ st st',
    Worker.flatten b s (Some [r]) = Some st ∧
    Worker.flatten b s (Some [r']) = Some st' ∧
    Worker.collector st' = Worker.collector st ∧
    Worker.diffMaps localeCompare (Worker.collector st) (Worker.collector st') =
      ([], Worker.mkStats 0 0 0).
Proof.
  intros Hc Ha He r'.
  destruct (flatten_total b s (Some [r])) as [st Hst].
  destruct (flatten_total b s (Some [r'])) as [st' Hst'].
  exists st, st'. split; [done|]. split; [done|].
  assert (Worker.collector st' = Worker.collector st) as Heq.
  { rewrite (flatten_collector _ _ _ _ Hst), (flatten_collector _ _ _ _ Hst').
    f_equal. cbn [from_option id Spec.labelled].
    change (Xml.is_element r') with (Xml.is_element r).
    destruct (Xml.is_element r); cbn [negb]; [|done].
    change (Spec.next_index ∅ r') with (Spec.next_index ∅ r).
    change (Xml.name r') with (Xml.name r).
    set (p := [] ++ [Worker.segment (default "unnamed" (Xml.name r)) (Spec.next_index ∅ r)]).
    unfold Spec.traversal. cbn [flat_map reverse app]. rewrite !app_nil_r.
    f_equal.
    - unfold Spec.own_of, Spec.own_entries. cbn [fst snd].
      change (Xml.attributes r') with (Xml.attributes r).
      assert (Worker.extractText (Xml.elements r') = Worker.extractText (Xml.elements r))
        as ->; [|done].
      rewrite !extractText_default. cbn [r' Xml.elements from_option id].
      by rewrite text_fields_app, text_fields_element, append_empty_r.
    - rewrite !reverse_singleton. cbn [flat_map]. rewrite !app_nil_r.
      unfold Spec.below_of. cbn [fst snd]. rewrite !below_unfold.
      cbn [r' Xml.elements from_option id].
      destruct (labelled_app p ∅ (default [] (Xml.elements r)) [c]) as [counts' ->].
      cbn [Spec.labelled]. rewrite Hc. cbn [negb].
      apply traversal_snoc_silent; by apply empty_leaf_silent. }
  split; [done|]. rewrite Heq. by rewrite diffMaps_unfold, (visited_same localeCompare).
Qed.

Lemma trailing_empty_leaf_witness :
  Worker.collector <$>
    Worker.flatten 0 45
      (Some [Samples.elem "a" None [Samples.elem "b" None [Samples.txt "1"];
                                    Samples.leaf "c"]]) =
  Worker.collector <$>
    Worker.flatten 0 45 (Some [Samples.elem "a" None [Samples.elem "b" None [Samples.txt "1"]]]).
Proof.
  destruct (trailing_empty_leaf 0 45 Spec.ordinal_compare
              (Samples.elem "a" None [Samples.elem "b" None [Samples.txt "1"]])
              (Samples.leaf "c") eq_refl eq_refl eq_refl)
    as (st & st' & Hst & Hst' & Heq & _).
  cbn [Xml.type Xml.name Xml.attributes Xml.text Xml.cdata Xml.elements Samples.elem
       from_option id app] in Hst'.
  unfold Samples.elem at 1. rewrite Hst, Hst'. cbn [fmap option_fmap option_map].
  by rewrite Heq.
Defined.

(** X9. In a document whose element names are plain (no bracket, no slash,
    not a member of [Object.prototype]) the flattener overwrites nothing:
    the loop ends, and the mapping it returns lists, under pairwise
    distinct keys, one entry for every attribute and every non-empty text
    of the document, in the order the loop meets them. *)
Theorem plain_names_keep_every_entry (b s : Z)
    (rootElements : option (list Xml.Element)) :
  Forall Spec.plain (default [] rootElements) →
  ∃ st, Worker.flatten b s rootElements = Some st ∧
        NoDup (Js.keys (Worker.collector st)) ∧
        Worker.collector st =
          Spec.traversal (Spec.labelled [] ∅ (default [] rootElements)).
Proof.
  intros Hpl. destruct (flatten_total b s rootElements) as [st Hst].
  exists st. split; [done|]. by apply (flatten_plain_unique b s rootElements).
Qed.

Lemma plain_names_keep_every_entry_witness :
  Forall Spec.plain (default [] Samples.mixed) ∧
  ∃ st, Worker.flatten 0 45 Samples.mixed = Some st ∧
        NoDup (Js.keys (Worker.collector st)).
Proof.
  assert (Forall Spec.plain (default [] Samples.mixed)) as Hpl.
  { repeat constructor; by apply not_elem_of_nil. }
  split; [done|].
  destruct (plain_names_keep_every_entry 0 45 Samples.mixed Hpl) as (st & Hst & Hn & _).
  eauto.
Defined.

(** ** The editor's undo history *)

Section HistoryFacts.
Import Editor.

Lemma clone_list (t : list EditableNode) : deepCloneNode <$> t = t.
Proof.
  induction t as [|n t IH]; [done|]. by rewrite fmap_cons, deepCloneNode_id, IH.
Qed.

(** The number of entries up to the index, the entry at the index included. *)
Lemma consistent_view (s : session) :
  Spec.consistent s →
  ∃ n : nat, historyIndex s = (Z.of_nat n - 1)%Z ∧
             (n ≤ length (history s) ≤ 50)%nat ∧
             (n = 0%nat ↔ history s = []) ∧
             canUndo s = bool_decide (1 < n)%nat ∧
             canRedo s = bool_decide (n < length (history s))%nat.
Proof.
  intros (Hlen & Hidx & Hu & Hr).
  exists (Z.to_nat (historyIndex s + 1)).
  destruct (decide (history s = [])) as [He|Hne].
  - rewrite Hidx, He in *. cbn in *. split_and!; try done; try lia.
  - assert (length (history s) ≠ 0%nat) as Hl.
    { intros H0. by apply nil_length_inv in H0. }
    split_and!; try lia.
    + split; [lia|done].
    + rewrite Hu. apply bool_decide_ext. lia.
    + rewrite Hr. apply bool_decide_ext. lia.
Qed.

Lemma commit_view (s : session) (t : list EditableNode) (n : nat) :
  historyIndex s = (Z.of_nat n - 1)%Z → (n ≤ length (history s) ≤ 50)%nat →
  commit t s =
  if decide (n = 50%nat) then
    mkSession t (tail (history s) ++ [t]) 49 true false
  else
    mkSession t (take n (history s) ++ [t]) (Z.of_nat n) (bool_decide (0 < n)%nat) false.
Proof.
  intros Hidx Hn. unfold commit, saveToHistory.
  cbn [tree history historyIndex canUndo canRedo].
  rewrite clone_list.
  assert (slice_to (history s) (historyIndex s + 1) = take n (history s)) as ->.
  { unfold slice_to. rewrite decide_False by lia. f_equal. lia. }
  rewrite length_app, length_take. cbn [length].
  destruct (decide (n = 50%nat)) as [->|Hne].
  - rewrite decide_True by lia. rewrite take_ge by lia.
    destruct (history s) as [|e h] eqn:Hh; [cbn in Hn; lia|].
    cbn [tail app]. f_equal; [lia|]. apply bool_decide_eq_true_2. lia.
  - rewrite decide_False by lia. f_equal; [lia|].
    apply bool_decide_ext. lia.
Qed.

End HistoryFacts.

(** X10. The undo history stays within its bounds.  From a state in which
    it holds at most fifty entries, its index points at one of them (or is
    -1 while there is none) and the two button flags say whether an entry
    lies before and after the index, every edit, undo and redo leads to
    such a state again, and neither undo nor redo reads outside the
    history. *)
Theorem history_consistent (s : Editor.session) (t : list Editor.EditableNode) :
  Spec.consistent s →
  Spec.consistent (Editor.commit t s) ∧
  (∃ s', Editor.undo s = Some s' ∧ Spec.consistent s') ∧
  (∃ s', Editor.redo s = Some s' ∧ Spec.consistent s').
Proof.
  intros Hs. pose proof Hs as Hc.
  apply consistent_view in Hs as (n & Hidx & Hn & H0 & Hu & Hr).
  split_and!.
  - rewrite (commit_view s t n Hidx Hn).
    destruct (decide (n = 50%nat)) as [->|Hne].
    + assert (length (Editor.history s) = 50%nat) as Hl by lia.
      destruct (Editor.history s) as [|e h]; [done|]. cbn in Hl.
      unfold Spec.consistent. cbn [Editor.history Editor.historyIndex Editor.canUndo
        Editor.canRedo tail]. rewrite length_app. cbn [length].
      rewrite decide_False by (by destruct h).
      split_and!; try lia; symmetry;
        [apply bool_decide_eq_true_2|apply bool_decide_eq_false_2]; lia.
    + unfold Spec.consistent. cbn [Editor.history Editor.historyIndex Editor.canUndo
        Editor.canRedo]. rewrite length_app, length_take. cbn [length].
      rewrite decide_False by (by destruct (take n (Editor.history s))).
      split_and!; try lia.
      * apply bool_decide_ext. lia.
      * symmetry. apply bool_decide_eq_false_2. lia.
  - unfold Editor.undo.
    destruct (decide (0 < Editor.historyIndex s)%Z) as [Hd|Hd]; [|eauto].
    destruct (lookup_lt_is_Some_2 (Editor.history s) (Z.to_nat (Editor.historyIndex s - 1)))
      as [e He]; [lia|].
    rewrite He. cbn [mbind option_bind]. eexists. split; [done|].
    unfold Spec.consistent. cbn [Editor.history Editor.historyIndex Editor.canUndo
      Editor.canRedo].
    rewrite decide_False by (intros E; rewrite E in He; done).
    split_and!; try lia; try done.
    symmetry. apply bool_decide_eq_true_2. lia.
  - unfold Editor.redo.
    destruct (decide (Editor.historyIndex s < Z.of_nat (length (Editor.history s)) - 1)%Z)
      as [Hd|Hd]; [|eauto].
    rewrite decide_False by lia.
    destruct (lookup_lt_is_Some_2 (Editor.history s) (Z.to_nat (Editor.historyIndex s + 1)))
      as [e He]; [lia|].
    rewrite He. cbn [mbind option_bind]. eexists. split; [done|].
    unfold Spec.consistent. cbn [Editor.history Editor.historyIndex Editor.canUndo
      Editor.canRedo].
    rewrite decide_False by (intros E; rewrite E in He; done).
    split_and!; try lia; try done.
    symmetry. apply bool_decide_eq_true_2.
    assert (n ≠ 0%nat); [|lia].
    intros E. apply H0 in E. rewrite E in He. done.
Qed.

Lemma history_consistent_witness :
  Spec.consistent Editor.mounted ∧
  Spec.consistent (Editor.commit Samples.three_siblings Editor.mounted).
Proof.
  assert (Spec.consistent Editor.mounted) as H.
  { unfold Spec.consistent. cbn. split_and!; try done. lia. }
  split; [done|]. by apply (history_consistent Editor.mounted Samples.three_siblings).
Defined.

(** X11. Undo takes an edit back and redo brings it back again.  When the
    tree on screen is the history entry at the index, then after any edit
    undo shows the tree as it was before the edit, and a redo after that
    undo restores the state the edit produced: tree, history, index and
    both flags.  This holds also when the edit evicted the oldest of fifty
    entries. *)
Theorem undo_after_edit (s : Editor.session) (t : list Editor.EditableNode) :
  Spec.consistent s → Spec.current s →
  ∃ s1, Editor.undo (Editor.commit t s) = Some s1 ∧
        Editor.tree s1 = Editor.tree s ∧
        Editor.canRedo s1 = true ∧
        Editor.redo s1 = Some (Editor.commit t s).
Proof.
  intros Hs [Hpos Hcur].
  apply consistent_view in Hs as (n & Hidx & Hn & H0 & Hu & Hr).
  rewrite (commit_view s t n Hidx Hn).
  rewrite Hidx in Hcur, Hpos.
  replace (Z.to_nat (Z.of_nat n - 1)) with (n - 1)%nat in Hcur by lia.
  destruct (decide (n = 50%nat)) as [->|Hne].
  - assert (length (Editor.history s) = 50%nat) as Hl by lia.
    destruct (Editor.history s) as [|e h]; [done|]. cbn in Hl.
    cbn [tail]. unfold Editor.undo.
    cbn [Editor.history Editor.historyIndex]. rewrite decide_True by lia.
    change (Z.to_nat (49 - 1)) with 48%nat.
    change ((e :: h) !! (50 - 1)%nat) with (h !! 48%nat) in Hcur.
    rewrite (lookup_app_l_Some _ _ _ _ Hcur). cbn [mbind option_bind].
    rewrite clone_list. eexists. split_and!; [done|done|done|].
    unfold Editor.redo. cbn [Editor.history Editor.historyIndex].
    rewrite length_app. cbn [length].
    rewrite decide_True by lia. rewrite decide_False by lia.
    change (Z.to_nat (49 - 1 + 1)) with 49%nat.
    replace 49%nat with (length h + 0)%nat by lia.
    rewrite lookup_app_r by lia.
    replace (length h + 0 - length h)%nat with 0%nat by lia.
    cbn [lookup list_lookup mbind option_bind]. rewrite clone_list.
    f_equal. f_equal. apply bool_decide_eq_false_2. lia.
  - unfold Editor.undo. cbn [Editor.history Editor.historyIndex].
    rewrite decide_True by lia.
    replace (Z.to_nat (Z.of_nat n - 1)) with (n - 1)%nat by lia.
    assert ((take n (Editor.history s) ++ [t]) !! (n - 1)%nat = Some (Editor.tree s)) as ->.
    { apply lookup_app_l_Some. rewrite lookup_take_lt by lia. done. }
    cbn [mbind option_bind]. rewrite clone_list.
    eexists. split_and!; [done|done|done|].
    unfold Editor.redo. cbn [Editor.history Editor.historyIndex].
    rewrite length_app, length_take. cbn [length].
    rewrite decide_True by lia. rewrite decide_False by lia.
    replace (Z.to_nat (Z.of_nat n - 1 + 1)) with (length (take n (Editor.history s)) + 0)%nat
      by (rewrite length_take; lia).
    rewrite lookup_app_r by lia.
    replace (length (take n (Editor.history s)) + 0 - length (take n (Editor.history s)))%nat
      with 0%nat by lia.
    cbn [lookup list_lookup mbind option_bind]. rewrite clone_list.
    f_equal. f_equal; [lia| |].
    + symmetry. apply bool_decide_eq_true_2. lia.
    + apply bool_decide_eq_false_2. lia.
Qed.

Lemma undo_after_edit_witness :
  ∃ s1,
    Editor.undo
      (Editor.commit Samples.three_siblings (Editor.mkSession [] [[]] 0 false false)) =
      Some s1 ∧
    Editor.tree s1 = [].
Proof.
  destruct (undo_after_edit (Editor.mkSession [] [[]] 0 false false)
              Samples.three_siblings) as (s1 & Hu & Ht & _).
  - unfold Spec.consistent. cbn. split_and!; try done; lia.
  - split; [done|]. done.
  - eauto.
Defined.

(** X12. Undo and redo are inverse to one another.  When the tree on
    screen is the history entry at the index and an earlier entry exists,
    undo followed by redo returns to the same state; when a later entry
    exists, so does redo followed by undo. *)
Theorem undo_redo_inverse (s : Editor.session) :
  Spec.consistent s → Spec.current s →
  ((0 < Editor.historyIndex s)%Z →
   ∃ s1, Editor.undo s = Some s1 ∧ Editor.redo s1 = Some s) ∧
  ((Editor.historyIndex s < Z.of_nat (length (Editor.history s)) - 1)%Z →
   ∃ s1, Editor.redo s = Some s1 ∧ Editor.undo s1 = Some s).
Proof.
  intros (Hlen & Hidx & Hu & Hr) [Hpos Hcur].
  destruct s as [t h i cu cr]. cbn [Editor.tree Editor.history Editor.historyIndex
    Editor.canUndo Editor.canRedo] in *.
  split; intros Hi.
  - unfold Editor.undo. cbn [Editor.history Editor.historyIndex].
    rewrite decide_True by done.
    destruct (lookup_lt_is_Some_2 h (Z.to_nat (i - 1))) as [e He].
    { apply lookup_lt_Some in Hcur. lia. }
    rewrite He. cbn [mbind option_bind]. eexists. split; [done|].
    unfold Editor.redo. cbn [Editor.history Editor.historyIndex].
    apply lookup_lt_Some in Hcur as Hlt.
    rewrite decide_True by lia. rewrite decide_False by lia.
    replace (i - 1 + 1)%Z with i by lia. rewrite Hcur. cbn [mbind option_bind].
    rewrite clone_list. f_equal. f_equal.
    + rewrite Hu. symmetry. by apply bool_decide_eq_true_2.
    + by rewrite Hr.
  - unfold Editor.redo. cbn [Editor.history Editor.historyIndex].
    rewrite decide_True by done. rewrite decide_False by lia.
    destruct (lookup_lt_is_Some_2 h (Z.to_nat (i + 1))) as [e He]; [lia|].
    rewrite He. cbn [mbind option_bind]. eexists. split; [done|].
    unfold Editor.undo. cbn [Editor.history Editor.historyIndex].
    rewrite decide_True by lia.
    replace (i + 1 - 1)%Z with i by lia. rewrite Hcur. cbn [mbind option_bind].
    rewrite clone_list. f_equal. f_equal.
    + by rewrite Hu.
    + rewrite Hr. symmetry. by apply bool_decide_eq_true_2.
Qed.

Lemma undo_redo_inverse_witness :
  let s := Editor.mkSession Samples.three_siblings [[]; Samples.three_siblings] 1 true false in
  ∃ s1, Editor.undo s = Some s1 ∧ Editor.redo s1 = Some s.
Proof.
  intros s.
  destruct (undo_redo_inverse s) as [H _].
  - unfold Spec.consistent. cbn. split_and!; try done; lia.
  - split; [done|]. done.
  - apply H. done.
Defined.

(** X13. An edit ends the redo chain and the history is capped.  After any
    edit the new tree is the last entry of the history and redo changes
    nothing; the entries after the index before the edit are gone.  An
    edit made on a full history of fifty entries drops the oldest entry,
    so that at most forty-nine edits can be undone. *)
Theorem edit_truncates_history (s : Editor.session) (t : list Editor.EditableNode) :
  Spec.consistent s →
  let s' := Editor.commit t s in
  Editor.tree s' = t ∧
  last (Editor.history s') = Some t ∧
  Editor.redo s' = Some s' ∧
  Editor.history s' =
    (if decide (Editor.historyIndex s = 49)%Z then tail (Editor.history s)
     else take (Z.to_nat (Editor.historyIndex s + 1)) (Editor.history s)) ++ [t] ∧
  (length (Editor.history s') ≤ 50)%nat.
Proof.
  intros Hs s'. subst s'.
  apply consistent_view in Hs as (n & Hidx & Hn & H0 & Hu & Hr).
  rewrite (commit_view s t n Hidx Hn).
  replace (Z.to_nat (Editor.historyIndex s + 1)) with n by lia.
  destruct (decide (n = 50%nat)) as [->|Hne].
  - rewrite decide_True by lia.
    cbn [Editor.tree Editor.history]. rewrite last_snoc.
    destruct (Editor.history s) as [|e h]; [cbn in Hn; lia|]. cbn in Hn. cbn [tail].
    split_and!; try done.
    + unfold Editor.redo. cbn [Editor.history Editor.historyIndex].
      rewrite decide_False; [done|].
      rewrite length_app. cbn [length]. lia.
    + rewrite length_app. cbn [length]. lia.
  - rewrite decide_False by lia.
    cbn [Editor.tree Editor.history]. rewrite last_snoc.
    split_and!; try done.
    + unfold Editor.redo. cbn [Editor.history Editor.historyIndex].
      rewrite decide_False; [done|].
      rewrite length_app, length_take. cbn [length]. lia.
    + rewrite length_app, length_take. cbn [length]. lia.
Qed.

Lemma edit_truncates_history_witness :
  Editor.history
    (Editor.commit [] (Editor.mkSession [] [[]; Samples.three_siblings] 0 false true)) =
  [[]; []].
Proof.
  destruct (edit_truncates_history
              (Editor.mkSession [] [[]; Samples.three_siblings] 0 false true) [])
    as (_ & _ & _ & H & _).
  - unfold Spec.consistent. cbn. split_and!; try done; lia.
  - rewrite H. done.
Defined.

(** ** Edits of the editable tree *)

Section EditFacts.
Import Editor.

Lemma nodes_of_unfold (node : EditableNode) :
  Spec.nodes_of node = node :: Spec.all_nodes (children node).
Proof. by destruct node. Qed.

Lemma all_nodes_cons (node : EditableNode) (l : list EditableNode) :
  Spec.all_nodes (node :: l) = Spec.nodes_of node ++ Spec.all_nodes l.
Proof. done. Qed.

Lemma update_value_node_unfold (target v : string) (node : EditableNode) :
  update_value_node target v node =
  if decide (id node = target) then with_value node v
  else with_children node (update_value target v (children node)).
Proof. by destruct node. Qed.


Lemma remove_node_unfold (target : string) (node : EditableNode) :
  remove_node target node = with_children node (remove target (children node)).
Proof.
  destruct node as [i p n v a t l]. cbn [remove_node children]. f_equal.
  unfold remove. induction l as [|c l IH]; [done|].
  rewrite filter_cons. case_decide; [|done]. by rewrite fmap_cons, IH.
Qed.

(** A node is found exactly when its identifier occurs in the tree. *)
Lemma find_node_None (node : EditableNode) (target : string) :
  findNodeById_node node target = None ↔ target ∉ id <$> Spec.nodes_of node.
Proof.
  induction node as [i p n v a t l IH] using EditableNode_forall_ind.
  rewrite findNodeById_node_unfold, nodes_of_unfold, fmap_cons, not_elem_of_cons.
  cbn [id children].
  assert (findNodeById l target = None ↔ target ∉ id <$> Spec.all_nodes l) as Hl.
  { induction IH as [|c l Hc _ IHl]; [by split; [intros _; apply not_elem_of_nil|]|].
    unfold Spec.all_nodes. cbn [findNodeById flat_map].
    rewrite fmap_app, elem_of_app.
    destruct (findNodeById_node c target) eqn:Hf.
    - split; [done|]. intros Hn. apply Hc. tauto.
    - rewrite IHl. unfold Spec.all_nodes. split; [|tauto].
      intros Hr [Hin|Hin]; [|done]. by apply Hc in Hin. }
  case_decide; [|rewrite Hl; naive_solver].
  split; [done|]. intros [Hne _]. congruence.
Qed.

Lemma find_None (l : list EditableNode) (target : string) :
  findNodeById l target = None ↔ target ∉ id <$> Spec.all_nodes l.
Proof.
  induction l as [|c l IH]; [by split; [intros _; apply not_elem_of_nil|]|].
  unfold Spec.all_nodes. cbn [findNodeById flat_map].
  rewrite fmap_app, elem_of_app.
  destruct (findNodeById_node c target) eqn:Hf.
  - split; [done|]. intros Hn.
    assert (findNodeById_node c target = None) by (apply find_node_None; tauto).
    congruence.
  - rewrite IH. unfold Spec.all_nodes. apply find_node_None in Hf. tauto.
Qed.

Lemma find_Some_id (l : list EditableNode) (target : string) (n : EditableNode) :
  findNodeById l target = Some n → id n = target ∧ n ∈ Spec.all_nodes l.
Proof.
  revert n.
  assert (∀ node, (∀ n, findNodeById_node node target = Some n →
                        id n = target ∧ n ∈ Spec.nodes_of node)) as Hnode.
  { intros node. induction node as [i p nm v a t cs IH] using EditableNode_forall_ind.
    intros n. rewrite findNodeById_node_unfold, nodes_of_unfold. cbn [id children].
    case_decide as Hd.
    - intros [= <-]. split; [done|]. left.
    - intros Hf.
      assert (id n = target ∧ n ∈ Spec.all_nodes cs) as [? ?]; [|split; [done|by right]].
      clear Hd. induction IH as [|c cs Hc _ IHl]; [done|].
      cbn [findNodeById] in Hf. rewrite all_nodes_cons.
      destruct (findNodeById_node c target) as [found|] eqn:Hfc.
      + injection Hf as ->. destruct (Hc n eq_refl) as [? ?].
        split; [done|]. apply elem_of_app. by left.
      + destruct (IHl Hf) as [? ?]. split; [done|]. apply elem_of_app. by right. }
  induction l as [|c l IH]; intros n; [done|].
  cbn [findNodeById]. rewrite all_nodes_cons.
  destruct (findNodeById_node c target) as [found|] eqn:Hfc.
  - intros [= <-]. destruct (Hnode c found Hfc) as [? ?].
    split; [done|]. apply elem_of_app. by left.
  - intros Hf. destruct (IH n Hf) as [? ?]. split; [done|]. apply elem_of_app. by right.
Qed.

(** *** Deleting *)

Lemma remove_absent (l : list EditableNode) (target : string) :
  target ∉ id <$> Spec.all_nodes l → remove target l = l.
Proof.
  assert (∀ node, target ∉ id <$> Spec.nodes_of node → remove_node target node = node)
    as Hnode.
  { intros node. induction node as [i p n v a t cs IH] using EditableNode_forall_ind.
    rewrite remove_node_unfold, nodes_of_unfold, fmap_cons, not_elem_of_cons.
    cbn [id children with_children path name value attributes isText].
    intros [Hne Hcs]. f_equal.
    induction IH as [|c cs Hc _ IHl]; [done|].
    rewrite all_nodes_cons, fmap_app, not_elem_of_app in Hcs.
    destruct Hcs as [H1 H2]. unfold remove. rewrite filter_cons.
    rewrite decide_True.
    - rewrite fmap_cons, (Hc H1). f_equal. by apply IHl.
    - intros Heq. apply H1. rewrite nodes_of_unfold, fmap_cons, Heq. left. }
  induction l as [|c l IH]; [done|].
  rewrite all_nodes_cons, fmap_app, not_elem_of_app.
  intros [H1 H2]. unfold remove. rewrite filter_cons.
  rewrite decide_True.
  - rewrite fmap_cons, (Hnode c H1). f_equal. by apply IH.
  - intros Heq. apply H1. rewrite nodes_of_unfold, fmap_cons, Heq. left.
Qed.

Lemma remove_faces (l : list EditableNode) (target : string) :
  (target ∉ id <$> Spec.all_nodes (remove target l)) ∧
  sublist (Spec.face <$> Spec.all_nodes (remove target l))
    (Spec.face <$> Spec.all_nodes l).
Proof.
  assert (∀ node, id node ≠ target →
            (target ∉ id <$> Spec.nodes_of (remove_node target node)) ∧
            sublist (Spec.face <$> Spec.nodes_of (remove_node target node))
              (Spec.face <$> Spec.nodes_of node)) as Hnode.
  { intros node. induction node as [i p n v a t cs IH] using EditableNode_forall_ind.
    intros Hne. rewrite remove_node_unfold, !nodes_of_unfold, !fmap_cons.
    cbn [id children with_children path name value attributes isText] in *.
    assert ((target ∉ id <$> Spec.all_nodes (remove target cs)) ∧
            sublist (Spec.face <$> Spec.all_nodes (remove target cs))
              (Spec.face <$> Spec.all_nodes cs)) as [H1 H2].
    { clear Hne. induction IH as [|c cs Hc _ IHl]; [by split; [apply not_elem_of_nil|]|].
      unfold remove. rewrite filter_cons. destruct IHl as [I1 I2].
      rewrite (all_nodes_cons c cs), fmap_app.
      case_decide as Hd.
      - rewrite fmap_cons, all_nodes_cons, !fmap_app.
        destruct (Hc Hd) as [C1 C2]. split.
        + rewrite not_elem_of_app. done.
        + by apply sublist_app.
      - split; [done|]. by apply sublist_inserts_l. }
    split.
    - rewrite not_elem_of_cons. done.
    - by apply sublist_skip. }
  induction l as [|c l [I1 I2]]; [by split; [apply not_elem_of_nil|]|].
  unfold remove. rewrite filter_cons.
  rewrite (all_nodes_cons c l), fmap_app.
  case_decide as Hd.
  - rewrite fmap_cons, all_nodes_cons, !fmap_app.
    destruct (Hnode c Hd) as [C1 C2]. split.
    + rewrite not_elem_of_app. done.
    + by apply sublist_app.
  - split; [done|]. by apply sublist_inserts_l.
Qed.

End EditFacts.

Section ListingFacts.
Import Editor.

Lemma lines_unfold (above : list string) (node : EditableNode) :
  Spec.lines above node =
  (above ++ [id node], with_children node []) ::
  flat_map (Spec.lines (above ++ [id node])) (children node).
Proof. by destruct node. Qed.

(** Every line of a subtree holds the identifiers above the subtree and the
    identifier of its root. *)
Lemma lines_above (node : EditableNode) (above : list string)
    (ln : list string * EditableNode) (x : string) :
  ln ∈ Spec.lines above node → x ∈ above ++ [id node] → x ∈ ln.1.
Proof.
  revert above. induction node as [i p n v a t cs IH] using EditableNode_forall_ind.
  intros above. rewrite lines_unfold. cbn [id children].
  intros [->|Hin]%elem_of_cons Hx; [done|].
  apply list_elem_of_In, in_flat_map in Hin as (c & Hc & Hin).
  apply list_elem_of_In in Hc, Hin. rewrite Forall_forall in IH.
  apply (IH c Hc (above ++ [i])); [done|]. apply elem_of_app. by left.
Qed.

Lemma filter_none {A} (P : A → Prop) `{∀ x, Decision (P x)} (l : list A) :
  (∀ x, x ∈ l → ¬ P x) → filter P l = [].
Proof.
  induction l as [|x l IH]; intros Hl; [done|].
  rewrite filter_cons_False by (apply Hl; left).
  apply IH. intros y Hy. apply Hl. by right.
Qed.

(** Below identifiers that differ from the target, the lines of what
    [remove] leaves are the lines that do not hold the target. *)
Lemma remove_lines (target : string) (l : list EditableNode) (above : list string) :
  target ∉ above →
  flat_map (Spec.lines above) (remove target l) =
  filter (fun ln => target ∉ ln.1) (flat_map (Spec.lines above) l).
Proof.
  assert (∀ node ab, id node ≠ target → target ∉ ab →
            Spec.lines ab (remove_node target node) =
            filter (fun ln => target ∉ ln.1) (Spec.lines ab node)) as Hnode.
  { clear above. intros node.
    induction node as [i p n v a t cs IH] using EditableNode_forall_ind.
    intros above Hne Habove. rewrite remove_node_unfold, !lines_unfold.
    cbn [id children with_children path name value attributes isText] in *.
    assert (target ∉ above ++ [i]) as Hnew.
    { rewrite not_elem_of_app, not_elem_of_cons. split_and!; [done|done|].
      apply not_elem_of_nil. }
    rewrite filter_cons_True by done. f_equal.
    induction IH as [|c cs Hc _ IHl]; [done|].
    unfold remove. rewrite filter_cons. cbn [flat_map]. rewrite filter_app.
    case_decide as Hd.
    - rewrite fmap_cons. cbn [flat_map]. rewrite (Hc _ Hd Hnew). f_equal. apply IHl.
    - rewrite (filter_none _ (Spec.lines _ c)); [apply IHl|].
      intros ln Hin Hout. apply Hout. apply (lines_above c (above ++ [i]) ln); [done|].
      apply elem_of_app. right. rewrite Hd. left. }
  intros Habove. induction l as [|c l IH]; [done|].
  unfold remove. rewrite filter_cons. cbn [flat_map]. rewrite filter_app.
  case_decide as Hd.
  - rewrite fmap_cons. cbn [flat_map]. rewrite (Hnode _ _ Hd Habove). f_equal. apply IH.
  - rewrite (filter_none _ (Spec.lines _ c)); [apply IH|].
    intros ln Hin Hout. apply Hout. apply (lines_above c above ln); [done|].
    apply elem_of_app. right. rewrite Hd. left.
Qed.

(** The lines determine the tree: after the lines of the siblings at one
    depth comes a line that is less deep, or none. *)
Lemma lines_inj (l1 l2 : list EditableNode) (above : list string)
    (r1 r2 : list (list string * EditableNode)) :
  flat_map (Spec.lines above) l1 ++ r1 = flat_map (Spec.lines above) l2 ++ r2 →
  Spec.stops (length above) r1 → Spec.stops (length above) r2 →
  l1 = l2 ∧ r1 = r2.
Proof.
  assert (∀ node, ∀ node' ab q1 q2,
            Spec.lines ab node ++ q1 = Spec.lines ab node' ++ q2 →
            Spec.stops (S (length ab)) q1 → Spec.stops (S (length ab)) q2 →
            node = node' ∧ q1 = q2) as Hnode.
  { clear. intros node.
    induction node as [i p n v a t cs IH] using EditableNode_forall_ind.
    intros [i' p' n' v' a' t' cs'] ab q1 q2. rewrite !lines_unfold.
    cbn [id children with_children path name value attributes isText].
    rewrite <- !app_comm_cons. intros [= _ <- <- <- <- <- <- Hrest] Hq1 Hq2.
    assert (cs = cs' ∧ q1 = q2) as [-> ->]; [|done].
    assert (length (ab ++ [i]) = S (length ab)) as Hlen
      by (rewrite length_app; simpl; lia).
    revert cs' Hrest. generalize dependent (ab ++ [i]). intros ab' Hlen.
    rewrite <- Hlen in Hq1, Hq2. clear Hlen.
    induction IH as [|c cs Hc _ IHl]; intros [|c' cs'] Hrest.
    - done.
    - cbn [flat_map app] in Hrest. subst q1. rewrite lines_unfold in Hq1.
      cbn [Spec.stops app fst] in Hq1. rewrite length_app in Hq1. simpl in Hq1. lia.
    - cbn [flat_map app] in Hrest. subst q2. rewrite lines_unfold in Hq2.
      cbn [Spec.stops app fst] in Hq2. rewrite length_app in Hq2. simpl in Hq2. lia.
    - cbn [flat_map] in Hrest. rewrite <- !app_assoc in Hrest.
      apply Hc in Hrest as [-> Hrest].
      + apply IHl in Hrest as [-> ->]. done.
      + destruct cs as [|d cs]; cbn [flat_map app].
        * destruct q1; [done|]. cbn [Spec.stops] in *. lia.
        * rewrite lines_unfold. cbn [Spec.stops app fst]. rewrite length_app. simpl. lia.
      + destruct cs' as [|d cs']; cbn [flat_map app].
        * destruct q2; [done|]. cbn [Spec.stops] in *. lia.
        * rewrite lines_unfold. cbn [Spec.stops app fst]. rewrite length_app. simpl. lia. }
  revert l2. induction l1 as [|c l1 IH]; intros [|c' l2] Hrest Hr1 Hr2.
  - done.
  - cbn [flat_map app] in Hrest. subst r1. rewrite lines_unfold in Hr1.
    cbn [Spec.stops app fst] in Hr1. rewrite length_app in Hr1. simpl in Hr1. lia.
  - cbn [flat_map app] in Hrest. subst r2. rewrite lines_unfold in Hr2.
    cbn [Spec.stops app fst] in Hr2. rewrite length_app in Hr2. simpl in Hr2. lia.
  - cbn [flat_map] in Hrest. rewrite <- !app_assoc in Hrest.
    apply Hnode in Hrest as [-> Hrest].
    + apply IH in Hrest as [-> ->]; done.
    + destruct l1 as [|d l1]; cbn [flat_map app].
      * destruct r1; [done|]. cbn [Spec.stops] in *. lia.
      * rewrite lines_unfold. cbn [Spec.stops app fst]. rewrite length_app. simpl. lia.
    + destruct l2 as [|d l2]; cbn [flat_map app].
      * destruct r2; [done|]. cbn [Spec.stops] in *. lia.
      * rewrite lines_unfold. cbn [Spec.stops app fst]. rewrite length_app. simpl. lia.
Qed.

Lemma listing_inj (l1 l2 : list EditableNode) :
  Spec.listing l1 = Spec.listing l2 → l1 = l2.
Proof.
  intros H. unfold Spec.listing in H.
  destruct (lines_inj l1 l2 [] [] []) as [-> _]; [by rewrite !app_nil_r|done|done|done].
Qed.

End ListingFacts.

(** X14. Deleting by identifier removes every node that carries the
    identifier, with everything below it: afterwards no node has it.  The
    nodes that remain keep their identifier, path, name, value and
    attributes and their order (nothing is reindexed); a tree without the
    identifier is left as it is, and deleting twice is deleting once.
    Line by line, the tree that results is the given tree without the lines
    that hold the identifier: a node stays, as it is and where it is, exactly
    when neither the node nor any of its ancestors carries the identifier. *)
Theorem remove_spec (tree : list Editor.EditableNode) (target : string) :
  Editor.findNodeById (Editor.remove target tree) target = None ∧
  sublist (Spec.face <$> Spec.all_nodes (Editor.remove target tree))
    (Spec.face <$> Spec.all_nodes tree) ∧
  (Editor.remove target tree = tree ↔ Editor.findNodeById tree target = None) ∧
  Editor.remove target (Editor.remove target tree) = Editor.remove target tree ∧
  Spec.listing (Editor.remove target tree) =
    filter (fun ln => target ∉ ln.1) (Spec.listing tree) ∧
  (∀ result, Spec.listing result = filter (fun ln => target ∉ ln.1) (Spec.listing tree) →
             result = Editor.remove target tree).
Proof.
  destruct (remove_faces tree target) as [Hgone Hsub].
  assert (Spec.listing (Editor.remove target tree) =
          filter (fun ln => target ∉ ln.1) (Spec.listing tree)) as Hlines
    by apply remove_lines, not_elem_of_nil.
  split_and!.
  - by apply find_None.
  - done.
  - split.
    + intros <-. by apply find_None.
    + intros Hn. by apply remove_absent, find_None.
  - by apply remove_absent.
  - done.
  - intros result Hr. apply listing_inj. by rewrite Hr.
Qed.

Section ValueFacts.
Import Editor.

Variables (target v : string).

Lemma find_update_value (l : list EditableNode) :
  findNodeById (update_value target v l) target =
  (fun n => with_value n v) <$> findNodeById l target.
Proof.
  assert (∀ node, findNodeById_node (update_value_node target v node) target =
                  (fun n => with_value n v) <$> findNodeById_node node target) as Hnode.
  { intros node. induction node as [i p n w a t cs IH] using EditableNode_forall_ind.
    rewrite update_value_node_unfold, (findNodeById_node_unfold (mkNode _ _ _ _ _ _ _)).
    cbn [id children]. destruct (decide (i = target)) as [Hi|Hi].
    - rewrite findNodeById_node_unfold. cbn [with_value id]. by rewrite decide_True.
    - rewrite findNodeById_node_unfold. cbn [with_children id children].
      rewrite decide_False by done. unfold update_value.
      induction IH as [|c cs Hc _ IHl]; [done|].
      rewrite fmap_cons. cbn [findNodeById]. rewrite Hc.
      destruct (findNodeById_node c target); [done|]. apply IHl. }
  induction l as [|c l IH]; [done|].
  unfold update_value. rewrite fmap_cons. cbn [findNodeById]. rewrite Hnode.
  destruct (findNodeById_node c target); [done|]. apply IH.
Qed.

Lemma find_update_value_other (other : string) (l : list EditableNode) :
  other ≠ target →
  value <$> findNodeById (update_value target v l) other =
  value <$> findNodeById l other.
Proof.
  intros Hne.
  assert (∀ node, value <$> findNodeById_node (update_value_node target v node) other =
                  value <$> findNodeById_node node other) as Hnode.
  { intros node. induction node as [i p n w a t cs IH] using EditableNode_forall_ind.
    rewrite update_value_node_unfold, (findNodeById_node_unfold (mkNode _ _ _ _ _ _ _)).
    cbn [id children]. destruct (decide (i = target)) as [Hi|Hi].
    - rewrite findNodeById_node_unfold. cbn [with_value id children].
      subst i. by rewrite !decide_False by done.
    - rewrite findNodeById_node_unfold. cbn [with_children id children].
      destruct (decide (i = other)); [done|]. unfold update_value.
      induction IH as [|c cs Hc _ IHl]; [done|].
      rewrite fmap_cons. cbn [findNodeById].
      destruct (findNodeById_node (update_value_node target v c) other),
               (findNodeById_node c other); try done. }
  induction l as [|c l IH]; [done|].
  unfold update_value. rewrite fmap_cons. cbn [findNodeById].
  specialize (Hnode c).
  destruct (findNodeById_node (update_value_node target v c) other),
           (findNodeById_node c other); try done.
Qed.

Lemma update_value_frames (l : list EditableNode) :
  Spec.frame <$> Spec.all_nodes (update_value target v l) =
  Spec.frame <$> Spec.all_nodes l.
Proof.
  assert (∀ node, Spec.frame <$> Spec.nodes_of (update_value_node target v node) =
                  Spec.frame <$> Spec.nodes_of node) as Hnode.
  { intros node. induction node as [i p n w a t cs IH] using EditableNode_forall_ind.
    rewrite update_value_node_unfold. cbn [id children].
    destruct (decide (i = target)) as [Hi|Hi]; [done|].
    rewrite !nodes_of_unfold, !fmap_cons. cbn [with_children children]. f_equal.
    unfold update_value. induction IH as [|c cs Hc _ IHl]; [done|].
    rewrite fmap_cons, !all_nodes_cons, !fmap_app. by rewrite Hc, IHl. }
  induction l as [|c l IH]; [done|].
  unfold update_value. rewrite fmap_cons, !all_nodes_cons, !fmap_app.
  by rewrite Hnode, <- IH.
Qed.

Lemma update_value_twice (v' : string) (l : list EditableNode) :
  update_value target v' (update_value target v l) = update_value target v' l.
Proof.
  assert (∀ node, update_value_node target v' (update_value_node target v node) =
                  update_value_node target v' node) as Hnode.
  { intros node. induction node as [i p n w a t cs IH] using EditableNode_forall_ind.
    rewrite (update_value_node_unfold target v),
      (update_value_node_unfold target v' (mkNode _ _ _ _ _ _ _)).
    cbn [id children]. destruct (decide (i = target)) as [Hi|Hi].
    - rewrite update_value_node_unfold. cbn [with_value id]. by rewrite decide_True.
    - rewrite update_value_node_unfold. cbn [with_children id children].
      rewrite decide_False by done. cbn [path name value attributes isText]. f_equal.
      unfold update_value. induction IH as [|c cs Hc _ IHl]; [done|].
      rewrite !fmap_cons. by rewrite Hc, IHl. }
  induction l as [|c l IH]; [done|].
  unfold update_value in *. rewrite !fmap_cons. by rewrite Hnode, IH.
Qed.

End ValueFacts.

(** X15. Editing a value changes values only.  After [updateNodeValue] the
    node found under the identifier is the node found before with the new
    value, stored as typed (untrimmed); the identifiers, paths, names and
    attributes of all nodes and their order are unchanged; a node found
    under any other identifier keeps its value; and of two edits of the
    same node the last one wins. *)
Theorem update_value_spec (tree : list Editor.EditableNode) (target v : string) :
  Editor.findNodeById (Editor.update_value target v tree) target =
    (fun n => Editor.with_value n v) <$> Editor.findNodeById tree target ∧
  Spec.frame <$> Spec.all_nodes (Editor.update_value target v tree) =
    Spec.frame <$> Spec.all_nodes tree ∧
  (∀ other, other ≠ target →
     Editor.value <$> Editor.findNodeById (Editor.update_value target v tree) other =
     Editor.value <$> Editor.findNodeById tree other) ∧
  (∀ v', Editor.update_value target v' (Editor.update_value target v tree) =
         Editor.update_value target v' tree).
Proof.
  split_and!.
  - apply find_update_value.
  - apply update_value_frames.
  - intros other Hne. by apply find_update_value_other.
  - intros v'. apply update_value_twice.
Qed.

Section AttributeFacts.
Import Editor.







End AttributeFacts.



(** ** Duplicating: which branch runs *)

Section DuplicateFacts.
Import Editor.

Variable target : string.

Lemma parents_None_node (node : EditableNode) :
  ∀ pl, findParentNodes_node node target pl = None ↔ findNodeById_node node target = None.
Proof.
  induction node as [i p n v a t cs IH] using EditableNode_forall_ind. intros pl.
  rewrite findParentNodes_node_unfold, findNodeById_node_unfold. cbn [id children].
  case_decide; [done|].
  generalize (pl ++ [mkNode i p n v a t cs]). intros pl'.
  induction IH as [|c cs Hc _ IHl]; [done|].
  cbn [findParentNodes findNodeById]. specialize (Hc pl').
  destruct (findParentNodes_node c target pl'), (findNodeById_node c target);
    try done; naive_solver.
Qed.

Lemma parents_None (l : list EditableNode) (pl : list EditableNode) :
  findParentNodes l target pl = None ↔ findNodeById l target = None.
Proof.
  induction l as [|c l IH]; [done|].
  cbn [findParentNodes findNodeById]. pose proof (parents_None_node c pl) as Hc.
  destruct (findParentNodes_node c target pl), (findNodeById_node c target);
    try done; naive_solver.
Qed.

(** The list returned extends the list passed, and is the list passed
    exactly when the search stops at the node it starts from. *)
Lemma parents_extend_node (node : EditableNode) :
  ∀ pl pl', findParentNodes_node node target pl = Some pl' →
            (id node = target ∧ pl' = pl) ∨
            (id node ≠ target ∧ ∃ anc, pl' = pl ++ node :: anc).
Proof.
  induction node as [i p n v a t cs IH] using EditableNode_forall_ind. intros pl pl'.
  rewrite findParentNodes_node_unfold. cbn [id children].
  case_decide as Hd; [intros [= <-]; by left|].
  intros Hf. right. split; [done|].
  revert Hf. generalize (mkNode i p n v a t cs). intros me.
  induction IH as [|c cs Hc _ IHl]; [done|].
  cbn [findParentNodes].
  destruct (findParentNodes_node c target (pl ++ [me])) as [found|] eqn:Hp.
  - intros [= <-]. apply Hc in Hp as [[_ ->]|[_ [anc ->]]].
    + by exists [].
    + exists (c :: anc). by rewrite <- app_assoc.
  - apply IHl.
Qed.

Lemma parents_top (l : list EditableNode) (pl pl' : list EditableNode) :
  findParentNodes l target pl = Some pl' →
  (pl' = pl ∧ ∃ pre node rest, l = pre ++ node :: rest ∧ id node = target ∧
                               findNodeById pre target = None) ∨
  (∃ parent anc, pl' = pl ++ anc ++ [parent]).
Proof.
  induction l as [|c l IH]; [done|].
  cbn [findParentNodes].
  destruct (findParentNodes_node c target pl) as [found|] eqn:Hp.
  - intros [= <-]. apply parents_extend_node in Hp as [[Hid ->]|[_ [anc ->]]].
    + left. split; [done|]. by exists [], c, l.
    + right. destruct (last (c :: anc)) as [parent|] eqn:Hl.
      * apply last_Some in Hl as [anc' ->]. by exists parent, anc'.
      * by apply last_None in Hl.
  - intros Hf. apply IH in Hf as [[-> (pre & node & rest & -> & Hid & Hpre)]|Hr].
    + left. split; [done|]. exists (c :: pre), node, rest. split; [done|]. split; [done|].
      cbn [findNodeById]. apply parents_None_node in Hp. by rewrite Hp.
    + by right.
Qed.

Lemma parents_of_top (pre rest : list EditableNode) (node : EditableNode)
    (pl : list EditableNode) :
  id node = target → findNodeById pre target = None →
  findParentNodes (pre ++ node :: rest) target pl = Some pl.
Proof.
  intros Hid. induction pre as [|c pre IH]; cbn [app findParentNodes findNodeById].
  - intros _. rewrite findParentNodes_node_unfold. by rewrite decide_True.
  - destruct (findNodeById_node c target) eqn:Hf; [done|].
    apply (parents_None_node c pl) in Hf. rewrite Hf. apply IH.
Qed.

End DuplicateFacts.

(** X17. Which branch of [duplicatePath] runs.  The tree is left alone
    exactly when no node carries the identifier.  The call fails with a
    [TypeError] exactly when the first node that carries the identifier,
    in document order, is a top-level node: its list of parents is empty,
    not [null], so the branch written for the root level never runs and
    the child branch reads the identifier of a missing parent.  In every
    other case the copy is added among the children of the nearest parent
    and the whole tree is reindexed. *)
Theorem duplicatePath_branches (tree : list Editor.EditableNode) (target : string) :
  (Editor.duplicatePath tree target = Editor.Unchanged ↔
   Editor.findNodeById tree target = None) ∧
  (Editor.duplicatePath tree target = Editor.TypeError ↔
   ∃ pre node rest, tree = pre ++ node :: rest ∧ Editor.id node = target ∧
                    Editor.findNodeById pre target = None) ∧
  (∀ result, Editor.duplicatePath tree target = Editor.SetTree result →
     ∃ source ancestors parent,
       Editor.findNodeById tree target = Some source ∧
       Editor.findParentNodes tree target [] = Some (ancestors ++ [parent]) ∧
       result =
         Editor.regenerateIds (Editor.update source (Editor.id parent) tree) "" ∅).
Proof.
  unfold Editor.duplicatePath.
  destruct (Editor.findNodeById tree target) as [source|] eqn:Hfind.
  - destruct (Editor.findParentNodes tree target []) as [pl|] eqn:Hp.
    2:{ apply parents_None in Hp. congruence. }
    destruct (parents_top target tree [] pl Hp)
      as [[-> (pre & node & rest & -> & Hid & Hpre)]|(parent & anc & ->)].
    + cbn [last]. split_and!; [done| |done].
      split; [|done]. intros _. by exists pre, node, rest.
    + cbn [app]. rewrite last_snoc. split_and!; [done| |].
      * split; [done|]. intros (pre & node & rest & -> & Hid & Hpre).
        rewrite (parents_of_top target pre rest node [] Hid Hpre) in Hp.
        injection Hp as Hp. by destruct anc.
      * intros result [= <-]. by exists source, anc, parent.
  - split_and!; [done| |done].
    split; [done|]. intros (pre & node & rest & -> & Hid & Hpre).
    assert (Editor.findParentNodes (pre ++ node :: rest) target [] = None) as Hn
      by (by apply parents_None).
    by rewrite (parents_of_top target pre rest node [] Hid Hpre) in Hn.
Qed.

(** ** Duplicating: what the new tree is *)

Section CopyFacts.
Import Editor.








(** *** The name and the index of the copy *)













(** *** The parent that is found *)


End CopyFacts.



(** ** The tree the builder returns is indexed already *)

Section BuilderFacts.
Import Xml Editor.

Lemma build_node_name (el : Element) (cp fpp : string) :
  Editor.name (build_node el cp fpp) = or_else (Xml.name el) "unnamed".
Proof. by destruct el as [t n a x cd [l|]]. Qed.

Lemma regenerate_build_node (el : Element) :
  ∀ cp fpp, regenerate_node (build_node el cp fpp) cp = build_node el cp fpp.
Proof.
  induction el as [t n a x cd|t n a x cd l IH] using Element_forall_ind; intros cp fpp;
    [done|].
  rewrite regenerate_node_unfold, buildEditableTree_unfold.
  cbn [Editor.name Editor.value Editor.attributes Editor.isText Editor.children
       elements from_option]. f_equal.
  unfold buildEditableTree. rewrite build_each_filter. generalize (∅ : Js.counters).
  induction IH as [|c l Hc _ IHl]; intros counts; [done|].
  unfold Datatypes.id. cbn [build_each].
  destruct (is_element c); cbn [negb]; [|apply IHl].
  cbn [regenerateIds]. rewrite build_node_name, Hc. f_equal. apply IHl.
Qed.

Lemma regenerate_build_each (l : list Element) (p pp : string) (counts : Js.counters) :
  regenerateIds (build_each l p pp counts) p counts = build_each l p pp counts.
Proof.
  revert counts. induction l as [|c l IH]; intros counts; [done|].
  cbn [build_each]. destruct (is_element c); cbn [negb]; [|apply IH].
  cbn [regenerateIds]. rewrite build_node_name, regenerate_build_node. f_equal. apply IH.
Qed.

Lemma regenerate_id_path (l : list EditableNode) (p : string) (counts : Js.counters) :
  Forall (fun n => Editor.id n = Editor.path n) (Spec.all_nodes (regenerateIds l p counts)).
Proof.
  assert (∀ node cp, Forall (fun n => Editor.id n = Editor.path n)
                       (Spec.nodes_of (regenerate_node node cp))) as Hnode.
  { intros node. induction node as [i q n v a t cs IH] using EditableNode_forall_ind.
    intros cp. rewrite regenerate_node_unfold, nodes_of_unfold.
    cbn [Editor.name Editor.value Editor.attributes Editor.isText Editor.children].
    constructor; [done|]. generalize (∅ : Js.counters).
    induction IH as [|c cs Hc _ IHl]; intros counts'; [constructor|].
    cbn [regenerateIds]. rewrite all_nodes_cons. apply Forall_app. split; [apply Hc|apply IHl]. }
  revert counts. induction l as [|c l IH]; intros counts; [constructor|].
  cbn [regenerateIds]. rewrite all_nodes_cons. apply Forall_app. split; [apply Hnode|apply IH].
Qed.

End BuilderFacts.

(** X18. The tree that [buildEditableTree] returns is indexed already:
    reindexing it with [regenerateIds] under the same parent path returns
    the same tree, and every node of it has its path as identifier.  Paths
    assigned on load and paths assigned after an edit are therefore drawn
    from the same numbering. *)
Theorem regenerateIds_buildEditableTree (rootElements : option (list Xml.Element))
    (path parentPath : string) :
  Editor.regenerateIds (Editor.buildEditableTree rootElements path parentPath) path ∅ =
    Editor.buildEditableTree rootElements path parentPath ∧
  Forall (fun n => Editor.id n = Editor.path n)
    (Spec.all_nodes (Editor.buildEditableTree rootElements path parentPath)).
Proof.
  assert (Editor.regenerateIds (Editor.buildEditableTree rootElements path parentPath) path ∅ =
          Editor.buildEditableTree rootElements path parentPath) as Heq.
  { destruct rootElements as [l|]; [|done]. apply regenerate_build_each. }
  split; [done|]. rewrite <- Heq. apply regenerate_id_path.
Qed.

(** ** The editor's paths are the flattener's paths *)

Section PathAgreement.
Import Xml Editor.

Lemma settled_empty : Spec.settled ∅.
Proof. intros k v. unfold Js.counters. by rewrite lookup_empty. Qed.

Lemma settled_get (c : Js.counters) (k : string) :
  Spec.settled c → Js.get c k ≠ Js.JNaN ∧ Js.get c k ≠ Js.JStr "".
Proof.
  intros Hc. unfold Js.get. destruct (c !! k) as [v|] eqn:Hk.
  - exact (Hc k v Hk).
  - by destruct (Js.inherited k).
Qed.

Lemma settled_agree (c : Js.counters) (k : string) :
  Spec.settled c → Js.nullish_or_zero (Js.get c k) = Js.falsy_or_zero (Js.get c k).
Proof.
  intros Hc. destruct (settled_get c k Hc) as [Hn He].
  destruct (Js.get c k) as [| |[|n]|[|a s]|r]; done.
Qed.

Lemma settled_set (c : Js.counters) (k : string) :
  Spec.settled c → Spec.settled (Js.set c k (next_count c k)).
Proof.
  intros Hc. unfold Js.set. case_decide; [done|].
  intros k' v'. unfold Js.counters in *.
  destruct (decide (k = k')) as [->|Hne].
  - rewrite lookup_insert_eq. intros [= <-]. unfold next_count.
    rewrite <- settled_agree by done.
    destruct (settled_get c k' Hc) as [Hn He].
    destruct (Js.get c k') as [| |n|[|a s]|[|a r]]; done.
  - rewrite lookup_insert_ne by done. apply Hc.
Qed.

Lemma join_snoc (q : list string) (x : string) :
  q ≠ [] → Js.join "." (q ++ [x]) = Js.join "." q +:+ "." +:+ x.
Proof.
  induction q as [|a [|b q] IH]; intros Hq; [done|done|].
  specialize (IH ltac:(done)).
  change (a +:+ "." +:+ Js.join "." ((b :: q) ++ [x]) =
          (a +:+ "." +:+ Js.join "." (b :: q)) +:+ "." +:+ x).
  by rewrite IH, !append_assoc.
Qed.

Lemma join_segment (q : list string) (nm : string) (idx : Js.value) :
  q = [] ∨ Js.truthy_string (Js.join "." q) = true →
  Js.join "." (q ++ [Worker.segment nm idx]) = indexed_path (Js.join "." q) nm idx.
Proof.
  unfold indexed_path, Worker.segment. intros [->|Hq]; [done|].
  rewrite Hq. rewrite join_snoc; [done|]. by intros ->.
Qed.

Lemma node_is_element (n : EditableNode) : is_element (buildXmlFromEditable_node n) = true.
Proof. by destruct n. Qed.

Lemma node_elements (n : EditableNode) :
  elements (buildXmlFromEditable_node n) =
  Some ((if Js.truthy_string (Editor.value n)
         then [mkElement type_text None None (Some (Editor.value n)) None None] else []) ++
        buildXmlFromEditable (Editor.children n)).
Proof. by destruct n. Qed.

Lemma node_own_entries (n : EditableNode) (P : string) :
  Spec.own_entries P (buildXmlFromEditable_node n) =
  Spec.node_entries (regenerate_node n P).
Proof.
  unfold Spec.own_entries, Spec.node_entries.
  rewrite regenerate_node_unfold. cbn [Editor.path Editor.attributes Editor.value].
  assert (Worker.extractText (elements (buildXmlFromEditable_node n)) =
          Js.trim (Editor.value n)) as ->.
  { rewrite node_elements, extractText_fields, text_fields_app.
    rewrite (text_fields_elements (buildXmlFromEditable _)).
    - rewrite append_empty_r. destruct (Editor.value n) as [|a v]; [done|].
      change (Js.trim (String a v +:+ "") = Js.trim (String a v)).
      by rewrite append_empty_r.
    - apply Forall_fmap, Forall_forall. intros c _. apply node_is_element. }
  f_equal. destruct n as [i p nm v a t cs].
  cbn [buildXmlFromEditable_node attributes Editor.attributes].
  case_decide as Hd; [done|]. destruct a; [done|cbn in Hd; lia].
Qed.

Lemma node_below (n : EditableNode) (q : list string) :
  Spec.below (buildXmlFromEditable_node n) q =
  Spec.traversal (Spec.labelled q ∅ (buildXmlFromEditable (Editor.children n))).
Proof.
  rewrite below_unfold, node_elements. cbn [from_option].
  unfold Datatypes.id. by rewrite labelled_text_head.
Qed.

Lemma flat_map_Permutation {A B} (f g : A → list B) (l : list A) :
  Forall (fun x => f x ≡ₚ g x) l → flat_map f l ≡ₚ flat_map g l.
Proof.
  induction 1 as [|x l Hx _ IH]; [done|]. cbn [flat_map]. by rewrite Hx, IH.
Qed.

Lemma paths_agree_list (l : list EditableNode) :
  Forall (fun n => ∀ q', Js.truthy_string (Js.join "." q') = true →
            Spec.traversal (Spec.labelled q' ∅ (buildXmlFromEditable (Editor.children n))) ≡ₚ
            flat_map Spec.node_entries
              (Spec.all_nodes (regenerateIds (Editor.children n) (Js.join "." q') ∅))) l →
  ∀ q c, Spec.settled c → q = [] ∨ Js.truthy_string (Js.join "." q) = true →
    Spec.traversal (Spec.labelled q c (buildXmlFromEditable l)) ≡ₚ
    flat_map Spec.node_entries (Spec.all_nodes (regenerateIds l (Js.join "." q) c)).
Proof.
  induction 1 as [|n l Hn _ IH]; intros q c Hc Hq; [done|].
  unfold buildXmlFromEditable. rewrite fmap_cons. cbn [Spec.labelled regenerateIds].
  rewrite node_is_element. cbn [negb].
  assert (default "unnamed" (Xml.name (buildXmlFromEditable_node n)) = Editor.name n)
    as Hname by (by destruct n).
  assert (Spec.next_index c (buildXmlFromEditable_node n) = next_count c (Editor.name n))
    as Hidx.
  { unfold Spec.next_index, next_count. by rewrite Hname, settled_agree. }
  rewrite Hname, Hidx, traversal_cons.
  rewrite all_nodes_cons, nodes_of_unfold, regenerate_node_unfold.
  cbn [Editor.children]. cbn [flat_map app]. rewrite flat_map_app.
  rewrite <- (regenerate_node_unfold n).
  unfold Spec.own_of, Spec.below_of. cbn [fst snd].
  rewrite (join_segment q _ _ Hq), node_own_entries, node_below.
  apply Permutation_app_head. apply Permutation_app.
  - rewrite Hn.
    + by rewrite (join_segment q _ _ Hq).
    + rewrite (join_segment q _ _ Hq). apply indexed_path_truthy.
  - apply IH; [by apply settled_set|done].
Qed.

Lemma paths_agree_node (n : EditableNode) :
  ∀ q', Js.truthy_string (Js.join "." q') = true →
    Spec.traversal (Spec.labelled q' ∅ (buildXmlFromEditable (Editor.children n))) ≡ₚ
    flat_map Spec.node_entries
      (Spec.all_nodes (regenerateIds (Editor.children n) (Js.join "." q') ∅)).
Proof.
  induction n as [i p nm v a t cs IH] using EditableNode_forall_ind. intros q' Hq'.
  cbn [Editor.children]. apply paths_agree_list; [done|apply settled_empty|by right].
Qed.

End PathAgreement.

(** X19. The paths of the editor are the keys of the comparison.  The
    flattener, run on the document that [buildXmlFromEditable] makes of an
    editable tree, writes for every node of the tree, indexed as
    [regenerateIds] indexes it, the attributes and the trimmed value of
    the node under the node's own path, and writes nothing else: the
    entries written are those of the nodes, each once. *)
Theorem editor_paths_are_flat_keys (b s : Z) (tree : list Editor.EditableNode) :
  ∃ st written,
    Worker.flatten b s (Some (Editor.buildXmlFromEditable tree)) = Some st ∧
    Worker.collector st = Spec.write_all written [] ∧
    written ≡ₚ
      flat_map Spec.node_entries (Spec.all_nodes (Editor.regenerateIds tree "" ∅)).
Proof.
  destruct (flatten_total b s (Some (Editor.buildXmlFromEditable tree))) as [st Hst].
  exists st, (Spec.traversal (Spec.labelled [] ∅ (Editor.buildXmlFromEditable tree))).
  split; [done|]. split; [exact (flatten_collector b s _ _ Hst)|].
  apply (paths_agree_list tree); [|apply settled_empty|by left].
  apply Forall_forall. intros n _. apply paths_agree_node.
Qed.

(** ** The report export *)

Section ExportFacts.
Import Exports.

Lemma read_escape (f rest field : string) (record : list string)
    (records : list (list string)) :
  Spec.read_quoted (escape f +:+ rest) Spec.Inside field record records =
  Spec.read_quoted rest Spec.Inside (field +:+ f) record records.
Proof.
  revert field. induction f as [|c f IH]; intros field.
  - by rewrite append_empty_r.
  - cbn [escape]. destruct (decide (c = quote)) as [->|Hc].
    + rewrite !append_cons. cbn [Spec.read_quoted]. rewrite !decide_True by done.
      rewrite IH. by rewrite append_assoc.
    + rewrite append_cons. cbn [Spec.read_quoted]. rewrite decide_False by done.
      rewrite IH. by rewrite append_assoc.
Qed.

Lemma read_cell (f rest : string) (record : list string) (records : list (list string)) :
  Spec.read_quoted (cell f +:+ rest) Spec.Opening "" record records =
  Spec.read_quoted rest Spec.Quoted f record records.
Proof.
  unfold cell. rewrite append_cons, append_assoc. cbn [Spec.read_quoted].
  rewrite decide_True by done. rewrite read_escape.
  rewrite append_cons. cbn [Spec.read_quoted]. by rewrite decide_True.
Qed.

Lemma read_line (init : list string) (f rest : string) (record : list string)
    (records : list (list string)) :
  Spec.read_quoted (line (init ++ [f]) +:+ rest) Spec.Opening "" record records =
  Spec.read_quoted rest Spec.Quoted f (record ++ init) records.
Proof.
  unfold line. revert record. induction init as [|x init IH]; intros record.
  - cbn [app fmap list_fmap Js.join]. by rewrite read_cell, app_nil_r.
  - cbn [app]. rewrite fmap_cons, join_cons.
    destruct (cell <$> init ++ [f]) as [|y ys] eqn:Hys; [by destruct init|].
    rewrite <- Hys, !append_assoc, read_cell.
    rewrite append_cons. cbn [Spec.read_quoted].
    rewrite decide_False by done. rewrite decide_True by done.
    change ("" +:+ ?x) with x.
    rewrite Hys, IH. by rewrite <- app_assoc.
Qed.

Lemma read_lines (rs : list (list string * string)) (records : list (list string)) :
  rs ≠ [] →
  Spec.read_quoted (Js.join (String newline "") ((fun r => line (r.1 ++ [r.2])) <$> rs))
    Spec.Opening "" [] records =
  Some (records ++ ((fun r => r.1 ++ [r.2]) <$> rs)).
Proof.
  revert records. induction rs as [|[init f] rs IH]; intros records Hne; [done|].
  rewrite !fmap_cons, join_cons. cbn [fst snd].
  destruct rs as [|r' rs].
  - cbn [fmap list_fmap]. rewrite read_line. done.
  - specialize (IH (records ++ [init ++ [f]]) ltac:(done)).
    set (L := (fun r : list string * string => line (r.1 ++ [r.2])) <$> r' :: rs) in *.
    destruct L as [|l0 L'] eqn:HL; [done|].
    rewrite read_line, append_cons. cbn [Spec.read_quoted].
    rewrite !decide_False by done. rewrite decide_True by done.
    change ("" +:+ ?x) with x. cbn [app].
    rewrite IH. by rewrite <- app_assoc.
Qed.

Lemma append_inv_head (a x y : string) : a +:+ x = a +:+ y → x = y.
Proof.
  induction a as [|c a IH]; [done|]. rewrite !append_cons. intros [= H]. by apply IH.
Qed.

End ExportFacts.

(** X20. The CSV export loses nothing.  The text consists of the header
    line followed, when there are records, by one line feed and the
    records; reading the records back as quoted, comma-separated fields
    gives, for every difference in order, its four cells: path, capitalised
    status and the two values, a missing value as a dash, whatever commas,
    quotes and line feeds the values contain.  Two reports with the same
    text therefore have the same rows. *)
Theorem csvContent_round_trip (diffs : list Worker.Diff) :
  (∃ body,
     Exports.csvContent diffs =
       "Path,Status,Left Value,Right Value" +:+
       match diffs with [] => "" | _ => String Exports.newline body end ∧
     Spec.read_records body = Some (Exports.row <$> diffs)) ∧
  (∀ diffs', Exports.csvContent diffs' = Exports.csvContent diffs →
             Exports.row <$> diffs' = Exports.row <$> diffs) ∧
  (∀ d, Exports.row d =
        [Worker.path d;
         match Worker.change d with
         | Worker.added => "Added"
         | Worker.removed => "Removed"
         | Worker.changed => "Changed"
         end;
         match Worker.leftValue d with Js.JUndefined => "—" | v => Js.to_string v end;
         match Worker.rightValue d with Js.JUndefined => "—" | v => Js.to_string v end]).
Proof.
  assert (∀ ds, ∃ body,
            Exports.csvContent ds =
              "Path,Status,Left Value,Right Value" +:+
              match ds with [] => "" | _ => String Exports.newline body end ∧
            Spec.read_records body = Some (Exports.row <$> ds)) as Hread.
  { intros ds. unfold Exports.csvContent. rewrite join_cons.
    destruct ds as [|d ds]; [by exists ""|].
    assert (Spec.read_quoted
              (Js.join (String Exports.newline "")
                 (Exports.line <$> (Exports.row <$> (d :: ds))))
              Spec.Opening "" [] [] = Some (Exports.row <$> (d :: ds))) as Hr.
    { pose proof (read_lines
                    ((fun d => ([Worker.path d;
                                 Exports.capitalize (Exports.kind_name (Worker.change d));
                                 Exports.or_dash (Worker.leftValue d)],
                                Exports.or_dash (Worker.rightValue d))) <$> (d :: ds))
                    [] ltac:(by rewrite fmap_cons)) as Hr.
      rewrite <- !list_fmap_compose in Hr. rewrite <- list_fmap_compose. exact Hr. }
    exists (Js.join (String Exports.newline "")
              (Exports.line <$> (Exports.row <$> (d :: ds)))).
    split; [done|]. unfold Spec.read_records.
    destruct (Js.join _ _); [by cbn in Hr|exact Hr]. }
  split; [apply Hread|]. split; [|intros [p [] [] []]; reflexivity].
  intros diffs' Heq.
  destruct (Hread diffs) as (body & Hc & Hb), (Hread diffs') as (body' & Hc' & Hb').
  rewrite Hc, Hc' in Heq. apply append_inv_head in Heq.
  destruct diffs as [|d ds], diffs' as [|d' ds']; try done.
  injection Heq as ->. congruence.
Qed.

(** ** The comparison view and the worker *)

Section CompareFacts.
Import App.

Lemma deliver_app (u : ui) (l1 l2 : list Worker.WorkerResponse) :
  deliver u (l1 ++ l2) = deliver (deliver u l1) l2.
Proof. apply fold_left_app. Qed.

(** Progress messages move the progress bar and nothing else. *)
Lemma deliver_progress (msgs : list Worker.WorkerResponse) (u : ui) :
  Forall (fun m => Spec.is_progress m = true) msgs → listening u = true →
  ∃ pr, deliver u msgs =
        mkUi (isComparing u) (leftError u) (rightError u) (differences u) (stats u)
          pr (lastRun u) true.
Proof.
  intros Hall. revert u. induction Hall as [|m msgs Hm _ IH]; intros u Hu.
  - exists (progress u). destruct u. cbn in *. by subst.
  - cbn [deliver fold_left]. rewrite Hu.
    destruct m as [ph p msg| |]; try done.
    destruct (IH (onMessage (Worker.WorkerProgress ph p msg) u) Hu) as [pr Hpr].
    exists pr. exact Hpr.
Qed.

End CompareFacts.

(** X21. A comparison always comes to rest.  After a click on Compare and
    the delivery of the worker's messages the view is no longer comparing,
    shows no progress and has detached its listeners.  If either parse
    error has a non-empty message, the two error fields hold the parser's
    messages and the list of differences is empty with zero counts;
    otherwise both error fields are clear and the view shows exactly the
    records and counts that [diffMaps] returns for the two flattenings. *)
Theorem compare_settles (xml2js : string → Xml.parse_result)
    (localeCompare : string → string → Z) (leftXml rightXml : string) (u : App.ui) :
  ∃ l r u',
    Worker.mapXmlToFlat xml2js leftXml 0 45 = Some l ∧
    Worker.mapXmlToFlat xml2js rightXml 45 45 = Some r ∧
    App.compare xml2js localeCompare leftXml rightXml u = Some u' ∧
    App.isComparing u' = false ∧ App.progress u' = None ∧ App.listening u' = false ∧
    if Worker.truthy (Spec.thrown (xml2js leftXml)) ||
       Worker.truthy (Spec.thrown (xml2js rightXml))
    then App.leftError u' = Spec.thrown (xml2js leftXml) ∧
         App.rightError u' = Spec.thrown (xml2js rightXml) ∧
         App.differences u' = [] ∧ App.stats u' = Worker.mkStats 0 0 0 ∧
         App.lastRun u' = App.lastRun u
    else App.leftError u' = None ∧ App.rightError u' = None ∧
         (App.differences u', App.stats u') =
           Worker.diffMaps localeCompare (Worker.result_map l.1) (Worker.result_map r.1) ∧
         App.lastRun u' = true.
Proof.
  destruct (onmessage_shape xml2js localeCompare leftXml rightXml)
    as (l & r & prog & terminal & Hl & Hr & Hmsgs & Hprog & _ & Hterm).
  exists l, r. unfold App.compare. rewrite Hmsgs. cbn [mbind option_bind].
  eexists. split; [done|]. split; [done|]. split; [done|].
  rewrite deliver_app.
  destruct (deliver_progress prog (App.handleCompare u) Hprog eq_refl) as [pr ->].
  cbn [App.handleCompare App.isComparing App.leftError App.rightError App.differences
       App.stats App.lastRun].
  cbn [App.deliver fold_left App.listening]. rewrite Hterm.
  destruct (Worker.truthy (Spec.thrown (xml2js leftXml)) ||
            Worker.truthy (Spec.thrown (xml2js rightXml))); cbn; split_and!; try done.
  by destruct (Worker.diffMaps _ _ _).
Qed.

(** ** Further facts on the history, the search, the counts and reindexing *)

Section MoreFacts.
Import Editor.

Lemma head_app {A} (l1 l2 : list A) :
  head (l1 ++ l2) = match head l1 with Some x => Some x | None => head l2 end.
Proof. by destruct l1. Qed.

Lemma find_node_first (target : string) (node : EditableNode) :
  findNodeById_node node target =
  head (filter (fun n => id n = target) (Spec.nodes_of node)).
Proof.
  induction node as [i p n v a t cs IH] using EditableNode_forall_ind.
  rewrite findNodeById_node_unfold, nodes_of_unfold, filter_cons. cbn [id children].
  case_decide; [done|].
  induction IH as [|c cs Hc _ IHl]; [done|].
  cbn [findNodeById]. rewrite all_nodes_cons, filter_app, head_app, <- Hc.
  destruct (findNodeById_node c target); [done|apply IHl].
Qed.

Lemma count_kinds_total (l : list Worker.Diff) :
  (Spec.count_kind Worker.added l + Spec.count_kind Worker.removed l +
   Spec.count_kind Worker.changed l)%nat = length l.
Proof.
  unfold Spec.count_kind. induction l as [|d l IH]; [done|].
  rewrite !filter_cons. destruct d as [p lv rv []]; cbn [Worker.change];
    repeat (case_decide; try done); cbn [length]; lia.
Qed.

Lemma serialize_strip_node (node : EditableNode) :
  buildXmlFromEditable_node (Spec.strip node) = buildXmlFromEditable_node node.
Proof.
  induction node as [i p n v a t cs IH] using EditableNode_forall_ind.
  cbn [Spec.strip buildXmlFromEditable_node name value attributes children].
  do 3 f_equal. induction IH as [|c cs Hc _ IHl]; [done|]. by rewrite Hc, IHl.
Qed.

Lemma serialize_strip (l : list EditableNode) :
  buildXmlFromEditable (Spec.strip <$> l) = buildXmlFromEditable l.
Proof.
  unfold buildXmlFromEditable. induction l as [|c l IH]; [done|].
  rewrite !fmap_cons. by rewrite serialize_strip_node, IH.
Qed.

End MoreFacts.

(** X22. The history follows the tree.  After every edit the tree on
    screen is the history entry at the index, and an undo or a redo from
    such a state leads to such a state: what undo and redo show is always
    an entry of the history. *)
Theorem history_tracks_tree (s : Editor.session) (t : list Editor.EditableNode) :
  Spec.consistent s →
  Spec.current (Editor.commit t s) ∧
  (∀ s', Editor.undo s = Some s' → Spec.current s → Spec.current s') ∧
  (∀ s', Editor.redo s = Some s' → Spec.current s → Spec.current s').
Proof.
  intros Hs. pose proof Hs as Hc.
  apply consistent_view in Hs as (n & Hidx & Hn & H0 & Hu & Hr).
  split_and!.
  - rewrite (commit_view s t n Hidx Hn). unfold Spec.current.
    destruct (decide (n = 50%nat)) as [->|Hne];
      cbn [Editor.tree Editor.history Editor.historyIndex].
    + split; [lia|]. change (Z.to_nat 49) with 49%nat.
      assert (length (tail (Editor.history s)) = 49%nat) as Hl.
      { destruct (Editor.history s); cbn in *; lia. }
      rewrite lookup_app_r by lia. rewrite Hl. done.
    + split; [lia|]. rewrite Nat2Z.id.
      rewrite lookup_app_r by (rewrite length_take; lia).
      rewrite length_take. replace (n - n `min` length (Editor.history s))%nat with 0%nat by lia.
      done.
  - intros s'. unfold Editor.undo.
    destruct (decide (0 < Editor.historyIndex s)%Z) as [Hd|Hd]; [|by intros [= <-]].
    destruct (Editor.history s !! Z.to_nat (Editor.historyIndex s - 1)) as [e|] eqn:He;
      [|done].
    cbn [mbind option_bind]. intros [= <-] _. unfold Spec.current.
    cbn [Editor.tree Editor.history Editor.historyIndex].
    split; [lia|]. by rewrite clone_list.
  - intros s'. unfold Editor.redo.
    destruct (decide (Editor.historyIndex s < Z.of_nat (length (Editor.history s)) - 1)%Z)
      as [Hd|Hd]; [|by intros [= <-]].
    rewrite decide_False by lia.
    destruct (Editor.history s !! Z.to_nat (Editor.historyIndex s + 1)) as [e|] eqn:He;
      [|done].
    cbn [mbind option_bind]. intros [= <-] _. unfold Spec.current.
    cbn [Editor.tree Editor.history Editor.historyIndex].
    split; [lia|]. by rewrite clone_list.
Qed.

Lemma history_tracks_tree_witness :
  Spec.current (Editor.commit Samples.three_siblings Editor.mounted).
Proof.
  destruct (history_tracks_tree Editor.mounted Samples.three_siblings) as [H _];
    [|exact H].
  unfold Spec.consistent. cbn. split_and!; try done. lia.
Defined.

(** X23. [findNodeById] returns the first node, in document order, that
    carries the identifier, and nothing when no node carries it. *)
Theorem findNodeById_first (tree : list Editor.EditableNode) (target : string) :
  Editor.findNodeById tree target =
  head (filter (fun n => Editor.id n = target) (Spec.all_nodes tree)).
Proof.
  induction tree as [|c l IH]; [done|].
  cbn [Editor.findNodeById]. rewrite all_nodes_cons, filter_app, head_app.
  rewrite <- find_node_first, <- IH. done.
Qed.

(** X24. The three counts of a report add up to the number of its
    records. *)
Theorem diffMaps_counts_total (localeCompare : string → string → Z)
    (left right : Js.record) :
  (Worker.n_added (Worker.diffMaps localeCompare left right).2 +
   Worker.n_removed (Worker.diffMaps localeCompare left right).2 +
   Worker.n_changed (Worker.diffMaps localeCompare left right).2)%nat =
  length (Worker.diffMaps localeCompare left right).1.
Proof.
  rewrite diffMaps_unfold. cbn [fst snd Worker.n_added Worker.n_removed Worker.n_changed].
  rewrite count_kinds_total. by rewrite sort_Permutation.
Qed.

(** X25. Reindexing touches identifiers and paths only.  The tree that
    [regenerateIds] returns has the names, values, attributes and shape of
    the tree it was given; the result does not depend on the identifiers
    and paths the nodes had; and the document that [buildXmlFromEditable]
    makes of the tree is the same before and after. *)
Theorem regenerateIds_keeps_content (tree : list Editor.EditableNode)
    (parentPath : string) (siblingCounts : Js.counters) :
  Spec.strip <$> Editor.regenerateIds tree parentPath siblingCounts = Spec.strip <$> tree ∧
  Editor.regenerateIds (Spec.strip <$> tree) parentPath siblingCounts =
    Editor.regenerateIds tree parentPath siblingCounts ∧
  Editor.buildXmlFromEditable (Editor.regenerateIds tree parentPath siblingCounts) =
    Editor.buildXmlFromEditable tree.
Proof.
  split_and!.
  - apply strip_regenerate.
  - apply regenerate_strip.
  - rewrite <- serialize_strip, strip_regenerate. apply serialize_strip.
Qed.
